(** * 3ColorGraph: a shallow embedding of the generator and the supervisor

    The development follows the C sources: [common.h] (constants and the
    shared-memory layout), [generator.c] (argument parsing, the coloring
    engine, the publish loop) and [supervisor.c] (creation of the named
    objects, the consume loop, [countEdges], [circ_buf_read]).

    C objects are modelled as they are laid out: a [char] array is a list
    of bytes, a C string is the run of bytes up to the first NUL, [int]
    and [size_t] values are integers with their wrap-around written out.
    An access outside the array it is made on is a [Fault]: the C standard
    gives it no meaning, and the model stops there. *)

From Stdlib Require Import ZArith Lia Ascii String.
From stdpp Require Import base list strings gmap.

Open Scope Z_scope.

(** ** Constants of [common.h] *)

Definition SHM_NAME : string := "/3col".
Definition SEM_FREE : string := "/3col_free".
Definition SEM_USED : string := "/3col_used".
Definition SEM_MUTEX : string := "/3col_mutex".
Definition BUF_LEN : Z := 64.
Definition MAX_LINE : Z := 50.

Definition EXIT_SUCCESS : Z := 0.
Definition EXIT_FAILURE : Z := 1.

(** ** Results of C code that may leave the bounds of an object *)

Inductive res (A : Type) : Type :=
  | Done (a : A)
  | Fault (offset : Z).
Arguments Done {A} a.
Arguments Fault {A} offset.

Definition rbind {A B} (m : res A) (f : A -> res B) : res B :=
  match m with
  | Done a => f a
  | Fault o => Fault o
  end.

Notation "'let*' x := m 'in' k" := (rbind m (fun x => k))
  (at level 10, x name, m at level 100, k at level 200).

(** ** The part of libc the programs use, on byte arrays *)

Module Libc.

Definition NUL : ascii := Ascii.zero.
Definition SPACE : ascii := " "%char.
Definition DASH : ascii := "-"%char.

Definition is_nul (c : ascii) : bool := Ascii.eqb c NUL.

(** 64-bit [size_t] subtraction. *)
Definition size_sub (a b : Z) : Z := (a - b) mod 2 ^ 64.

(** What C reads of a string argument: the bytes before the first NUL. *)
Fixpoint c_str_bytes (l : list ascii) : list ascii :=
  match l with
  | [] => []
  | c :: l' => if is_nul c then [] else c :: c_str_bytes l'
  end.

Definition c_str (s : string) : list ascii :=
  c_str_bytes (list_ascii_of_string s).

(** [arr[i] = c] on an array of [length arr] bytes. *)
Definition store (arr : list ascii) (i : nat) (c : ascii) : res (list ascii) :=
  if (i <? length arr)%nat then Done (<[i:=c]> arr) else Fault (Z.of_nat i).

Fixpoint store_bytes (arr : list ascii) (i : nat) (cs : list ascii)
  : res (list ascii) :=
  match cs with
  | [] => Done arr
  | c :: cs' => let* arr' := store arr i c in store_bytes arr' (S i) cs'
  end.

(** [strlen]: the offset of the first NUL; scanning past the array is a
    fault. *)
Fixpoint strlen_from (l : list ascii) (i : nat) : res nat :=
  match l with
  | [] => Fault (Z.of_nat i)
  | c :: l' => if is_nul c then Done i else strlen_from l' (S i)
  end.

Definition strlen (arr : list ascii) : res nat := strlen_from arr 0.

(** [strncat(dest, src, n)]: at most [n] bytes of [src] are appended at
    the end of the string in [dest], then a NUL is written. *)
Definition strncat (dest : list ascii) (src : list ascii) (n : Z)
  : res (list ascii) :=
  let* l := strlen dest in
  let cs := take (Z.to_nat n) (c_str_bytes src) in
  let* dest' := store_bytes dest l cs in
  store dest' (l + length cs) NUL.

(** [memset(arr, c, n)], for [n] within the array. *)
Definition memset {A} (arr : list A) (c : A) (n : nat) : list A :=
  replicate (min n (length arr)) c ++ drop n arr.

(** The string held in an array, for statements: the bytes before the
    first NUL (all of them when there is none). *)
Definition string_in (arr : list ascii) : list ascii := c_str_bytes arr.

End Libc.
Export Libc.

(** ** [generator.c]: parsing of the edge arguments *)

Module Parse.

Definition LONG_MAX : Z := 2 ^ 63 - 1.
Definition LONG_MIN : Z := - 2 ^ 63.
Definition INT_MAX : Z := 2 ^ 31 - 1.
Definition INT_MIN : Z := - 2 ^ 31.
Definition ERANGE : Z := 34.

(** [(int) val] for a [long]: the low 32 bits, read as signed. *)
Definition to_int (x : Z) : Z := (x + 2 ^ 31) mod 2 ^ 32 - 2 ^ 31.

(** [isspace] in the C locale. *)
Definition is_space (c : ascii) : bool :=
  let n := nat_of_ascii c in
  (n =? 32)%nat || ((9 <=? n)%nat && (n <=? 13)%nat).

Definition digit_of (c : ascii) : option Z :=
  let n := nat_of_ascii c in
  if ((48 <=? n)%nat && (n <=? 57)%nat) then Some (Z.of_nat n - 48) else None.

Fixpoint skip_space (l : list ascii) : list ascii :=
  match l with
  | c :: l' => if is_space c then skip_space l' else l
  | [] => []
  end.

(** The digits at the head of [l], accumulated in base 10 onto [acc];
    the boolean says whether there was one. *)
Fixpoint read_digits (l : list ascii) (acc : Z) (any : bool)
  : Z * list ascii * bool :=
  match l with
  | c :: l' =>
      match digit_of c with
      | Some d => read_digits l' (10 * acc + d) true
      | None => (acc, l, any)
      end
  | [] => (acc, [], any)
  end.

(** [strtol(str, &endptr, 10)]: value, the rest of the string [endptr]
    points at, and [errno]. Without a digit nothing is converted and
    [endptr] is [str] itself. *)
Definition strtol (str : list ascii) : Z * list ascii * Z :=
  let s1 := skip_space str in
  let '(neg, s2) :=
    match s1 with
    | c :: r =>
        if Ascii.eqb c "-" then (true, r)
        else if Ascii.eqb c "+" then (false, r)
        else (false, s1)
    | [] => (false, s1)
    end in
  let '(mag, rest, any) := read_digits s2 0 false in
  if any then
    let v := if neg then - mag else mag in
    if v >? LONG_MAX then (LONG_MAX, rest, ERANGE)
    else if v <? LONG_MIN then (LONG_MIN, rest, ERANGE)
    else (v, rest, 0)
  else (0, str, 0).

(** [*endptr == str]: both point into the same string, so they are
    equal exactly when as much of it is left. *)
Definition same_ptr (p q : list ascii) : bool := (length p =? length q)%nat.

(** [parseNumber(str, &endptr, &status)]: the returned [int], [*endptr]
    and [*status]. *)
Definition parseNumber (str : list ascii) : Z * list ascii * Z :=
  let '(val, endptr, errno) := strtol str in
  let status :=
    if ((errno =? ERANGE) && ((val =? LONG_MAX) || (val =? LONG_MIN)))
       || (negb (errno =? 0) && (val =? 0))
    then -1
    else if same_ptr endptr str then -2
    else if (val >? INT_MAX) || (val <? INT_MIN) then -3
    else 0 in
  (to_int val, endptr, status).

(** [*p] for a pointer into a string: the NUL terminator at its end. *)
Definition deref (p : list ascii) : ascii :=
  match p with
  | c :: _ => c
  | [] => NUL
  end.

(** [parseEdge(nodes, edge)]: the return value and the array [nodes]
    after the call. *)
Definition parseEdge (nodes : Z * Z) (edge : list ascii) : Z * (Z * Z) :=
  let '(n0, ptrU, status) := parseNumber edge in
  let nodes := (n0, snd nodes) in
  if negb (Ascii.eqb (deref ptrU) DASH) || (status <? 0) then (-1, nodes)
  else
    let '(n1, ptrV, status) := parseNumber (tail ptrU) in
    let nodes := (fst nodes, n1) in
    if negb (same_ptr ptrV []) || (status <? 0) then (-1, nodes)
    else (0, nodes).

Record edge := Edge { nodeU : Z; nodeV : Z }.

(** The loop of [parseEdges] over [str[i]], [offset <= i < n]: the
    return value, the entries written to [edges], and [*endptr]. *)
Fixpoint parseEdges_loop (strs : list string) (edges : list edge)
    (currentNodes : Z * Z) (nodeN : Z) : Z * list edge * option string :=
  match strs with
  | [] => (nodeN, edges, None)
  | s :: strs' =>
      let '(rc, currentNodes) := parseEdge currentNodes (c_str s) in
      if rc <? 0 then (-1, edges, Some s)
      else
        let edges := edges ++ [Edge (fst currentNodes) (snd currentNodes)] in
        let nodeN :=
          if to_int (fst currentNodes + 1) >? nodeN
          then to_int (fst currentNodes + 1) else nodeN in
        let nodeN :=
          if to_int (snd currentNodes + 1) >? nodeN
          then to_int (snd currentNodes + 1) else nodeN in
        parseEdges_loop strs' edges currentNodes nodeN
  end.

Definition parseEdges (str : list string) (n offset : nat)
  : Z * list edge * option string :=
  parseEdges_loop (drop offset (take n str)) [] (0, 0) 0.

End Parse.
Export Parse.

(** ** [generator.c]: the coloring engine *)

Module Coloring.

(** The source of randomness: [rng k] is what the [k]-th call of
    [random()] returns. *)
Definition rand_src : Type := nat -> Z.

(** A value stored in a [char]. *)
Definition to_char (x : Z) : Z := (x + 128) mod 256 - 128.

Definition load_node (nodes : list Z) (i : Z) : res Z :=
  if i <? 0 then Fault i
  else match nodes !! Z.to_nat i with
       | Some c => Done c
       | None => Fault i
       end.

Definition store_node (nodes : list Z) (i : Z) (c : Z) : res (list Z) :=
  if (0 <=? i) && (i <? Z.of_nat (length nodes))
  then Done (<[Z.to_nat i := c]> nodes)
  else Fault i.

(** [if (nodes[i] == 0) nodes[i] = (random() % 3) + 1;] *)
Definition color_if_uncolored (rng : rand_src) (i : Z)
    (nodes : list Z) (k : nat) : res (list Z * nat) :=
  let* c := load_node nodes i in
  if c =? 0 then
    let* nodes' := store_node nodes i (to_char (Z.rem (rng k) 3 + 1)) in
    Done (nodes', S k)
  else Done (nodes, k).

Record engine := Engine {
  e_nodes : list Z;        (* char nodes[NODE_NUM] *)
  e_buf : list ascii;      (* char buf[MAX_LINE] *)
  e_draws : nat            (* calls of random() so far *)
}.

Definition arg_at (edgeStr : list string) (i : nat) : res (list ascii) :=
  match edgeStr !! i with
  | Some s => Done (c_str s)
  | None => Fault (Z.of_nat i)
  end.

(** The [for] loop of [generate3coloring], from index [i] on. *)
Fixpoint coloring_loop (rng : rand_src) (edges : list edge) (i : nat)
    (edgeStr : list string) (offset : nat) (st : engine)
  : res (Z * engine) :=
  match edges with
  | [] => Done (0, st)
  | e :: edges' =>
      let* a := color_if_uncolored rng (nodeU e) (e_nodes st) (e_draws st) in
      let* b := color_if_uncolored rng (nodeV e) (fst a) (snd a) in
      let nodes := fst b in
      let* cu := load_node nodes (nodeU e) in
      let* cv := load_node nodes (nodeV e) in
      if cu =? cv then
        let buf := e_buf st in
        let* l := strlen buf in
        let* buf :=
          (if (0 <? l)%nat
           then strncat buf [SPACE] (size_sub MAX_LINE (Z.of_nat l))
           else Done buf) in
        let* l := strlen buf in
        let* s := arg_at edgeStr (i + offset) in
        if size_sub MAX_LINE (Z.of_nat l) <? Z.of_nat (length s)
        then Done (-1, Engine nodes buf (snd b))
        else
          let* l := strlen buf in
          let* buf := strncat buf s (size_sub MAX_LINE (Z.of_nat l)) in
          coloring_loop rng edges' (S i) edgeStr offset
            (Engine nodes buf (snd b))
      else coloring_loop rng edges' (S i) edgeStr offset
             (Engine nodes (e_buf st) (snd b))
  end.

(** [generate3coloring(nodes, nodeN, edges, edgeN, edgeStr, offset, buf)],
    with the random source at its [k]-th draw. *)
Definition generate3coloring (rng : rand_src) (k : nat)
    (nodes : list Z) (nodeN : nat) (edges : list edge) (edgeN : nat)
    (edgeStr : list string) (offset : nat) (buf : list ascii)
  : res (Z * engine) :=
  let nodes := memset nodes 0 nodeN in
  let buf := memset buf NUL (Z.to_nat MAX_LINE) in
  coloring_loop rng (take edgeN edges) 0 edgeStr offset (Engine nodes buf k).

End Coloring.
Export Coloring.

(** [holds arr content]: the array is [content], a string without NUL
    shorter than the array, followed by NULs only. This is how [buf]
    looks between two steps of the coloring loop. *)
Definition holds (arr content : list ascii) : Prop :=
  arr = content ++ replicate (length arr - length content) NUL
  /\ (length content < length arr)%nat
  /\ Forall (fun c => is_nul c = false) content.

(** ** The coloring engine as the specification words it *)

Module EngineSpec.

(** A color drawn from the random source: one of 1, 2, 3. *)
Definition pick (rng : rand_src) (k : nat) : Z := rng k mod 3 + 1.

(** An uncolored node gets the next draw; a colored one keeps its
    color. *)
Definition paint (rng : rand_src) (i : Z) (col : list Z) (k : nat)
  : list Z * nat :=
  match col !! Z.to_nat i with
  | Some c =>
      if c =? 0 then (<[Z.to_nat i := pick rng k]> col, S k) else (col, k)
  | None => (col, k)
  end.

(** Edges are taken in input order, endpoint U before endpoint V. *)
Fixpoint greedy (rng : rand_src) (es : list edge) (col : list Z) (k : nat)
  : list Z * nat :=
  match es with
  | [] => (col, k)
  | e :: es' =>
      let a := paint rng (nodeU e) col k in
      let b := paint rng (nodeV e) (fst a) (snd a) in
      greedy rng es' (fst b) (snd b)
  end.

Definition color_of (col : list Z) (i : Z) : Z :=
  default 0 (col !! Z.to_nat i).

(** A conflict edge: both endpoints carry the same color. *)
Definition conflicting (col : list Z) (e : edge) : bool :=
  color_of col (nodeU e) =? color_of col (nodeV e).

(** The textual forms of the conflict edges, in edge-list order. *)
Fixpoint conflict_texts (col : list Z) (es : list edge) (texts : list string)
  : list (list ascii) :=
  match es, texts with
  | e :: es', t :: ts' =>
      if conflicting col e then c_str t :: conflict_texts col es' ts'
      else conflict_texts col es' ts'
  | _, _ => []
  end.

(** Tokens separated by single spaces. *)
Fixpoint join_sp (ts : list (list ascii)) : list ascii :=
  match ts with
  | [] => []
  | [t] => t
  | t :: ts' => t ++ SPACE :: join_sp ts'
  end.

Definition in_range (n : nat) (e : edge) : Prop :=
  0 <= nodeU e < Z.of_nat n /\ 0 <= nodeV e < Z.of_nat n.

End EngineSpec.
Export EngineSpec.

(** Appending one token to the report the way the loop does it: a space
    first unless the buffer is still empty. *)
Definition append_tok (content t : list ascii) : list ascii :=
  match content with
  | [] => t
  | _ => content ++ SPACE :: t
  end.

(** A triangle, with a random source that always returns 0: every node
    gets color 1 and every edge is a conflict. *)
Definition tri_args : list string :=
  ["./generator"; "0-1"; "0-2"; "1-2"]%string.
Definition tri_edges : list edge := [Edge 0 1; Edge 0 2; Edge 1 2].
Definition zero_rng : rand_src := fun _ => 0.
Definition tri_engine : engine :=
  match generate3coloring zero_rng 0 [7; 7; 7] 3 tri_edges 3 tri_args 1
          (replicate 50 "x"%char) with
  | Done (_, st) => st
  | Fault _ => Engine [] [] 0
  end.

(** Twelve edges over the nodes 0..10 whose texts, joined by single
    spaces, are exactly [MAX_LINE] = 50 characters long. *)
Definition star_args : list string :=
  ["./generator"; "0-1"; "0-2"; "0-3"; "0-4"; "0-5"; "0-6"; "0-7"; "0-8";
   "0-9"; "0-10"; "1-10"; "2-10"]%string.
Definition star_edges : list edge :=
  [Edge 0 1; Edge 0 2; Edge 0 3; Edge 0 4; Edge 0 5; Edge 0 6; Edge 0 7;
   Edge 0 8; Edge 0 9; Edge 0 10; Edge 1 10; Edge 2 10].

(** ** The shared memory of [common.h] and the two buffer operations *)

Module Shm.

(** [myshm_t]. The two-dimensional [shm_buf[BUF_LEN][MAX_LINE]] is kept
    as C lays it out: [BUF_LEN * MAX_LINE] consecutive bytes, slot [i]
    at offset [i * MAX_LINE]. *)
Record myshm := Myshm {
  state : Z;
  write_pos : Z;
  shm_buf : list ascii
}.

Definition slot_offset (pos : Z) : option nat :=
  if (0 <=? pos) && (pos <? BUF_LEN) then Some (Z.to_nat (pos * MAX_LINE))
  else None.

(** [strncpy(dst, src, n)] writes exactly [n] bytes: the string in
    [src], cut at [n] bytes, then NULs. *)
Definition strncpy_bytes (src : list ascii) (n : nat) : list ascii :=
  take n (string_in src ++ replicate n NUL).

(** [circ_buf_write(str)] of [generator.c] (the [printf] left out). *)
Definition circ_buf_write (m : myshm) (str : list ascii) : res myshm :=
  match slot_offset (write_pos m) with
  | None => Fault (write_pos m)
  | Some off =>
      let* mem := store_bytes (shm_buf m) off
                    (strncpy_bytes str (Z.to_nat MAX_LINE)) in
      Done (Myshm (state m) (Z.rem (write_pos m + 1) BUF_LEN) mem)
  end.

(** [snprintf(buf, size, "%s", src)]: at most [size - 1] bytes of the
    string at [src], then a NUL. *)
Definition snprintf_s (buf : list ascii) (size : nat) (src : list ascii)
  : res (list ascii) :=
  match size with
  | O => Done buf
  | S n =>
      let cs := take n (c_str_bytes src) in
      let* buf' := store_bytes buf 0 cs in
      store buf' (length cs) NUL
  end.

(** [circ_buf_read(buf, &read_pos)] of [supervisor.c]: the new [buf]
    and [*read_pos]. The string is read from the start of the slot up
    to the first NUL, wherever that is: a slot without NUL is read on
    into the bytes that follow it. *)
Definition circ_buf_read (m : myshm) (buf : list ascii) (read_pos : Z)
  : res (list ascii * Z) :=
  match slot_offset read_pos with
  | None => Fault read_pos
  | Some off =>
      let* buf' := snprintf_s buf (Z.to_nat MAX_LINE)
                     (drop off (shm_buf m)) in
      Done (buf', Z.rem (read_pos + 1) BUF_LEN)
  end.

End Shm.
Export Shm.

(** ** [supervisor.c]: [countEdges] *)

Module Count.

Definition UINT_MAX : Z := 2 ^ 32 - 1.

(** [strchr(s, c)] for a [c] other than NUL: the rest of the string from
    the first [c] on, or NULL. *)
Fixpoint strchr (s : list ascii) (c : ascii) : option (list ascii) :=
  match s with
  | [] => None
  | x :: s' => if Ascii.eqb x c then Some s else strchr s' c
  end.

(** The [while (ws != NULL)] loop; [fuel] bounds the iterations. *)
Fixpoint countEdges_loop (fuel : nat) (ws : option (list ascii)) (count : Z)
  : option Z :=
  match ws with
  | None => Some count
  | Some p =>
      match fuel with
      | O => None
      | S fuel' =>
          let count := (count + 1) mod 2 ^ 32 in
          let p := if Ascii.eqb (deref p) SPACE then tail p else p in
          countEdges_loop fuel' (strchr p SPACE) count
      end
  end.

(** [countEdges(edges)] on the string [edges] points at. One iteration
    per byte is always enough (see [countEdges_total]). *)
Definition countEdges (edges : list ascii) : option Z :=
  if (length edges =? 0)%nat then Some 0
  else countEdges_loop (S (length edges)) (Some edges) 0.

End Count.
Export Count.

(** A token of a report: not empty, no space in it. *)
Definition token_ok (t : list ascii) : Prop :=
  t <> [] /\ Forall (fun c => Ascii.eqb c SPACE = false) t.

(** ** The named objects of the operating system *)

Module Posix.

(** The open flags, with their values in [fcntl.h] on Linux. *)
Definition O_RDWR : Z := 2.
Definition O_CREAT : Z := 64.
Definition O_EXCL : Z := 128.

Definition has_flag (oflag flag : Z) : bool :=
  negb (Z.land oflag flag =? 0).

(** The names that exist, for shared memory objects and for
    semaphores. *)
Record os := Os {
  shm_objects : gset string;
  sem_objects : gset string
}.

Inductive errno := EEXIST | ENOENT.

(** How [shm_open] and [sem_open] resolve a name: an existing object is
    refused only under [O_CREAT | O_EXCL]; a missing one is created only
    under [O_CREAT]. *)
Definition open_named (objs : gset string) (name : string) (oflag : Z)
  : gset string * option errno :=
  if decide (name ∈ objs) then
    if has_flag oflag O_CREAT && has_flag oflag O_EXCL
    then (objs, Some EEXIST) else (objs, None)
  else
    if has_flag oflag O_CREAT then ({[name]} ∪ objs, None)
    else (objs, Some ENOENT).

Definition shm_open (o : os) (name : string) (oflag : Z)
  : os * option errno :=
  let '(objs, e) := open_named (shm_objects o) name oflag in
  (Os objs (sem_objects o), e).

Definition sem_open (o : os) (name : string) (oflag : Z)
  : os * option errno :=
  let '(objs, e) := open_named (sem_objects o) name oflag in
  (Os (shm_objects o) objs, e).

(** What a process does that is visible from outside. *)
Inductive sys_event :=
  | SysShmOpen (name : string) (oflag : Z)
  | SysSemOpen (name : string) (oflag : Z)
  | SysUnmapClose
  | SysSemClose (name : string)
  | SysStderr (text : string)
  | SysExit (code : Z)
  | SysCrash.


(** [getopt(argc, argv, "")] at its first call, as glibc does it: the
    arguments are searched up to a ["--"] for one that starts with [-]
    and is longer than that; with an empty option string it is an
    unknown option and ['?'] is returned, and -1 when there is none. *)
Fixpoint has_option (args : list string) : bool :=
  match args with
  | [] => false
  | a :: rest =>
      if String.eqb a "--" then false
      else
        match a with
        | String c (String _ _) =>
            if Ascii.eqb c "-" then true else has_option rest
        | _ => has_option rest
        end
  end.

Definition getopt (argv : list string) : Z :=
  if has_option (tail argv) then 63 else -1.

End Posix.
Export Posix.

(** ** Creation and attachment of the named objects *)

Module Attach.

(** The result of a function that may end the process through
    [error_exit(msg)]. *)
Inductive outcome (A : Type) : Type :=
  | Ret (a : A)
  | ErrorExit (code : Z) (msg : string).
Arguments Ret {A} a.
Arguments ErrorExit {A} code msg.

(** [initSHM] of [supervisor.c]; [ftruncate] and [mmap] are taken to
    succeed. *)
Definition initSHM (o : os) : os * outcome unit :=
  match shm_open o SHM_NAME (Z.lor O_RDWR O_CREAT) with
  | (o', Some _) => (o', ErrorExit EXIT_FAILURE "Failed to open shared memory")
  | (o', None) => (o', Ret tt)
  end.

(** [initSEM] of [supervisor.c]. *)
Definition initSEM (o : os) (sem_name : string) (value : Z)
  : os * outcome unit :=
  match sem_open o sem_name (Z.lor O_CREAT O_EXCL) with
  | (o', Some _) => (o', ErrorExit EXIT_FAILURE "sem_open() failed")
  | (o', None) => (o', Ret tt)
  end.

(** [openSHM] of [generator.c]; [mmap] is taken to succeed. *)
Definition openSHM (o : os) : os * outcome unit :=
  match shm_open o SHM_NAME O_RDWR with
  | (o', Some _) => (o', ErrorExit EXIT_FAILURE "Failed to open shared memory")
  | (o', None) => (o', Ret tt)
  end.

(** [openSEM] of [generator.c]. *)
Definition openSEM (o : os) (sem_name : string) : os * outcome unit :=
  match sem_open o sem_name 0 with
  | (o', Some _) =>
      (o', ErrorExit EXIT_FAILURE ("Failed to open " ++ sem_name))
  | (o', None) => (o', Ret tt)
  end.

End Attach.
Export Attach.

(** ** [generator.c]: [main] up to its loop *)

Module Startup.

Definition usage (myprog : string) : list sys_event :=
  [SysStderr ("Usage: " ++ myprog
              ++ " EDGE1..." ++ String "010" (String "009"
                 "EDGE1: U-V, where U and V are vertex numbers"));
   SysExit EXIT_FAILURE].

(** [error_exit(msg)]: the first line it prints (the line with
    [strerror(errno)], printed when [errno] is set, is left out), the
    [atexit] handlers registered so far, latest first, and the exit. *)
Definition error_exit (myprog msg : string) (handlers : list sys_event)
  : list sys_event :=
  SysStderr ("Error in " ++ myprog ++ ": " ++ msg)
    :: handlers ++ [SysExit EXIT_FAILURE].

Definition text_of (s : string) : string := string_of_list_ascii (c_str s).

(** [main] of [generator.c] from its first line to the line before
    [while (quit == 0)]: what it does, and the node count and edges it
    enters the loop with, if it gets there. *)
Definition generator_startup (o : os) (argv : list string)
  : list sys_event * option (Z * list edge) :=
  let myprog := default ""%string (head argv) in
  if negb (getopt argv =? -1) then (usage myprog, None)
  else if (length argv <=? 1)%nat then (usage myprog, None)
  else
    let ev1 := [SysShmOpen SHM_NAME O_RDWR] in
    match openSHM o with
    | (_, ErrorExit _ msg) => (ev1 ++ error_exit myprog msg [], None)
    | (o, Ret _) =>
    let h1 := [SysUnmapClose] in
    let ev2 := ev1 ++ [SysSemOpen SEM_USED 0] in
    match openSEM o SEM_USED with
    | (_, ErrorExit _ msg) => (ev2 ++ error_exit myprog msg h1, None)
    | (o, Ret _) =>
    let h2 := SysSemClose SEM_USED :: h1 in
    let ev3 := ev2 ++ [SysSemOpen SEM_FREE 0] in
    match openSEM o SEM_FREE with
    | (_, ErrorExit _ msg) => (ev3 ++ error_exit myprog msg h2, None)
    | (o, Ret _) =>
    let h3 := SysSemClose SEM_FREE :: h2 in
    let ev4 := ev3 ++ [SysSemOpen SEM_MUTEX 0] in
    match openSEM o SEM_MUTEX with
    | (_, ErrorExit _ msg) => (ev4 ++ error_exit myprog msg h3, None)
    | (o, Ret _) =>
    let h4 := SysSemClose SEM_MUTEX :: h3 in
    match parseEdges argv (length argv) 1 with
    | (NODE_NUM, edges, ptr) =>
        if (NODE_NUM <? 0) || bool_decide (ptr <> None) then
          match ptr with
          | Some tok =>
              (ev4 ++ error_exit myprog
                        ("Failed to parse edge " ++ text_of tok) h4, None)
          | None => (ev4 ++ [SysCrash], None)   (* strlen(NULL) *)
          end
        else (ev4, Some (NODE_NUM, edges))
    end end end end end.

End Startup.
Export Startup.

(** An operating system in which the supervisor has created the shared
    memory and the three semaphores, and one in which nothing exists. *)
Definition os_ready : os :=
  Os {[SHM_NAME]} ({[SEM_USED]} ∪ {[SEM_FREE]} ∪ {[SEM_MUTEX]}).
Definition os_empty : os := Os ∅ ∅.

(** ** The supervisor and the generators as one transition system

    One step is one statement of a process that touches a semaphore or the
    shared memory, or a stretch of statements on private data. The state
    starts where the supervisor has created and initialised everything
    (line 164 of [supervisor.c]) and every generator has attached and
    parsed its arguments (line 179 of [generator.c]). *)

Module Protocol.

Inductive sem := Free | Used | Mutex.

Inductive proc := Sup | Gen (i : nat).

Inductive action :=
  | Local                (* statements on private data *)
  | Signal               (* SIGINT or SIGTERM caught: [handle_signal] *)
  | Wait (s : sem)       (* [sem_wait] returned 0 *)
  | WaitIntr (s : sem)   (* [sem_wait] returned -1 with [EINTR] *)
  | Post (s : sem)       (* [sem_post] *)
  | Observe (v : Z)      (* [myshm->state] read *)
  | Write (pos : Z)      (* [circ_buf_write]: slot [pos], write cursor *)
  | Read (pos : Z)       (* [circ_buf_read] of slot [pos] *)
  | SetState (v : Z).    (* [myshm->state = v] *)

Definition event : Type := proc * action.

(** Where a generator is in the loop of its [main]. *)
Inductive gen_pc :=
  | GLoop        (* 179-182: loop test, [generate3coloring], [continue] *)
  | GWaitMutex   (* 184: [sem_wait(sem_mutex)] *)
  | GCheck       (* 186: [if (myshm->state == 0)] *)
  | GWaitFree    (* 187: [sem_wait(sem_free)] *)
  | GWrite       (* 189: [circ_buf_write(buf)] *)
  | GPostUsed    (* 190: [sem_post(sem_used)] *)
  | GPostMutex   (* 194: [sem_post(sem_mutex)] *)
  | GExit.       (* 198: [exit(EXIT_SUCCESS)] *)

Record gen := MkGen {
  g_pc : gen_pc;
  g_quit : Z;
  g_buf : list ascii
}.

(** Where the supervisor is in its [main]. *)
Inductive sup_pc :=
  | SLoop        (* 167-168: loop test, [memset(edges, ...)] *)
  | SWaitUsed    (* 171: [sem_wait(sem_used)] *)
  | SRead        (* 176: [circ_buf_read(edges, &read_pos)] *)
  | SPostFree    (* 177: [sem_post(sem_free)] *)
  | SBreak       (* 183: [if (quit != 0) break;] *)
  | SCount       (* 186-194: [countEdges] and what follows *)
  | SAnnounce    (* 198: [myshm->state = 1] *)
  | SFinalPost   (* 199: [sem_post(sem_free)] *)
  | SExit.       (* 204: [exit(EXIT_SUCCESS)] *)

Record sup := MkSup {
  s_pc : sup_pc;
  s_quit : Z;              (* the global [quit] *)
  s_wait_rc : Z;           (* what the last [sem_wait(sem_used)] returned;
                              0 before the first *)
  s_read_pos : Z;
  s_best : Z;              (* [bestSolution] *)
  s_edges : list ascii     (* [char edges[MAX_LINE]] *)
}.

Record world := MkWorld {
  w_shm : myshm;
  sem_free : Z;
  sem_used : Z;
  sem_mutex : Z;
  w_sup : sup;
  w_gens : list gen
}.

(** Who moves. For the supervisor, [eintr] says that its [sem_wait] is
    interrupted by a signal (the handler runs and the call returns -1).
    For a generator, [out] is what the call of [generate3coloring]
    returns and leaves in [buf], used at [GLoop] only. *)
Inductive move :=
  | MSignal
  | MSup (eintr : bool)
  | MGen (i : nat) (out : Z * list ascii).

Definition with_sup (w : world) (s : sup) : world :=
  MkWorld (w_shm w) (sem_free w) (sem_used w) (sem_mutex w) s (w_gens w).

Definition with_gen (w : world) (i : nat) (g : gen) : world :=
  MkWorld (w_shm w) (sem_free w) (sem_used w) (sem_mutex w) (w_sup w)
    (<[i:=g]> (w_gens w)).

Definition at_pc (s : sup) (pc : sup_pc) : sup :=
  MkSup pc (s_quit s) (s_wait_rc s) (s_read_pos s) (s_best s) (s_edges s).

Definition step_signal (w : world) : option (world * event) :=
  let s := w_sup w in
  match s_pc s with
  | SExit => None
  | _ =>
      Some (with_sup w (MkSup (s_pc s) 1 (s_wait_rc s) (s_read_pos s)
                          (s_best s) (s_edges s)),
            (Sup, Signal))
  end.

Definition step_sup (eintr : bool) (w : world) : option (world * event) :=
  let s := w_sup w in
  match s_pc s, eintr with
  | SLoop, false =>
      if s_quit s =? 0 then
        Some (with_sup w
                (MkSup SWaitUsed (s_quit s) (s_wait_rc s) (s_read_pos s)
                   (s_best s) (memset (s_edges s) NUL (Z.to_nat MAX_LINE))),
              (Sup, Local))
      else Some (with_sup w (at_pc s SAnnounce), (Sup, Local))
  | SWaitUsed, true =>
      Some (with_sup w
              (MkSup SRead 1 (-1) (s_read_pos s) (s_best s) (s_edges s)),
            (Sup, WaitIntr Used))
  | SWaitUsed, false =>
      if 0 <? sem_used w then
        Some (MkWorld (w_shm w) (sem_free w) (sem_used w - 1) (sem_mutex w)
                (MkSup SRead (s_quit s) 0 (s_read_pos s) (s_best s)
                   (s_edges s))
                (w_gens w),
              (Sup, Wait Used))
      else None
  | SRead, false =>
      match circ_buf_read (w_shm w) (s_edges s) (s_read_pos s) with
      | Done (buf, pos) =>
          Some (with_sup w
                  (MkSup SPostFree (s_quit s) (s_wait_rc s) pos (s_best s)
                     buf),
                (Sup, Read (s_read_pos s)))
      | Fault _ => None
      end
  | SPostFree, false =>
      Some (MkWorld (w_shm w) (sem_free w + 1) (sem_used w) (sem_mutex w)
              (at_pc s SBreak) (w_gens w),
            (Sup, Post Free))
  | SBreak, false =>
      if s_quit s =? 0 then Some (with_sup w (at_pc s SCount), (Sup, Local))
      else Some (with_sup w (at_pc s SAnnounce), (Sup, Local))
  | SCount, false =>
      match countEdges (string_in (s_edges s)) with
      | None => None
      | Some edgeCount =>
          if (0 <? edgeCount) && (edgeCount <? s_best s) then
            Some (with_sup w
                    (MkSup SLoop (s_quit s) (s_wait_rc s) (s_read_pos s)
                       edgeCount (s_edges s)),
                  (Sup, Local))
          else if edgeCount =? 0 then
            Some (MkWorld (Myshm 1 (write_pos (w_shm w)) (shm_buf (w_shm w)))
                    (sem_free w) (sem_used w) (sem_mutex w)
                    (at_pc s SAnnounce) (w_gens w),
                  (Sup, SetState 1))
          else Some (with_sup w (at_pc s SLoop), (Sup, Local))
      end
  | SAnnounce, false =>
      Some (MkWorld (Myshm 1 (write_pos (w_shm w)) (shm_buf (w_shm w)))
              (sem_free w) (sem_used w) (sem_mutex w)
              (at_pc s SFinalPost) (w_gens w),
            (Sup, SetState 1))
  | SFinalPost, false =>
      Some (MkWorld (w_shm w) (sem_free w + 1) (sem_used w) (sem_mutex w)
              (at_pc s SExit) (w_gens w),
            (Sup, Post Free))
  | _, _ => None
  end.

Definition step_gen (i : nat) (out : Z * list ascii) (w : world)
  : option (world * event) :=
  match w_gens w !! i with
  | None => None
  | Some g =>
      match g_pc g with
      | GLoop =>
          if g_quit g =? 0 then
            if fst out =? 0
            then Some (with_gen w i (MkGen GWaitMutex (g_quit g) (snd out)),
                       (Gen i, Local))
            else Some (with_gen w i (MkGen GLoop (g_quit g) (snd out)),
                       (Gen i, Local))
          else Some (with_gen w i (MkGen GExit (g_quit g) (g_buf g)),
                     (Gen i, Local))
      | GWaitMutex =>
          if 0 <? sem_mutex w then
            Some (MkWorld (w_shm w) (sem_free w) (sem_used w)
                    (sem_mutex w - 1) (w_sup w)
                    (<[i:=MkGen GCheck (g_quit g) (g_buf g)]> (w_gens w)),
                  (Gen i, Wait Mutex))
          else None
      | GCheck =>
          if state (w_shm w) =? 0 then
            Some (with_gen w i (MkGen GWaitFree (g_quit g) (g_buf g)),
                  (Gen i, Observe (state (w_shm w))))
          else
            Some (with_gen w i (MkGen GPostMutex 1 (g_buf g)),
                  (Gen i, Observe (state (w_shm w))))
      | GWaitFree =>
          if 0 <? sem_free w then
            Some (MkWorld (w_shm w) (sem_free w - 1) (sem_used w)
                    (sem_mutex w) (w_sup w)
                    (<[i:=MkGen GWrite (g_quit g) (g_buf g)]> (w_gens w)),
                  (Gen i, Wait Free))
          else None
      | GWrite =>
          match circ_buf_write (w_shm w) (g_buf g) with
          | Done m =>
              Some (MkWorld m (sem_free w) (sem_used w) (sem_mutex w)
                      (w_sup w)
                      (<[i:=MkGen GPostUsed (g_quit g) (g_buf g)]> (w_gens w)),
                    (Gen i, Write (write_pos (w_shm w))))
          | Fault _ => None
          end
      | GPostUsed =>
          Some (MkWorld (w_shm w) (sem_free w) (sem_used w + 1)
                  (sem_mutex w) (w_sup w)
                  (<[i:=MkGen GPostMutex (g_quit g) (g_buf g)]> (w_gens w)),
                (Gen i, Post Used))
      | GPostMutex =>
          Some (MkWorld (w_shm w) (sem_free w) (sem_used w)
                  (sem_mutex w + 1) (w_sup w)
                  (<[i:=MkGen GLoop (g_quit g) (g_buf g)]> (w_gens w)),
                (Gen i, Post Mutex))
      | GExit => None
      end
  end.

(** One step; [None] when the process that is to move is blocked in its
    [sem_wait] or has exited. *)
Definition step (m : move) (w : world) : option (world * event) :=
  match m with
  | MSignal => step_signal w
  | MSup eintr => step_sup eintr w
  | MGen i out => step_gen i out w
  end.

(** An execution under a schedule, with the events in order. *)
Fixpoint run (ms : list move) (w : world) : option (world * list event) :=
  match ms with
  | [] => Some (w, [])
  | m :: ms' =>
      match step m w with
      | None => None
      | Some (w1, e) =>
          match run ms' w1 with
          | None => None
          | Some (w2, tr) => Some (w2, e :: tr)
          end
      end
  end.

(** The state after initialisation, with [n] generators attached. *)
Definition initial (n : nat) : world :=
  MkWorld (Myshm 0 0 (replicate (Z.to_nat (BUF_LEN * MAX_LINE)) NUL))
    BUF_LEN 0 1
    (MkSup SLoop 0 0 0 UINT_MAX (replicate (Z.to_nat MAX_LINE) NUL))
    (replicate n (MkGen GLoop 0 (replicate (Z.to_nat MAX_LINE) NUL))).

(** Published minus consumed: calls of [circ_buf_write] minus calls of
    [circ_buf_read]. *)
Definition delta (e : event) : Z :=
  match snd e with
  | Write _ => 1
  | Read _ => -1
  | _ => 0
  end.

Fixpoint outstanding (tr : list event) : Z :=
  match tr with
  | [] => 0
  | e :: tr' => delta e + outstanding tr'
  end.

End Protocol.
Export Protocol.

(** ** Accounting of the slots and of the mutex *)

Module Accounting.

(** How many generators are at a program point for which [f] holds. *)
Fixpoint count_gens (f : gen_pc -> bool) (gs : list gen) : Z :=
  match gs with
  | [] => 0
  | g :: gs' => (if f (g_pc g) then 1 else 0) + count_gens f gs'
  end.

(** Between [sem_wait(sem_mutex)] and [sem_post(sem_mutex)]. *)
Definition in_cs (pc : gen_pc) : bool :=
  match pc with
  | GCheck | GWaitFree | GWrite | GPostUsed | GPostMutex => true
  | _ => false
  end.

(** Between [sem_wait(sem_free)] and [sem_post(sem_used)]. *)
Definition holds_slot (pc : gen_pc) : bool :=
  match pc with
  | GWrite | GPostUsed => true
  | _ => false
  end.

Definition unposted (pc : gen_pc) : bool :=
  match pc with
  | GPostUsed => true
  | _ => false
  end.

Definition unwritten (pc : gen_pc) : bool :=
  match pc with
  | GWrite => true
  | _ => false
  end.

(** The supervisor between a successful [sem_wait(sem_used)] and its
    [sem_post(sem_free)]. *)
Definition sup_holds (s : sup) : Z :=
  match s_pc s with
  | SRead | SPostFree => if s_wait_rc s =? 0 then 1 else 0
  | _ => 0
  end.

Definition sup_unread (s : sup) : Z :=
  match s_pc s with
  | SRead => if s_wait_rc s =? 0 then 1 else 0
  | _ => 0
  end.

Definition sup_unreleased (s : sup) : Z :=
  match s_pc s with
  | SPostFree => if s_wait_rc s =? 0 then 1 else 0
  | _ => 0
  end.

(** The program points after the [sem_post(sem_free)] of the loop. *)
Definition after_post (pc : sup_pc) : bool :=
  match pc with
  | SBreak | SAnnounce | SFinalPost | SExit => true
  | _ => false
  end.

Definition after_read (pc : sup_pc) : bool :=
  match pc with
  | SPostFree => true
  | pc => after_post pc
  end.

(** Releases of [sem_free] that no [sem_wait(sem_used)] paid for: the
    one after an interrupted wait and the one of the shutdown. *)
Definition extra_releases (s : sup) : Z :=
  (if (s_wait_rc s =? -1) && after_post (s_pc s) then 1 else 0)
  + (match s_pc s with SExit => 1 | _ => 0 end).

(** Reads that no successful wait preceded. *)
Definition stray_reads (s : sup) : Z :=
  if (s_wait_rc s =? -1) && after_read (s_pc s) then 1 else 0.

Definition in_flight (w : world) : Z :=
  count_gens holds_slot (w_gens w) + sup_holds (w_sup w).

Definition balance (w : world) : Z :=
  sem_used w + count_gens unposted (w_gens w) + sup_unread (w_sup w)
  - stray_reads (w_sup w).

Record inv (w : world) : Prop := {
  inv_mutex : sem_mutex w + count_gens in_cs (w_gens w) = 1;
  inv_slots : sem_used w + sem_free w + in_flight w
              = BUF_LEN + extra_releases (w_sup w);
  inv_used : 0 <= sem_used w;
  inv_free : 0 <= sem_free w;
  inv_lock : 0 <= sem_mutex w;
  inv_rc : s_wait_rc (w_sup w) = 0
           \/ (s_wait_rc (w_sup w) = -1 /\ s_quit (w_sup w) <> 0
               /\ (s_pc (w_sup w) = SRead
                   \/ after_read (s_pc (w_sup w)) = true));
  inv_read_pos : 0 <= s_read_pos (w_sup w) < BUF_LEN
}.

End Accounting.
Export Accounting.

(** A generator that publishes one record: the seven steps of an
    iteration of its loop. *)
Definition one_record : Z * list ascii :=
  (0, list_ascii_of_string "0-1" ++ replicate 47 NUL).
Definition publish_once : list move := replicate 7 (MGen 0 one_record).

(** One record published, and the supervisor about to read it. *)
Definition demo_schedule : list move := publish_once ++ [MSup false; MSup false].
Definition demo_state : world * list event :=
  match run demo_schedule (initial 1) with
  | Some r => r
  | None => (initial 1, [])
  end.

(** ** The publish protocol as the specification words it *)

Module PublishSpec.

(** Where a producer is in a publish attempt: (a) the mutex acquired,
    (b) the flag seen set, or (c) the flag seen clear, the free slot
    acquired, the record written, [used-slots] released. *)
Inductive phase :=
  | Idle | Locked | Cleared | Holding | Written | Posted
  | Stopping | Stopped.

Definition accept (ph : phase) (a : action) : option phase :=
  match a, ph with
  | Local, _ => Some ph
  | Wait Mutex, Idle => Some Locked
  | Observe v, Locked => if v =? 0 then Some Cleared else Some Stopping
  | Wait Free, Cleared => Some Holding
  | Write _, Holding => Some Written
  | Post Used, Written => Some Posted
  | Post Mutex, Posted => Some Idle
  | Post Mutex, Stopping => Some Stopped
  | _, _ => None
  end.

Fixpoint accepts (ph : phase) (l : list action) : option phase :=
  match l with
  | [] => Some ph
  | a :: l' =>
      match accept ph a with
      | Some ph' => accepts ph' l'
      | None => None
      end
  end.

Definition follows_protocol (l : list action) : bool :=
  match accepts Idle l with
  | Some _ => true
  | None => false
  end.

Definition proc_eqb (p q : proc) : bool :=
  match p, q with
  | Sup, Sup => true
  | Gen i, Gen j => (i =? j)%nat
  | _, _ => false
  end.

(** What one process does in a trace. *)
Fixpoint actions_of (p : proc) (tr : list event) : list action :=
  match tr with
  | [] => []
  | (q, a) :: tr' =>
      if proc_eqb q p then a :: actions_of p tr' else actions_of p tr'
  end.




Definition stopped (ph : phase) : bool :=
  match ph with
  | Stopping | Stopped => true
  | _ => false
  end.

End PublishSpec.
Export PublishSpec.

(** ** The generators follow the protocol *)

Definition phase_of (g : gen) : phase :=
  match g_pc g with
  | GLoop => if g_quit g =? 0 then Idle else Stopped
  | GWaitMutex => Idle
  | GCheck => Locked
  | GWaitFree => Cleared
  | GWrite => Holding
  | GPostUsed => Written
  | GPostMutex => if g_quit g =? 0 then Posted else Stopping
  | GExit => Stopped
  end.

Definition phase_at (w : world) (j : nat) : phase :=
  match w_gens w !! j with
  | Some g => phase_of g
  | None => Idle
  end.

(** [quit] is set only on the way out. *)
Definition gen_ok (g : gen) : Prop :=
  g_quit g = 0 \/ g_pc g = GPostMutex \/ g_pc g = GLoop \/ g_pc g = GExit.

(** One record published, a signal, the shutdown of the supervisor, and
    the generator on its next attempt, up to its exit. *)
Definition stop_schedule : list move :=
  publish_once ++ [MSignal; MSup false; MSup false]
  ++ replicate 5 (MGen 0 one_record).
Definition stop_state : world * list event :=
  match run stop_schedule (initial 1) with
  | Some r => r
  | None => (initial 1, [])
  end.

(** * Further parts of the programs *)

(** ** Decimal numerals, as [strtol] reads them *)

Definition is_digit (c : ascii) : Prop := digit_of c <> None.

(** The value of a run of digits read onto [acc]. *)
Definition value_from (acc : Z) (ds : list ascii) : Z :=
  fold_left (fun a c => 10 * a + default 0 (digit_of c)) ds acc.

Definition decimal_value (ds : list ascii) : Z := value_from 0 ds.

(** ** Node ids below a bound *)


(** ** Colored nodes *)

(** How many entries of the node array are not 0. *)
Fixpoint count_colored (col : list Z) : nat :=
  match col with
  | [] => 0
  | c :: col' => (if c =? 0 then 0 else 1) + count_colored col'
  end.

Definition touches (j : Z) (e : edge) : Prop := nodeU e = j \/ nodeV e = j.

(** ** Spaces in a record *)

Fixpoint count_spaces (s : list ascii) : Z :=
  match s with
  | [] => 0
  | c :: s' => (if Ascii.eqb c SPACE then 1 else 0) + count_spaces s'
  end.

(** The record without the space it may start with. *)
Definition skip_leading_space (s : list ascii) : list ascii :=
  if Ascii.eqb (deref s) SPACE then tail s else s.

(** ** Records in the circular buffer *)

(** What [circ_buf_read] finds at slot [pos]. *)
Definition slot_string (mem : list ascii) (pos : Z) : list ascii :=
  take (Z.to_nat (MAX_LINE - 1))
    (c_str_bytes (drop (Z.to_nat (pos * MAX_LINE)) mem)).

(** A record as a reader of [MAX_LINE] bytes can get it. *)
Definition cut_record (s : list ascii) : list ascii :=
  take (Z.to_nat (MAX_LINE - 1)) s.

(** The string a step hands to [circ_buf_write], and the string a step
    gets from [circ_buf_read]. *)
Definition record_written (w : world) (e : event) : list (list ascii) :=
  match e with
  | (Gen i, Write _) =>
      match w_gens w !! i with
      | Some g => [string_in (g_buf g)]
      | None => []
      end
  | _ => []
  end.

Definition record_read (w' : world) (e : event) : list (list ascii) :=
  match e with
  | (Sup, Read _) => [string_in (s_edges (w_sup w'))]
  | _ => []
  end.

(** The records written and the records read under a schedule, each in
    the order of the calls. *)
Fixpoint published (ms : list move) (w : world) : list (list ascii) :=
  match ms with
  | [] => []
  | m :: ms' =>
      match step m w with
      | None => []
      | Some (w1, e) => record_written w e ++ published ms' w1
      end
  end.

Fixpoint consumed (ms : list move) (w : world) : list (list ascii) :=
  match ms with
  | [] => []
  | m :: ms' =>
      match step m w with
      | None => []
      | Some (w1, e) => record_read w1 e ++ consumed ms' w1
      end
  end.

(** No [sem_wait] of the supervisor is interrupted by a signal. *)
Definition uninterrupted (ms : list move) : Prop :=
  Forall (fun m => m <> MSup true) ms.

(** The layout of the shared memory and of the supervisor's [edges]. *)
Record shm_ok (w : world) : Prop := {
  ok_mem : length (shm_buf (w_shm w)) = Z.to_nat (BUF_LEN * MAX_LINE);
  ok_write_pos : 0 <= write_pos (w_shm w) < BUF_LEN;
  ok_edges : length (s_edges (w_sup w)) = Z.to_nat MAX_LINE
}.

(** In [sem_wait(sem_free)], and from there to the call of
    [circ_buf_write]. *)
Definition at_wait_free (pc : gen_pc) : bool :=
  match pc with
  | GWaitFree => true
  | _ => false
  end.

Definition about_to_write (pc : gen_pc) : bool :=
  match pc with
  | GWaitFree | GWrite => true
  | _ => false
  end.

Fixpoint count_writes (tr : list event) : Z :=
  match tr with
  | [] => 0
  | (_, Write _) :: tr' => 1 + count_writes tr'
  | _ :: tr' => count_writes tr'
  end.

(** The supervisor has made its last write to the shared memory. *)
Definition sup_leaving (pc : sup_pc) : bool :=
  match pc with
  | SFinalPost | SExit => true
  | _ => false
  end.

(** What links the records written ([Wl], cut as a reader gets them)
    and read ([Rl]) so far to a state: the cursors count them, the
    records read are the first of the records written, and every record
    not yet read is in its slot. *)
Record fifo (w : world) (Wl Rl : list (list ascii)) : Prop := {
  fifo_rc : s_wait_rc (w_sup w) = 0;
  fifo_wp : write_pos (w_shm w) = Z.of_nat (length Wl) mod BUF_LEN;
  fifo_rp : s_read_pos (w_sup w) = Z.of_nat (length Rl) mod BUF_LEN;
  fifo_bal : Z.of_nat (length Wl) - Z.of_nat (length Rl) = balance w;
  fifo_prefix : Rl = take (length Rl) Wl;
  fifo_slots :
    s_pc (w_sup w) <> SExit ->
    forall k : nat, (length Rl <= k < length Wl)%nat ->
      Wl !! k = Some (slot_string (shm_buf (w_shm w))
                        (Z.of_nat k mod BUF_LEN))
}.

(** Two records published by two generators, and the supervisor through
    its loop until it has read both. *)
Definition second_record : Z * list ascii :=
  (0, list_ascii_of_string "1-2 0-2" ++ replicate 43 NUL).
Definition queue_schedule : list move :=
  replicate 7 (MGen 0 one_record) ++ replicate 7 (MGen 1 second_record)
  ++ replicate 9 (MSup false).
Definition queue_state : world * list event :=
  match run queue_schedule (initial 2) with
  | Some r => r
  | None => (initial 2, [])
  end.

(** ** The termination flag *)

(** A generator that was told to stop. *)
Definition stopping (g : gen) : Prop := g_quit g <> 0 \/ g_pc g = GExit.

Record flag_inv (w : world) : Prop := {
  flag_values : state (w_shm w) = 0 \/ state (w_shm w) = 1;
  flag_leaving : sup_leaving (s_pc (w_sup w)) = true -> state (w_shm w) = 1;
  flag_stopping : Forall (fun g => stopping g -> state (w_shm w) = 1)
                    (w_gens w);
  flag_free : s_pc (w_sup w) = SExit ->
              count_gens at_wait_free (w_gens w) <= sem_free w
}.

Definition is_set_state (e : event) : bool :=
  match snd e with
  | SetState _ => true
  | _ => false
  end.

(** A generator waits for a slot when a signal makes the supervisor
    leave; the generator then goes on to publish its record. *)
Definition late_schedule : list move :=
  replicate 3 (MGen 0 one_record) ++ [MSignal; MSup false; MSup false].
Definition late_state : world * list event :=
  match run late_schedule (initial 1) with
  | Some r => r
  | None => (initial 1, [])
  end.
Definition late_finish : list move := replicate 4 (MGen 0 one_record).
Definition late_end : world * list event :=
  match run late_finish (fst late_state) with
  | Some r => r
  | None => (fst late_state, [])
  end.

(** The buffer filled by one generator, which then waits for a slot
    while the supervisor is told to stop and leaves. *)
Definition full_schedule : list move :=
  replicate (7 * 64 + 3) (MGen 0 one_record)
  ++ [MSignal; MSup false; MSup false; MSup false].
Definition full_state : world * list event :=
  match run full_schedule (initial 2) with
  | Some r => r
  | None => (initial 2, [])
  end.

(** ** Why the supervisor stops *)

(** The supervisor's [quit] is set: by [handle_signal], or after a
    [sem_wait] that a signal interrupted. *)
Definition is_signal (e : event) : bool :=
  match snd e with
  | Signal | WaitIntr _ => true
  | _ => false
  end.

(** After the loop of the supervisor's [main]. *)
Definition after_loop (pc : sup_pc) : bool :=
  match pc with
  | SAnnounce | SFinalPost | SExit => true
  | _ => false
  end.

Record verdict_inv (w : world) : Prop := {
  verdict_flag : state (w_shm w) = 1 -> after_loop (s_pc (w_sup w)) = true;
  verdict_cause : after_loop (s_pc (w_sup w)) = true ->
                  s_quit (w_sup w) <> 0
                  \/ string_in (s_edges (w_sup w)) = []
}.

(** The supervisor reads and counts the record of [demo_schedule]. *)
Definition count_schedule : list move := replicate 4 (MSup false).
Definition count_state : world * list event :=
  match run count_schedule (fst demo_state) with
  | Some r => r
  | None => (fst demo_state, [])
  end.

(** ** [supervisor.c]: [main] before and after its loop *)

Module Supervisor.

(** [shm_unlink] and [sem_unlink]: the name is removed; [ENOENT] when
    there is no such object. *)
Definition unlink_named (objs : gset string) (name : string)
  : gset string * option errno :=
  if decide (name ∈ objs) then (objs ∖ {[name]}, None)
  else (objs, Some ENOENT).

Definition shm_unlink (o : os) (name : string) : os * option errno :=
  let '(objs, e) := unlink_named (shm_objects o) name in
  (Os objs (sem_objects o), e).

Definition sem_unlink (o : os) (name : string) : os * option errno :=
  let '(objs, e) := unlink_named (sem_objects o) name in
  (Os (shm_objects o) objs, e).

(** What the supervisor does that is visible from outside: what a
    generator does, and the removal of names. *)
Inductive sup_event :=
  | Sys (e : sys_event)
  | SysShmUnlink (name : string)
  | SysSemUnlink (name : string).

(** [print_error(msg)] of [common.c]: the first line it prints. *)
Definition print_error (myprog msg : string) : sup_event :=
  Sys (SysStderr ("Error in " ++ myprog ++ ": " ++ msg)).

(** [cleanupSHM]; [munmap] and [close] are taken to succeed. *)
Definition cleanupSHM (myprog : string) (o : os) : os * list sup_event :=
  match shm_unlink o SHM_NAME with
  | (o', Some _) =>
      (o', [Sys SysUnmapClose; SysShmUnlink SHM_NAME;
            print_error myprog "Failed to remove shared memory object"])
  | (o', None) => (o', [Sys SysUnmapClose; SysShmUnlink SHM_NAME])
  end.

(** [cleanupSemUsed], [cleanupSemFree] and [cleanupSemMutex], which
    differ in the semaphore and in the text of the message; [sem_close]
    is taken to succeed. *)
Definition cleanupSem (name label myprog : string) (o : os)
  : os * list sup_event :=
  match sem_unlink o name with
  | (o', Some _) =>
      (o', [Sys (SysSemClose name); SysSemUnlink name;
            print_error myprog ("Failed to unlink " ++ label)])
  | (o', None) => (o', [Sys (SysSemClose name); SysSemUnlink name])
  end.

Definition cleanupSemUsed := cleanupSem SEM_USED "/01528992_3col_used".
Definition cleanupSemFree := cleanupSem SEM_FREE "/01528992_3col_free".
Definition cleanupSemMutex := cleanupSem SEM_MUTEX "/01528992_3col_mutex".

(** The functions registered with [atexit]. *)
Inductive handler :=
  | CleanupSHM | CleanupSemUsed | CleanupSemFree | CleanupSemMutex.

Definition run_handler (myprog : string) (h : handler) (o : os)
  : os * list sup_event :=
  match h with
  | CleanupSHM => cleanupSHM myprog o
  | CleanupSemUsed => cleanupSemUsed myprog o
  | CleanupSemFree => cleanupSemFree myprog o
  | CleanupSemMutex => cleanupSemMutex myprog o
  end.

(** [exit(code)]: the registered functions, the latest first, then the
    end of the process. *)
Fixpoint run_handlers (myprog : string) (hs : list handler) (o : os)
  : os * list sup_event :=
  match hs with
  | [] => (o, [])
  | h :: hs' =>
      let '(o1, ev1) := run_handler myprog h o in
      let '(o2, ev2) := run_handlers myprog hs' o1 in
      (o2, ev1 ++ ev2)
  end.

Definition exit (myprog : string) (code : Z) (hs : list handler) (o : os)
  : os * list sup_event :=
  let '(o', ev) := run_handlers myprog hs o in
  (o', ev ++ [Sys (SysExit code)]).

(** [error_exit(msg)] of [common.c]. *)
Definition error_exit (myprog msg : string) (hs : list handler) (o : os)
  : os * list sup_event :=
  let '(o', ev) := exit myprog EXIT_FAILURE hs o in
  (o', print_error myprog msg :: ev).

Definition usage (myprog : string) : list sup_event :=
  [Sys (SysStderr ("Usage: " ++ myprog)); Sys (SysExit EXIT_FAILURE)].

Definition after {A} (ev : list sup_event) (r : os * list sup_event)
  : os * list sup_event * option A :=
  (fst r, ev ++ snd r, None).

(** [main] of [supervisor.c] from its first line to the fourth
    [atexit]: the names that exist afterwards, what was done, and the
    registered functions, latest first, if the process is still
    there. [sigaction] and [atexit] are taken to succeed. *)
Definition startup (o : os) (argv : list string)
  : os * list sup_event * option (list handler) :=
  let myprog := default ""%string (head argv) in
  if negb (getopt argv =? -1) then (o, usage myprog, None)
  else if negb (length argv =? 1)%nat then (o, usage myprog, None)
  else
    let ev1 := [Sys (SysShmOpen SHM_NAME (Z.lor O_RDWR O_CREAT))] in
    match initSHM o with
    | (o, ErrorExit _ msg) => after ev1 (error_exit myprog msg [] o)
    | (o, Ret _) =>
    let h1 := [CleanupSHM] in
    let ev2 := ev1 ++ [Sys (SysSemOpen SEM_USED (Z.lor O_CREAT O_EXCL))] in
    match initSEM o SEM_USED 0 with
    | (o, ErrorExit _ msg) => after ev2 (error_exit myprog msg h1 o)
    | (o, Ret _) =>
    let h2 := CleanupSemUsed :: h1 in
    let ev3 := ev2 ++ [Sys (SysSemOpen SEM_FREE (Z.lor O_CREAT O_EXCL))] in
    match initSEM o SEM_FREE BUF_LEN with
    | (o, ErrorExit _ msg) => after ev3 (error_exit myprog msg h2 o)
    | (o, Ret _) =>
    let h3 := CleanupSemFree :: h2 in
    let ev4 := ev3 ++ [Sys (SysSemOpen SEM_MUTEX (Z.lor O_CREAT O_EXCL))] in
    match initSEM o SEM_MUTEX 1 with
    | (o, ErrorExit _ msg) => after ev4 (error_exit myprog msg h3 o)
    | (o, Ret _) => (o, ev4, Some (CleanupSemMutex :: h3))
    end end end end.

(** The [exit(EXIT_SUCCESS)] that ends [main], with the four functions
    registered. *)
Definition finish (myprog : string) (o : os) : os * list sup_event :=
  exit myprog EXIT_SUCCESS
    [CleanupSemMutex; CleanupSemFree; CleanupSemUsed; CleanupSHM] o.

End Supervisor.

(** * Properties *)

(** ** Facts on the libc model *)

Section LibcFacts.


Lemma c_str_bytes_no_nul l : Forall (fun c => is_nul c = false) (c_str_bytes l).
Proof.
  induction l as [|c l IH]; simpl; [constructor|].
  destruct (is_nul c) eqn:E; [constructor|]. constructor; assumption.
Qed.

Lemma c_str_bytes_id l :
  Forall (fun c => is_nul c = false) l -> c_str_bytes l = l.
Proof.
  induction 1 as [|c l Hc _ IH]; simpl; [reflexivity|].
  rewrite Hc, IH. reflexivity.
Qed.

Lemma c_str_bytes_app_nul content rest :
  Forall (fun c => is_nul c = false) content ->
  c_str_bytes (content ++ NUL :: rest) = content.
Proof.
  induction 1 as [|c l Hc _ IH]; simpl; [reflexivity|].
  rewrite Hc, IH. reflexivity.
Qed.

Lemma strlen_from_app content rest i :
  Forall (fun c => is_nul c = false) content ->
  strlen_from (content ++ NUL :: rest) i = Done (i + length content)%nat.
Proof.
  intros H. revert i.
  induction H as [|c l Hc _ IH]; intros i; simpl.
  - f_equal. lia.
  - rewrite Hc, IH. f_equal. lia.
Qed.

Lemma holds_split arr content :
  holds arr content ->
  exists m, arr = content ++ NUL :: replicate m NUL
            /\ length arr = (length content + S m)%nat.
Proof.
  intros (Harr & Hlt & _).
  destruct (length arr - length content)%nat as [|m] eqn:E; [lia|].
  exists m. split; [assumption | lia].
Qed.

Lemma strlen_holds arr content :
  holds arr content -> strlen arr = Done (length content).
Proof.
  intros H. destruct (holds_split _ _ H) as (m & -> & _).
  destruct H as (_ & _ & Hn).
  unfold strlen. rewrite strlen_from_app by assumption. reflexivity.
Qed.

Lemma string_in_holds arr content :
  holds arr content -> string_in arr = content.
Proof.
  intros H. destruct (holds_split _ _ H) as (m & -> & _).
  destruct H as (_ & _ & Hn).
  unfold string_in. apply c_str_bytes_app_nul. assumption.
Qed.

Lemma holds_memset arr :
  length arr = Z.to_nat MAX_LINE ->
  holds (memset arr NUL (Z.to_nat MAX_LINE)) [].
Proof.
  intros Hl. unfold holds, memset.
  rewrite Hl, Nat.min_id, drop_ge by lia.
  rewrite app_nil_r, length_replicate. simpl.
  repeat split; [|constructor].
  change (Z.to_nat MAX_LINE) with 50%nat. lia.
Qed.

Lemma store_inv arr i c arr' :
  store arr i c = Done arr' -> (i < length arr)%nat /\ arr' = <[i:=c]> arr.
Proof.
  unfold store. destruct (i <? length arr)%nat eqn:E; [|discriminate].
  intros [= <-]. apply Nat.ltb_lt in E. auto.
Qed.

Lemma store_bytes_inv cs : forall arr i arr',
  store_bytes arr i cs = Done arr' ->
  length arr' = length arr
  /\ arr' = take i arr ++ cs ++ drop (i + length cs) arr
  /\ (cs = [] \/ (i + length cs <= length arr)%nat).
Proof.
  induction cs as [|c cs IH]; intros arr i arr'; simpl.
  - intros [= <-]. rewrite Nat.add_0_r, take_drop. auto.
  - destruct (store arr i c) as [arr1|] eqn:E; simpl; [|discriminate].
    apply store_inv in E as [Hi ->]. intros H.
    apply IH in H as (Hlen & -> & Hb).
    rewrite length_insert in *.
    split; [assumption|]. split.
    + rewrite drop_insert_lt by lia.
      destruct (lookup_lt_is_Some_2 arr i Hi) as [x Hx].
      rewrite take_insert_lt by lia.
      rewrite (take_S_r _ _ x Hx).
      rewrite insert_app_r_alt by (rewrite length_take; lia).
      rewrite length_take, Nat.min_l, Nat.sub_diag by lia. simpl.
      rewrite <- app_assoc. simpl.
      replace (S (i + length cs)) with (i + S (length cs))%nat by lia.
      reflexivity.
    + right. destruct Hb as [->|Hb]; simpl; lia.
Qed.

End LibcFacts.

Lemma strncat_holds arr content src n arr' :
  holds arr content ->
  strncat arr src n = Done arr' ->
  holds arr' (content ++ take (Z.to_nat n) (c_str_bytes src))
  /\ length arr' = length arr.
Proof.
  intros H. destruct (holds_split _ _ H) as (m & Harr & Hlen).
  destruct H as (_ & _ & Hn).
  unfold strncat. rewrite (strlen_holds arr content) by (subst arr; repeat split;
    [rewrite length_app; simpl; rewrite length_replicate;
     replace (length content + S m - length content)%nat with (S m) by lia;
     reflexivity
    | rewrite length_app; simpl; lia | assumption]).
  cbn [rbind]. set (cs := take (Z.to_nat n) (c_str_bytes src)).
  destruct (store_bytes arr (length content) cs) as [d|] eqn:E; [|discriminate].
  cbn [rbind]. intros Hs. apply store_inv in Hs as [Hi ->].
  apply store_bytes_inv in E as (Hd & -> & _).
  rewrite length_insert in *. split; [|assumption].
  assert (Hcs : (length cs < S m)%nat) by lia.
  assert (Hbody : take (length content) arr ++ cs
                    ++ drop (length content + length cs) arr
                  = (content ++ cs) ++ replicate (S m - length cs) NUL).
  { rewrite Harr. rewrite take_app_length.
    rewrite drop_app_add' by reflexivity.
    change (NUL :: replicate m NUL) with (replicate (S m) NUL).
    rewrite drop_replicate, app_assoc. reflexivity. }
  rewrite Hbody.
  rewrite list_insert_id.
  2:{ rewrite lookup_app_r by (rewrite length_app; lia).
      rewrite length_app. apply lookup_replicate_2. lia. }
  unfold holds. rewrite !length_app, length_replicate.
  repeat split.
  - f_equal. f_equal. lia.
  - lia.
  - apply Forall_app. split; [assumption|].
    apply Forall_take, c_str_bytes_no_nul.
Qed.

(** ** The coloring engine against its specification *)

Section EngineFacts.

Variable rng : rand_src.
Hypothesis rng_nonneg : forall k, 0 <= rng k.

Lemma pick_range k : 1 <= pick rng k <= 3.
Proof. unfold pick. pose proof (Z.mod_pos_bound (rng k) 3). lia. Qed.

Lemma drawn_color k : to_char (Z.rem (rng k) 3 + 1) = pick rng k.
Proof.
  unfold pick. rewrite Z.rem_mod_nonneg by (auto; lia).
  pose proof (Z.mod_pos_bound (rng k) 3 ltac:(lia)).
  unfold to_char. rewrite Z.mod_small by lia. lia.
Qed.

Lemma load_node_ok nodes i :
  0 <= i < Z.of_nat (length nodes) ->
  load_node nodes i = Done (color_of nodes i).
Proof.
  intros Hi. unfold load_node, color_of.
  destruct (i <? 0) eqn:E; [lia|].
  destruct (lookup_lt_is_Some_2 nodes (Z.to_nat i)) as [c Hc]; [lia|].
  rewrite Hc. reflexivity.
Qed.

Lemma color_if_uncolored_ok i nodes k :
  0 <= i < Z.of_nat (length nodes) ->
  color_if_uncolored rng i nodes k
  = Done (paint rng i nodes k).
Proof.
  intros Hi. unfold color_if_uncolored, paint.
  rewrite load_node_ok by assumption. cbn [rbind]. unfold color_of.
  destruct (lookup_lt_is_Some_2 nodes (Z.to_nat i)) as [c Hc]; [lia|].
  rewrite Hc. simpl. destruct (c =? 0); [|reflexivity].
  unfold store_node.
  replace ((0 <=? i) && (i <? Z.of_nat (length nodes))) with true
    by (symmetry; apply andb_true_iff; split; lia).
  cbn [rbind]. rewrite drawn_color. reflexivity.
Qed.

Lemma paint_length i col k : length (fst (paint rng i col k)) = length col.
Proof.
  unfold paint. destruct (col !! Z.to_nat i) as [c|]; [|reflexivity].
  destruct (c =? 0); simpl; [apply length_insert | reflexivity].
Qed.

Lemma paint_keeps i col k j c :
  col !! j = Some c -> c <> 0 -> fst (paint rng i col k) !! j = Some c.
Proof.
  intros Hj Hc. unfold paint.
  destruct (col !! Z.to_nat i) as [d|] eqn:E; [|assumption].
  destruct (d =? 0) eqn:Ed; simpl; [|assumption].
  destruct (decide (Z.to_nat i = j)) as [Heq|Hne].
  - rewrite Heq, Hj in E. injection E as <-. lia.
  - rewrite list_lookup_insert_ne by assumption. assumption.
Qed.

Lemma paint_colored i col k :
  0 <= i < Z.of_nat (length col) ->
  color_of (fst (paint rng i col k)) i <> 0.
Proof.
  intros Hi. unfold paint, color_of.
  destruct (lookup_lt_is_Some_2 col (Z.to_nat i)) as [c Hc]; [lia|].
  rewrite Hc. destruct (c =? 0) eqn:E; simpl.
  - rewrite list_lookup_insert_eq by lia. simpl.
    pose proof (pick_range k). lia.
  - rewrite Hc. simpl. lia.
Qed.

Lemma paint_palette i col k :
  Forall (fun c => 0 <= c <= 3) col ->
  Forall (fun c => 0 <= c <= 3) (fst (paint rng i col k)).
Proof.
  intros H. unfold paint.
  destruct (col !! Z.to_nat i) as [c|]; [|assumption].
  destruct (c =? 0); simpl; [|assumption].
  apply Forall_insert; [assumption|]. pose proof (pick_range k). lia.
Qed.

Lemma greedy_length es : forall col k,
  length (fst (greedy rng es col k)) = length col.
Proof.
  induction es as [|e es IH]; intros col k; simpl; [reflexivity|].
  rewrite IH, !paint_length. reflexivity.
Qed.

Lemma greedy_keeps es : forall col k j c,
  col !! j = Some c -> c <> 0 -> fst (greedy rng es col k) !! j = Some c.
Proof.
  induction es as [|e es IH]; intros col k j c Hj Hc; simpl; [assumption|].
  apply IH; [|assumption]. apply paint_keeps; [|assumption].
  apply paint_keeps; assumption.
Qed.

Lemma greedy_palette es : forall col k,
  Forall (fun c => 0 <= c <= 3) col ->
  Forall (fun c => 0 <= c <= 3) (fst (greedy rng es col k)).
Proof.
  induction es as [|e es IH]; intros col k H; simpl; [assumption|].
  apply IH. apply paint_palette, paint_palette. assumption.
Qed.

Lemma color_of_keeps es col k i :
  color_of col i <> 0 ->
  color_of (fst (greedy rng es col k)) i = color_of col i.
Proof.
  unfold color_of. intros H.
  destruct (col !! Z.to_nat i) as [c|] eqn:E; simpl in H; [|lia].
  rewrite (greedy_keeps es col k _ c E H). reflexivity.
Qed.

End EngineFacts.

Lemma join_sp_fold ts : forall content,
  Forall (fun t => t <> []) ts ->
  fold_left append_tok ts content =
  match content, ts with
  | [], _ => join_sp ts
  | _, [] => content
  | _, _ => content ++ SPACE :: join_sp ts
  end.
Proof.
  induction ts as [|t ts IH]; intros content Hne.
  - destruct content; reflexivity.
  - inversion Hne as [|? ? Ht Hts]; subst. simpl fold_left.
    rewrite IH by assumption.
    destruct content as [|c content]; simpl append_tok.
    + destruct t as [|a t]; [congruence|]. destruct ts; reflexivity.
    + destruct ts as [|t' ts]; [reflexivity|].
      cbn [app]. rewrite <- app_assoc. reflexivity.
Qed.

Lemma size_sub_small l :
  (l <= Z.to_nat MAX_LINE)%nat ->
  size_sub MAX_LINE (Z.of_nat l) = MAX_LINE - Z.of_nat l.
Proof.
  intros H. unfold size_sub. apply Z.mod_small.
  change (Z.to_nat MAX_LINE) with 50%nat in H. unfold MAX_LINE. lia.
Qed.

Section EngineLoop.

Variable rng : rand_src.
Hypothesis rng_nonneg : forall k, 0 <= rng k.
Variable edgeStr : list string.
Variable offset : nat.

Lemma color_of_paint_keeps i col k j :
  color_of col j <> 0 ->
  color_of (fst (paint rng i col k)) j = color_of col j.
Proof.
  unfold color_of. intros H.
  destruct (col !! Z.to_nat j) as [c|] eqn:E; simpl in H; [|lia].
  rewrite (paint_keeps rng i col k _ c E H). reflexivity.
Qed.

Lemma space_prefix buf content r :
  length buf = Z.to_nat MAX_LINE ->
  holds buf content ->
  (if (0 <? length content)%nat
   then strncat buf [SPACE] (size_sub MAX_LINE (Z.of_nat (length content)))
   else Done buf) = r ->
  (exists o, r = Fault o) \/
  exists buf1 c1, r = Done buf1 /\ holds buf1 c1
    /\ length buf1 = Z.to_nat MAX_LINE
    /\ forall t, append_tok content t = c1 ++ t.
Proof.
  intros Hlen Hbuf <-.
  destruct (0 <? length content)%nat eqn:E.
  - destruct (strncat buf [SPACE] _) as [buf1|o] eqn:Ecat; [|left; eauto].
    right. apply (strncat_holds _ _ _ _ _ Hbuf) in Ecat as [Hb1 Hl1].
    destruct Hbuf as (_ & Hlt & _).
    rewrite size_sub_small in Hb1 by lia.
    replace (take (Z.to_nat (MAX_LINE - Z.of_nat (length content)))
               (c_str_bytes [SPACE])) with [SPACE] in Hb1.
    2:{ change (c_str_bytes [SPACE]) with [SPACE].
        rewrite take_ge; [reflexivity|]. simpl.
        rewrite Hlen in Hlt. change (Z.to_nat MAX_LINE) with 50%nat in Hlt.
        unfold MAX_LINE. lia. }
    exists buf1, (content ++ [SPACE]). repeat split; try apply Hb1; try lia.
    intros t. apply Nat.ltb_lt in E.
    destruct content; [simpl in E; lia|].
    simpl. rewrite <- app_assoc. reflexivity.
  - right. apply Nat.ltb_ge in E.
    destruct content; [|simpl in E; lia].
    exists buf, []. repeat split; try apply Hbuf; auto.
Qed.

Lemma coloring_loop_sound : forall es i st st' content,
  (length es <= length edgeStr - (i + offset))%nat ->
  Forall (in_range (length (e_nodes st))) es ->
  length (e_buf st) = Z.to_nat MAX_LINE ->
  holds (e_buf st) content ->
  coloring_loop rng es i edgeStr offset st = Done (0, st') ->
  let fin := greedy rng es (e_nodes st) (e_draws st) in
  e_nodes st' = fst fin /\ e_draws st' = snd fin
  /\ length (e_buf st') = Z.to_nat MAX_LINE
  /\ holds (e_buf st')
       (fold_left append_tok
          (conflict_texts (fst fin) es (drop (i + offset) edgeStr)) content).
Proof.
  induction es as [|e es IH];
    intros i st st' content Hargs Hrange Hlen Hbuf Hrun.
  - simpl in Hrun. injection Hrun as <-. simpl. auto.
  - inversion Hrange as [|? ? He Hes]; subst.
    destruct He as [HU HV]. simpl in Hargs.
    cbn [coloring_loop] in Hrun.
    rewrite (color_if_uncolored_ok rng rng_nonneg) in Hrun by assumption.
    cbn [rbind] in Hrun.
    rewrite (color_if_uncolored_ok rng rng_nonneg) in Hrun
      by (rewrite paint_length; assumption).
    cbn [rbind] in Hrun.
    cbn zeta. cbn [greedy].
    set (a := paint rng (nodeU e) (e_nodes st) (e_draws st)) in *.
    set (b := paint rng (nodeV e) (fst a) (snd a)) in *.
    assert (Hla : length (fst a) = length (e_nodes st))
      by (unfold a; rewrite paint_length; reflexivity).
    assert (Hlb : length (fst b) = length (e_nodes st))
      by (unfold b; rewrite paint_length; assumption).
    rewrite !load_node_ok in Hrun by (rewrite Hlb; assumption).
    cbn [rbind] in Hrun.
    assert (HcU : color_of (fst b) (nodeU e) <> 0).
    { unfold b. rewrite color_of_paint_keeps;
        apply paint_colored; assumption. }
    assert (HcV : color_of (fst b) (nodeV e) <> 0).
    { apply paint_colored. rewrite Hla. assumption. }
    destruct (lookup_lt_is_Some_2 edgeStr (i + offset)) as [s Hs]; [lia|].
    rewrite (drop_S _ _ _ Hs). cbn [conflict_texts].
    unfold conflicting. rewrite !color_of_keeps by assumption.
    assert (Hes' : Forall (in_range (length (fst b))) es)
      by (rewrite Hlb; assumption).
    destruct (color_of (fst b) (nodeU e) =? color_of (fst b) (nodeV e)).
    + rewrite (strlen_holds _ _ Hbuf) in Hrun. cbn [rbind] in Hrun.
      destruct (space_prefix _ _ _ Hlen Hbuf eq_refl)
        as [[o Ho]|(buf1 & c1 & Hif & Hb1 & Hl1 & Happ)];
        rewrite ?Ho, ?Hif in Hrun; [discriminate|].
      cbn [rbind] in Hrun.
      rewrite (strlen_holds _ _ Hb1) in Hrun. cbn [rbind] in Hrun.
      unfold arg_at in Hrun. rewrite Hs in Hrun. cbn [rbind] in Hrun.
      assert (Hc1 : (length c1 < Z.to_nat MAX_LINE)%nat)
        by (rewrite <- Hl1; apply Hb1).
      rewrite size_sub_small in Hrun by lia.
      destruct (MAX_LINE - Z.of_nat (length c1) <? Z.of_nat (length (c_str s)))
        eqn:Echk; [discriminate|].
      apply Z.ltb_ge in Echk.
      destruct (strncat buf1 (c_str s) _) as [buf2|] eqn:Ecat;
        [|discriminate].
      cbn [rbind] in Hrun.
      apply (strncat_holds _ _ _ _ _ Hb1) in Ecat as [Hb2 Hl2].
      rewrite (c_str_bytes_id (c_str s)) in Hb2
        by apply c_str_bytes_no_nul.
      rewrite take_ge in Hb2 by lia.
      cbn [fold_left]. rewrite Happ.
      apply (IH (S i) (Engine (fst b) buf2 (snd b)) st' (c1 ++ c_str s));
        cbn [e_nodes e_draws e_buf]; try assumption; simpl; lia.
    + apply (IH (S i) (Engine (fst b) (e_buf st) (snd b)) st' content);
        cbn [e_nodes e_draws e_buf]; try assumption; simpl; lia.
Qed.

End EngineLoop.

(** ** What a successful [parseEdges] says about its arguments *)

Lemma parseEdge_empty nodes : fst (parseEdge nodes []) = -1.
Proof. reflexivity. Qed.

Lemma parseEdges_loop_inv strs : forall acc cn n r es,
  parseEdges_loop strs acc cn n = (r, es, None) ->
  exists new, es = acc ++ new /\ length new = length strs
              /\ Forall (fun s => c_str s <> []) strs.
Proof.
  induction strs as [|s strs IH]; intros acc cn n r es H; simpl in H.
  - injection H as <- <-. exists []. rewrite app_nil_r. auto.
  - destruct (parseEdge cn (c_str s)) as [rc cn'] eqn:E.
    destruct (rc <? 0) eqn:Erc; [discriminate|].
    apply IH in H as (new & -> & Hlen & Hall).
    exists (Edge (fst cn') (snd cn') :: new).
    rewrite <- app_assoc. simpl. repeat split; [lia|].
    constructor; [|assumption].
    intros Hs. rewrite Hs in E.
    pose proof (parseEdge_empty cn) as Hemp. rewrite E in Hemp.
    simpl in Hemp. subst rc. discriminate.
Qed.

Lemma parseEdges_inv argv r es :
  parseEdges argv (length argv) 1 = (r, es, None) ->
  length es = (length argv - 1)%nat
  /\ Forall (fun s => c_str s <> []) (drop 1 argv).
Proof.
  unfold parseEdges. rewrite firstn_all. intros H.
  apply parseEdges_loop_inv in H as (new & -> & Hlen & Hall).
  simpl. rewrite Hlen, length_drop. auto.
Qed.

Section EngineResult.

Variable rng : rand_src.
Hypothesis rng_nonneg : forall k, 0 <= rng k.

Lemma greedy_endpoints es : forall col k,
  Forall (in_range (length col)) es ->
  Forall (fun e => color_of (fst (greedy rng es col k)) (nodeU e) <> 0
                   /\ color_of (fst (greedy rng es col k)) (nodeV e) <> 0) es.
Proof.
  induction es as [|e es IH]; intros col k Hr; [constructor|].
  inversion Hr as [|? ? [HU HV] Hes]; subst. cbn [greedy].
  set (a := paint rng (nodeU e) col k).
  set (b := paint rng (nodeV e) (fst a) (snd a)).
  assert (Hla : length (fst a) = length col) by apply paint_length.
  assert (Hlb : length (fst b) = length col)
    by (unfold b; rewrite paint_length; assumption).
  constructor.
  - rewrite !color_of_keeps.
    + split; [unfold b; rewrite color_of_paint_keeps|];
        apply paint_colored; rewrite ?Hla; assumption.
    + apply paint_colored. rewrite Hla. assumption.
    + unfold b. rewrite color_of_paint_keeps;
        apply paint_colored; assumption.
  - apply IH. rewrite Hlb. assumption.
Qed.

Lemma color_of_palette col i :
  Forall (fun c => 0 <= c <= 3) col -> 0 <= color_of col i <= 3.
Proof.
  intros H. unfold color_of.
  destruct (col !! Z.to_nat i) as [c|] eqn:E; simpl; [|lia].
  exact (proj1 (Forall_lookup _ col) H _ _ E).
Qed.

End EngineResult.

Lemma generate3coloring_sound
    (rng : rand_src) (k : nat) (argv : list string) (nodeN : nat)
    (edges : list edge) (nodes0 : list Z) (buf0 : list ascii) (st : engine) :
  (forall n, 0 <= rng n) ->
  parseEdges argv (length argv) 1 = (Z.of_nat nodeN, edges, None) ->
  Forall (in_range nodeN) edges ->
  length nodes0 = nodeN ->
  length buf0 = Z.to_nat MAX_LINE ->
  generate3coloring rng k nodes0 nodeN edges (length argv - 1) argv 1 buf0
    = Done (0, st) ->
  e_nodes st = fst (greedy rng edges (replicate nodeN 0) k)
  /\ length (e_buf st) = Z.to_nat MAX_LINE
  /\ holds (e_buf st)
       (join_sp (conflict_texts (e_nodes st) edges (drop 1 argv))).
Proof.
  intros Hrng Hparse Hrange Hn Hb Hrun.
  destruct (parseEdges_inv _ _ _ Hparse) as [Hlen Htexts].
  unfold generate3coloring in Hrun.
  rewrite <- Hlen, firstn_all in Hrun.
  assert (Hmem : memset nodes0 0 nodeN = replicate nodeN 0).
  { unfold memset. rewrite Hn, Nat.min_id, drop_ge by lia.
    apply app_nil_r. }
  rewrite Hmem in Hrun.
  pose proof (holds_memset buf0 Hb) as Hholds.
  assert (Hml : length (memset buf0 NUL (Z.to_nat MAX_LINE)) = Z.to_nat MAX_LINE).
  { unfold memset. rewrite Hb, Nat.min_id, drop_ge by lia.
    rewrite app_nil_r. apply length_replicate. }
  apply (coloring_loop_sound rng Hrng argv 1 edges 0 _ st [])
    in Hrun as (Hnodes & _ & Hbl & Hbuf);
    cbn [e_nodes e_buf e_draws] in *;
    [ | lia | rewrite length_replicate; assumption | assumption | assumption ].
  rewrite <- Hnodes in Hbuf. change (0 + 1)%nat with 1%nat in Hbuf.
  assert (Hne : Forall (fun t => t <> [])
                  (conflict_texts (e_nodes st) edges (drop 1 argv))).
  { clear -Htexts. revert edges.
    induction Htexts as [|t ts Ht _ IH]; intros [|e es]; simpl;
      try constructor.
    destruct (conflicting (e_nodes st) e); [constructor|]; auto. }
  rewrite (join_sp_fold _ [] Hne) in Hbuf.
  repeat split; try assumption; apply Hbuf.
Qed.

Lemma conflict_texts_none col es : forall ts,
  Forall (fun e => conflicting col e = false) es ->
  conflict_texts col es ts = [].
Proof.
  induction es as [|e es IH]; intros ts H; [destruct ts; reflexivity|].
  inversion H as [|? ? He Hes]; subst.
  destruct ts as [|t ts]; [reflexivity|]. simpl. rewrite He. apply IH, Hes.
Qed.

(** C3. Coloring engine: on a parsed graph whose node ids lie in
    [0..N-1], a call of [generate3coloring] that returns 0 leaves in
    [nodes] the coloring obtained from an all-uncolored array by taking the
    edges in input order and giving each uncolored endpoint the next draw
    (a color in 1..3), whatever [nodes] and [buf] held before; every
    endpoint then has a color in 1..3; and [buf] holds, NUL-terminated,
    the textual forms of exactly the edges whose endpoints have equal
    colors, in edge-list order, separated by single spaces: the empty
    string when there is none. *)
Theorem C3_generate3coloring_report
    (rng : rand_src) (k : nat) (argv : list string) (nodeN : nat)
    (edges : list edge) (nodes0 : list Z) (buf0 : list ascii) (st : engine) :
  (forall n, 0 <= rng n) ->
  parseEdges argv (length argv) 1 = (Z.of_nat nodeN, edges, None) ->
  Forall (in_range nodeN) edges ->
  length nodes0 = nodeN ->
  length buf0 = Z.to_nat MAX_LINE ->
  generate3coloring rng k nodes0 nodeN edges (length argv - 1) argv 1 buf0
    = Done (0, st) ->
  let report := join_sp (conflict_texts (e_nodes st) edges (drop 1 argv)) in
  e_nodes st = fst (greedy rng edges (replicate nodeN 0) k)
  /\ Forall (fun e => 1 <= color_of (e_nodes st) (nodeU e) <= 3
                      /\ 1 <= color_of (e_nodes st) (nodeV e) <= 3) edges
  /\ length (e_buf st) = Z.to_nat MAX_LINE
  /\ holds (e_buf st) report
  /\ string_in (e_buf st) = report
  /\ (Forall (fun e => conflicting (e_nodes st) e = false) edges ->
      string_in (e_buf st) = []).
Proof.
  intros Hrng Hparse Hrange Hn Hb Hrun report.
  destruct (generate3coloring_sound rng k argv nodeN edges nodes0 buf0 st
              Hrng Hparse Hrange Hn Hb Hrun) as (Hnodes & Hlen & Hholds).
  fold report in Hholds.
  assert (Hstr : string_in (e_buf st) = report)
    by (apply string_in_holds; assumption).
  split; [assumption|]. split.
  { rewrite Hnodes.
    pose proof (greedy_endpoints rng edges (replicate nodeN 0) k) as Hend.
    rewrite length_replicate in Hend. specialize (Hend Hrange).
    assert (Hpal : Forall (fun c => 0 <= c <= 3)
                     (fst (greedy rng edges (replicate nodeN 0) k))).
    { apply greedy_palette, Forall_replicate. lia. }
    eapply Forall_impl; [exact Hend|]. cbn beta. intros e [HU HV].
    pose proof (color_of_palette _ (nodeU e) Hpal).
    pose proof (color_of_palette _ (nodeV e) Hpal). lia. }
  split; [assumption|]. split; [assumption|]. split; [assumption|].
  intros Hnone. rewrite Hstr. unfold report.
  rewrite conflict_texts_none by assumption. reflexivity.
Qed.

Lemma C3_generate3coloring_report_witness :
  e_nodes tri_engine = [1; 1; 1]
  /\ string_in (e_buf tri_engine) = list_ascii_of_string "0-1 0-2 1-2".
Proof.
  pose proof (C3_generate3coloring_report zero_rng 0 tri_args 3 tri_edges
                [7; 7; 7] (replicate 50 "x"%char) tri_engine
                (fun _ => Z.le_refl 0) eq_refl) as H.
  assert (Hr : Forall (in_range 3) tri_edges)
    by (repeat constructor; simpl; lia).
  specialize (H Hr eq_refl eq_refl eq_refl).
  destruct H as (Hn & _ & _ & _ & Hs & _).
  split; [rewrite Hn; reflexivity | rewrite Hs; reflexivity].
Defined.

(** C4. On the twelve-edge graph above with every node given the same
    color, the report is 50 characters long: one more than a record may
    hold. [generate3coloring] does not return -1: its test
    [MAX_LINE - strlen(buf) < strlen(edge)] is false when the last edge
    fills the remaining 4 bytes exactly, and the [strncat] that follows
    writes its terminating NUL at offset 50, one past the end of
    [buf[MAX_LINE]]. *)
Theorem C4_report_of_max_line_overruns :
  parseEdges star_args 13 1 = (11, star_edges, None)
  /\ length (join_sp (map c_str (drop 1 star_args))) = Z.to_nat MAX_LINE
  /\ generate3coloring zero_rng 0 (replicate 11 0) 11 star_edges 12
       star_args 1 (replicate 50 NUL) = Fault MAX_LINE.
Proof. repeat split; vm_compute; reflexivity. Qed.

(** ** [circ_buf_read] *)

Lemma store_bytes_done cs : forall arr i,
  (i + length cs <= length arr)%nat ->
  exists arr', store_bytes arr i cs = Done arr'.
Proof.
  induction cs as [|c cs IH]; intros arr i H; simpl in *; [eauto|].
  unfold store. destruct (i <? length arr)%nat eqn:E.
  - cbn [rbind]. apply IH. rewrite length_insert. lia.
  - apply Nat.ltb_ge in E. lia.
Qed.

(** C10. [circ_buf_read] leaves in the caller's [MAX_LINE]-byte buffer a
    string of at most [MAX_LINE - 1] characters followed by a NUL, for
    every content of the shared memory (the string is the first 49 bytes
    of what starts at the slot, so a slot of 50 non-NUL bytes is cut), it
    writes inside the buffer only, and the read cursor becomes
    [(read_pos + 1) mod BUF_LEN]. *)
Theorem C10_circ_buf_read_terminated
    (m : myshm) (buf : list ascii) (read_pos : Z) :
  length buf = Z.to_nat MAX_LINE ->
  0 <= read_pos < BUF_LEN ->
  exists buf' s rest,
    circ_buf_read m buf read_pos = Done (buf', (read_pos + 1) mod BUF_LEN)
    /\ length buf' = Z.to_nat MAX_LINE
    /\ buf' = s ++ NUL :: rest
    /\ Forall (fun c => is_nul c = false) s
    /\ Z.of_nat (length s) <= MAX_LINE - 1
    /\ string_in buf' = s
    /\ s = take (Z.to_nat (MAX_LINE - 1))
             (c_str_bytes (drop (Z.to_nat (read_pos * MAX_LINE)) (shm_buf m))).
Proof.
  intros Hlen Hpos. unfold circ_buf_read, slot_offset.
  replace ((0 <=? read_pos) && (read_pos <? BUF_LEN)) with true
    by (symmetry; apply andb_true_iff; split; lia).
  change (Z.to_nat MAX_LINE) with 50%nat in *.
  change (Z.to_nat (MAX_LINE - 1)) with 49%nat.
  cbn [snprintf_s].
  set (cs := take 49 (c_str_bytes (drop (Z.to_nat (read_pos * MAX_LINE))
                                     (shm_buf m)))).
  assert (Hcs : (length cs <= 49)%nat)
    by (unfold cs; rewrite length_take; lia).
  assert (Hnn : Forall (fun c => is_nul c = false) cs)
    by (apply Forall_take, c_str_bytes_no_nul).
  destruct (store_bytes_done cs buf 0) as [b1 Hb1]; [lia|].
  rewrite Hb1. cbn [rbind].
  apply store_bytes_inv in Hb1 as (Hl1 & -> & _).
  rewrite take_0 in Hl1 |- *. cbn [app Nat.add] in *.
  unfold store. rewrite Hl1.
  replace (length cs <? length buf)%nat with true
    by (symmetry; apply Nat.ltb_lt; lia).
  cbn [rbind].
  assert (Hins : <[length cs:=NUL]> (cs ++ drop (length cs) buf)
                 = cs ++ NUL :: drop (S (length cs)) buf).
  { rewrite insert_app_r_alt, Nat.sub_diag by lia.
    destruct (drop (length cs) buf) as [|x r] eqn:E.
    - apply (f_equal length) in E. rewrite length_drop in E. simpl in E. lia.
    - simpl. f_equal. f_equal.
      change (S (length cs)) with (1 + length cs)%nat.
      rewrite Nat.add_comm, <- drop_drop, E. reflexivity. }
  rewrite Hins.
  exists (cs ++ NUL :: drop (S (length cs)) buf), cs,
         (drop (S (length cs)) buf).
  repeat split; try assumption.
  - f_equal. f_equal. rewrite Z.rem_mod_nonneg by (unfold BUF_LEN; lia).
    reflexivity.
  - rewrite length_app. simpl. rewrite length_drop. lia.
  - unfold MAX_LINE. lia.
  - unfold string_in. apply c_str_bytes_app_nul. assumption.
Qed.

Lemma C10_circ_buf_read_terminated_witness :
  exists buf' s rest,
    circ_buf_read (Myshm 0 0 (replicate 3200 "a"%char))
      (replicate 50 "b"%char) 63 = Done (buf', (63 + 1) mod BUF_LEN)
    /\ length buf' = Z.to_nat MAX_LINE
    /\ buf' = s ++ NUL :: rest
    /\ Forall (fun c => is_nul c = false) s
    /\ Z.of_nat (length s) <= MAX_LINE - 1
    /\ string_in buf' = s
    /\ s = take (Z.to_nat (MAX_LINE - 1))
             (c_str_bytes (drop (Z.to_nat (63 * MAX_LINE))
                             (shm_buf (Myshm 0 0 (replicate 3200 "a"%char))))).
Proof.
  apply (C10_circ_buf_read_terminated
           (Myshm 0 0 (replicate 3200 "a"%char)) (replicate 50 "b"%char) 63).
  - reflexivity.
  - unfold BUF_LEN. lia.
Defined.

(** ** Facts on [countEdges] *)





Lemma strchr_none t :
  Forall (fun c => Ascii.eqb c SPACE = false) t -> strchr t SPACE = None.
Proof.
  induction 1 as [|c t Hc _ IH]; simpl; [reflexivity|]. rewrite Hc. exact IH.
Qed.

Lemma strchr_app t rest :
  Forall (fun c => Ascii.eqb c SPACE = false) t ->
  strchr (t ++ SPACE :: rest) SPACE = Some (SPACE :: rest).
Proof.
  induction 1 as [|c t Hc _ IH]; simpl; [reflexivity|]. rewrite Hc. exact IH.
Qed.

Lemma join_sp_cons t t' ts :
  join_sp (t :: t' :: ts) = t ++ SPACE :: join_sp (t' :: ts).
Proof. reflexivity. Qed.

Lemma countEdges_loop_join ts : forall t fuel c,
  Forall token_ok (t :: ts) ->
  (length (join_sp (t :: ts)) <= fuel)%nat ->
  0 <= c -> c + Z.of_nat (length ts) < 2 ^ 32 ->
  countEdges_loop fuel (strchr (join_sp (t :: ts)) SPACE) c
  = Some (c + Z.of_nat (length ts)).
Proof.
  induction ts as [|t' ts IH]; intros t fuel c Hok Hfuel Hc Hmax.
  - inversion Hok as [|? ? [_ Ht] _]; subst. simpl join_sp.
    rewrite strchr_none by assumption.
    destruct fuel; simpl; f_equal; lia.
  - inversion Hok as [|? ? [Hne Ht] Hok']; subst.
    rewrite join_sp_cons in *. rewrite strchr_app by assumption.
    rewrite length_app in Hfuel. cbn [length] in Hfuel.
    destruct t as [|a t]; [congruence|]. cbn [length] in Hfuel.
    destruct fuel as [|fuel]; [lia|].
    cbn [countEdges_loop deref tail]. rewrite Ascii.eqb_refl.
    cbn [length] in Hmax. change (2 ^ 32) with 4294967296 in *.
    rewrite Z.mod_small by lia.
    rewrite IH; [cbn [length]; f_equal; lia | assumption | lia | lia | lia].
Qed.

Lemma countEdges_join ts :
  Forall token_ok ts ->
  Z.of_nat (length ts) < 2 ^ 32 ->
  countEdges (join_sp ts) = Some (Z.of_nat (length ts)).
Proof.
  intros Hok Hmax. destruct ts as [|t ts]; [reflexivity|].
  unfold countEdges.
  inversion Hok as [|? ? [Hne Ht] _]; subst.
  assert (Hlen : (0 < length (join_sp (t :: ts)))%nat).
  { destruct t; [congruence|]. destruct ts; simpl; lia. }
  destruct (length (join_sp (t :: ts)) =? 0)%nat eqn:E;
    [apply Nat.eqb_eq in E; lia|].
  cbn [countEdges_loop].
  replace (Ascii.eqb (deref (join_sp (t :: ts))) SPACE) with false.
  2:{ destruct t as [|a t]; [congruence|].
      inversion Ht; subst. destruct ts; simpl; congruence. }
  cbn [length] in Hmax. change (2 ^ 32) with 4294967296 in *.
  rewrite Z.mod_small by lia.
  rewrite countEdges_loop_join; [f_equal; simpl; lia | assumption | lia | lia | lia].
Qed.

(** When no edge argument contains a space, the count the supervisor
    computes from a report is the number of conflict edges. *)
Lemma countEdges_report_roundtrip
    (rng : rand_src) (k : nat) (argv : list string) (nodeN : nat)
    (edges : list edge) (nodes0 : list Z) (buf0 : list ascii) (st : engine) :
  (forall n, 0 <= rng n) ->
  parseEdges argv (length argv) 1 = (Z.of_nat nodeN, edges, None) ->
  Forall (in_range nodeN) edges ->
  length nodes0 = nodeN ->
  length buf0 = Z.to_nat MAX_LINE ->
  Forall (fun s => Forall (fun c => Ascii.eqb c SPACE = false) (c_str s))
    (drop 1 argv) ->
  generate3coloring rng k nodes0 nodeN edges (length argv - 1) argv 1 buf0
    = Done (0, st) ->
  countEdges (string_in (e_buf st))
  = Some (Z.of_nat (length (conflict_texts (e_nodes st) edges (drop 1 argv)))).
Proof.
  intros Hrng Hparse Hrange Hn Hb Hsp Hrun.
  destruct (parseEdges_inv _ _ _ Hparse) as [_ Hne].
  destruct (generate3coloring_sound rng k argv nodeN edges nodes0 buf0 st
              Hrng Hparse Hrange Hn Hb Hrun)
    as (_ & Hl & Hholds).
  rewrite (string_in_holds _ _ Hholds).
  assert (Hok : Forall token_ok
                  (conflict_texts (e_nodes st) edges (drop 1 argv))).
  { clear -Hsp Hne. revert edges Hne.
    induction Hsp as [|t ts Ht _ IH]; intros [|e es] Hne; simpl;
      try constructor.
    inversion Hne; subst.
    destruct (conflicting (e_nodes st) e); [constructor|]; auto.
    split; assumption. }
  apply countEdges_join; [assumption|].
  destruct Hholds as (_ & Hlt & _). fold (string_in (e_buf st)) in *.
  assert (Hcnt : forall ts, Forall token_ok ts ->
                   (length ts <= length (join_sp ts))%nat).
  { clear. induction 1 as [|t ts [Ht _] _ IH]; [simpl; lia|].
    destruct t as [|a t]; [congruence|].
    destruct ts as [|t' ts]; [simpl; lia|].
    rewrite join_sp_cons, length_app. cbn [length] in *. lia. }
  specialize (Hcnt _ Hok). rewrite Hl in Hlt.
  change (Z.to_nat MAX_LINE) with 50%nat in Hlt. lia.
Qed.

(** C8. The argument ["1- 2"] is accepted as the edge 1-2 ([strtol]
    skips the space before the second number). When both nodes get the
    same color the report is the text ["1- 2"]: one conflict edge, for
    which [countEdges] returns 2. *)
Theorem C8_count_differs_from_conflicts :
  let argv := ["./generator"; "1- 2"]%string in
  parseEdges argv 2 1 = (3, [Edge 1 2], None)
  /\ exists st,
       generate3coloring zero_rng 0 (replicate 3 0) 3 [Edge 1 2] 1 argv 1
         (replicate 50 NUL) = Done (0, st)
       /\ length (conflict_texts (e_nodes st) [Edge 1 2] (drop 1 argv)) = 1%nat
       /\ string_in (e_buf st) = list_ascii_of_string "1- 2"
       /\ countEdges (string_in (e_buf st)) = Some 2.
Proof.
  split; [reflexivity|].
  eexists. split; [vm_compute; reflexivity|].
  repeat split; vm_compute; reflexivity.
Qed.

(** ** Facts on creation, attachment and startup *)






(** C5, as stated, fails: [initSHM] succeeds although a shared memory
    object of that name exists already. *)
Lemma C5_initSHM_not_exclusive :
  SHM_NAME ∈ shm_objects os_ready /\ snd (initSHM os_ready) = Ret tt.
Proof. split; [set_solver | reflexivity]. Qed.

(** C5, amended. [initSEM] fails fatally exactly when a semaphore of that
    name exists; [initSHM] opens [O_RDWR | O_CREAT] without [O_EXCL]: it
    never fails on the name, creates the object when it is missing and
    takes over the existing one otherwise; [openSHM] and [openSEM] fail
    fatally exactly when the object is missing, and never create it. *)
Theorem C5_exclusive_semaphores_open_only_attach
    (o : os) (name : string) (value : Z) :
  snd (initSEM o name value)
    = (if bool_decide (name ∈ sem_objects o)
       then ErrorExit EXIT_FAILURE "sem_open() failed" else Ret tt)
  /\ snd (initSHM o) = Ret tt
  /\ shm_objects (fst (initSHM o))
     = (if bool_decide (SHM_NAME ∈ shm_objects o)
        then shm_objects o else {[SHM_NAME]} ∪ shm_objects o)
  /\ openSHM o
     = (o, if bool_decide (SHM_NAME ∈ shm_objects o)
           then Ret tt
           else ErrorExit EXIT_FAILURE "Failed to open shared memory")
  /\ openSEM o name
     = (o, if bool_decide (name ∈ sem_objects o)
           then Ret tt
           else ErrorExit EXIT_FAILURE ("Failed to open " ++ name)).
Proof.
  destruct o as [shms sems].
  unfold initSEM, initSHM, openSHM, openSEM, sem_open, shm_open, open_named.
  cbn [shm_objects sem_objects].
  repeat split; repeat case_bool_decide;
    repeat match goal with
           | |- context [decide ?P] => destruct (decide P)
           end; try contradiction; reflexivity.
Qed.




(** C7. [parseEdge] takes ["3--1"] for the edge from 3 to -1 and
    ["+1-2"] and [" 1-2"] for the edge from 1 to 2: [strtol] reads a sign
    and skips leading white space. With ["3--1"] the generator enters its
    loop with 4 nodes and an edge to node -1, and the coloring engine then
    reads [nodes[-1]]. *)
Theorem C7_signed_and_spaced_numbers_accepted :
  parseEdge (0, 0) (c_str "3--1") = (0, (3, -1))
  /\ parseEdge (0, 0) (c_str "+1-2") = (0, (1, 2))
  /\ parseEdge (0, 0) (c_str " 1-2") = (0, (1, 2))
  /\ generator_startup os_ready ["./generator"; "3--1"]%string
     = ([SysShmOpen SHM_NAME O_RDWR; SysSemOpen SEM_USED 0;
         SysSemOpen SEM_FREE 0; SysSemOpen SEM_MUTEX 0],
        Some (4, [Edge 3 (-1)]))
  /\ generate3coloring zero_rng 0 (replicate 4 0) 4 [Edge 3 (-1)] 1
       ["./generator"; "3--1"]%string 1 (replicate 50 NUL) = Fault (-1).
Proof. repeat split; vm_compute; reflexivity. Qed.

(** ** The accounting invariant of the transition system *)

Lemma count_gens_nonneg f gs : 0 <= count_gens f gs.
Proof. induction gs as [|g gs IH]; simpl; [lia|]. destruct (f (g_pc g)); lia. Qed.

Lemma count_gens_insert f gs : forall i g g',
  gs !! i = Some g ->
  count_gens f (<[i:=g']> gs)
  = count_gens f gs - (if f (g_pc g) then 1 else 0)
    + (if f (g_pc g') then 1 else 0).
Proof.
  induction gs as [|x gs IH]; intros [|i] g g' H; simpl in *;
    try discriminate.
  - injection H as ->. lia.
  - rewrite (IH i g g' H). lia.
Qed.

Lemma count_gens_replicate f n g :
  f (g_pc g) = false -> count_gens f (replicate n g) = 0.
Proof. intros H. induction n as [|n IH]; simpl; [reflexivity|]. rewrite H, IH. reflexivity. Qed.

Lemma inv_initial n : inv (initial n).
Proof.
  split; unfold in_flight, initial;
    cbn [sem_mutex sem_used sem_free w_gens w_sup s_wait_rc s_read_pos];
    rewrite ?count_gens_replicate by reflexivity;
    vm_compute; intuition congruence.
Qed.

Ltac step_cases H :=
  match type of H with
  | context [match ?x with _ => _ end] =>
      let E := fresh "E" in destruct x eqn:E; try discriminate; step_cases H
  | Some _ = Some _ => injection H as <- <-
  | _ => idtac
  end.

Ltac close_rc Hrc :=
  first
    [ assumption
    | lia
    | destruct Hrc as [Hrc|(Hrc & ? & [?|?])]; try discriminate; subst;
      simpl in *;
      first [ lia | left; reflexivity | left; assumption
            | right; repeat split; auto; lia ] ].

Lemma rem_buf_len x : 0 <= x -> 0 <= Z.rem (x + 1) BUF_LEN < BUF_LEN.
Proof. intros H. apply Z.rem_bound_pos; unfold BUF_LEN; lia. Qed.

Lemma circ_buf_read_pos m buf rp buf' rp' :
  circ_buf_read m buf rp = Done (buf', rp') ->
  0 <= rp < BUF_LEN /\ rp' = Z.rem (rp + 1) BUF_LEN.
Proof.
  unfold circ_buf_read, slot_offset.
  destruct ((0 <=? rp) && (rp <? BUF_LEN)) eqn:E; [|discriminate].
  destruct (snprintf_s _ _ _); cbn [rbind]; [|discriminate].
  intros [= <- <-]. apply andb_true_iff in E. split; [lia | reflexivity].
Qed.

Ltac step_split H :=
  match type of H with
  | context [match ?x with _ => _ end] =>
      let E := fresh "E" in destruct x eqn:E; try discriminate H; step_split H
  | _ => idtac
  end.

Lemma step_inv m w w' e : inv w -> step m w = Some (w', e) -> inv w'.
Proof.
  intros [Hm Hs Hu Hf Hl Hrc Hrp] H.
  unfold in_flight in Hs.
  destruct m as [|eintr|i out]; cbn [step] in H.
  - unfold step_signal in H.
    destruct (w_sup w) as [pc q rc rp best edges] eqn:Es.
    cbn [s_pc s_quit s_wait_rc s_read_pos s_best s_edges] in *.
    destruct pc; try discriminate; injection H as <- <-;
      split; simpl; unfold in_flight; simpl;
      unfold sup_holds, extra_releases in *; simpl in *;
      close_rc Hrc.
  - unfold step_sup in H.
    destruct (w_sup w) as [pc q rc rp best edges] eqn:Es.
    cbn [s_pc s_quit s_wait_rc s_read_pos s_best s_edges] in *.
    destruct pc, eintr; try discriminate; step_cases H;
      try match goal with
          | E : circ_buf_read _ _ _ = Done _ |- _ =>
              apply circ_buf_read_pos in E as [_ ->];
              pose proof (rem_buf_len rp (proj1 Hrp))
          end;
      split; simpl; unfold in_flight; simpl;
      unfold sup_holds, extra_releases in *; simpl in *;
      close_rc Hrc.
  - unfold step_gen in H.
    destruct (w_gens w !! i) as [g|] eqn:Eg; [|discriminate].
    destruct g as [pc gq gbuf]. cbn [g_pc g_quit g_buf] in *.
    destruct pc; try discriminate; step_cases H;
      split; simpl; unfold in_flight; simpl;
      rewrite ?(count_gens_insert _ _ _ _ _ Eg); simpl;
      try assumption; lia.
Qed.

Lemma step_balance m w w' e :
  inv w -> step m w = Some (w', e) -> balance w' = balance w + delta e.
Proof.
  intros [Hm Hs Hu Hf Hl Hrc Hrp] H. unfold balance.
  destruct m as [|eintr|i out]; cbn [step] in H.
  - unfold step_signal in H.
    destruct (w_sup w) as [pc q rc rp best edges] eqn:Es.
    destruct pc; try discriminate; injection H as <- <-;
      simpl; rewrite ?Es; unfold sup_unread, stray_reads, delta; simpl; lia.
  - unfold step_sup in H.
    destruct (w_sup w) as [pc q rc rp best edges] eqn:Es.
    cbn [s_pc s_quit s_wait_rc s_read_pos s_best s_edges] in *.
    destruct pc, eintr; try discriminate; step_cases H;
      simpl; unfold sup_unread, stray_reads, delta; simpl;
      close_rc Hrc.
  - unfold step_gen in H.
    destruct (w_gens w !! i) as [g|] eqn:Eg; [|discriminate].
    destruct g as [pc gq gbuf]. cbn [g_pc g_quit g_buf] in *.
    destruct pc; try discriminate; step_cases H;
      simpl; rewrite ?(count_gens_insert _ _ _ _ _ Eg);
      unfold delta; simpl; lia.
Qed.

Lemma run_inv ms : forall w w' tr,
  inv w -> run ms w = Some (w', tr) ->
  inv w' /\ balance w' = balance w + outstanding tr.
Proof.
  induction ms as [|m ms IH]; intros w w' tr Hinv H; simpl in H.
  - injection H as <- <-. simpl. split; [assumption | lia].
  - destruct (step m w) as [[w1 e]|] eqn:Es; [|discriminate].
    destruct (run ms w1) as [[w2 tr']|] eqn:Er; [|discriminate].
    injection H as <- <-.
    pose proof (step_inv _ _ _ _ Hinv Es) as Hinv1.
    pose proof (step_balance _ _ _ _ Hinv Es) as Hb.
    destruct (IH _ _ _ Hinv1 Er) as [Hinv2 Hb2].
    split; [assumption|]. simpl. lia.
Qed.

Lemma count_gens_split gs :
  count_gens holds_slot gs = count_gens unposted gs + count_gens unwritten gs.
Proof.
  induction gs as [|g gs IH]; simpl; [reflexivity|].
  rewrite IH. destruct (g_pc g); simpl; lia.
Qed.

(** C1, as stated, fails. After an interrupted [sem_wait(sem_used)] on the
    empty buffer the supervisor still reads a slot and releases
    [sem_free]: the semaphores are 0 and 65 and one more record was read
    than was written. After the shutdown, which releases [sem_free] once
    more, they are 0 and 65 as well. And when the buffer is full and a
    generator is blocked in [sem_wait(sem_free)], the shutdown lets it
    write a 65th record. *)
Lemma C1_accounting_breaks_at_shutdown :
  option_map (fun r => (sem_used (fst r), sem_free (fst r), outstanding (snd r)))
    (run [MSup false; MSup true; MSup false; MSup false] (initial 1))
  = Some (0, 65, -1)
  /\ option_map (fun r => (sem_used (fst r), sem_free (fst r), outstanding (snd r)))
       (run [MSignal; MSup false; MSup false; MSup false] (initial 1))
     = Some (0, 65, 0)
  /\ option_map (fun r => (sem_used (fst r), sem_free (fst r), outstanding (snd r)))
       (run (concat (replicate 64 publish_once)
             ++ replicate 3 (MGen 0 one_record)
             ++ [MSignal; MSup false; MSup false; MSup false]
             ++ replicate 3 (MGen 0 one_record)) (initial 1))
     = Some (65, 0, 65).
Proof. repeat split; vm_compute; reflexivity. Qed.

(** C1, amended. As long as no [sem_wait(sem_used)] of the supervisor has
    been interrupted and the supervisor has not made the extra release of
    its shutdown, in every reachable state: [sem_used] plus [sem_free]
    plus the slots held by a process between its wait and its post is
    [BUF_LEN]; the records written and not read are [sem_used] plus those
    written and not yet posted or acquired and not yet read; the other
    slots are [sem_free] plus those acquired and not yet written or read
    and not yet released; and all three numbers stay within
    [0..BUF_LEN]. *)
Theorem C1_accounting_while_accepting n ms w tr :
  run ms (initial n) = Some (w, tr) ->
  s_wait_rc (w_sup w) = 0 ->
  s_pc (w_sup w) <> SExit ->
  sem_used w + sem_free w + in_flight w = BUF_LEN
  /\ outstanding tr
     = sem_used w + count_gens unposted (w_gens w) + sup_unread (w_sup w)
  /\ BUF_LEN - outstanding tr
     = sem_free w + count_gens unwritten (w_gens w)
       + sup_unreleased (w_sup w)
  /\ 0 <= outstanding tr <= BUF_LEN
  /\ 0 <= sem_used w <= BUF_LEN
  /\ 0 <= sem_free w <= BUF_LEN.
Proof.
  intros Hrun Hrc Hpc.
  destruct (run_inv ms _ _ _ (inv_initial n) Hrun) as [Hinv Hbal].
  destruct Hinv as [Hm Hs Hu Hf Hl _ _].
  assert (Hb0 : balance (initial n) = 0).
  { unfold balance, initial.
    cbn [sem_used w_gens w_sup].
    rewrite count_gens_replicate by reflexivity. reflexivity. }
  rewrite Hb0 in Hbal. unfold balance in Hbal. unfold in_flight in *.
  rewrite count_gens_split in *.
  pose proof (count_gens_nonneg unposted (w_gens w)).
  pose proof (count_gens_nonneg unwritten (w_gens w)).
  unfold extra_releases, stray_reads, sup_holds, sup_unread, sup_unreleased
    in *.
  rewrite Hrc in *. simpl in *.
  destruct (s_pc (w_sup w)); try congruence; simpl in *; lia.
Qed.

Lemma C1_accounting_while_accepting_witness :
  sem_used (fst demo_state) + sem_free (fst demo_state)
    + in_flight (fst demo_state) = BUF_LEN
  /\ outstanding (snd demo_state) = 1.
Proof.
  destruct (C1_accounting_while_accepting 1 demo_schedule
              (fst demo_state) (snd demo_state)) as (H1 & H2 & _).
  - vm_compute. reflexivity.
  - vm_compute. reflexivity.
  - vm_compute. discriminate.
  - split; [exact H1|]. rewrite H2. vm_compute. reflexivity.
Defined.

(** ** Every generator follows the publish protocol *)

Lemma proc_eqb_eq p q : proc_eqb p q = true <-> p = q.
Proof.
  destruct p as [|i], q as [|j]; simpl; split; intros H;
    try discriminate; try reflexivity.
  - apply Nat.eqb_eq in H. congruence.
  - injection H as ->. apply Nat.eqb_refl.
Qed.

Lemma proc_eqb_refl p : proc_eqb p p = true.
Proof. apply proc_eqb_eq. reflexivity. Qed.

Lemma phase_at_upd w w' i g gs j :
  w_gens w !! i = Some g ->
  w_gens w' = <[i:=gs]> (w_gens w) ->
  phase_at w' j = if (i =? j)%nat then phase_of gs else phase_at w j.
Proof.
  intros Hi Hw. unfold phase_at. rewrite Hw.
  destruct (i =? j)%nat eqn:E.
  - apply Nat.eqb_eq in E. subst j.
    rewrite list_lookup_insert_eq; [reflexivity|].
    apply lookup_lt_Some in Hi. assumption.
  - apply Nat.eqb_neq in E. rewrite list_lookup_insert_ne by assumption.
    reflexivity.
Qed.

Lemma step_sup_gens eintr w w' e :
  step_sup eintr w = Some (w', e) -> w_gens w' = w_gens w /\ fst e = Sup.
Proof.
  unfold step_sup. intros H.
  destruct (s_pc (w_sup w)), eintr; try discriminate; step_cases H; auto.
Qed.

Lemma step_phase m w w' p a :
  Forall gen_ok (w_gens w) ->
  step m w = Some (w', (p, a)) ->
  Forall gen_ok (w_gens w')
  /\ forall j,
       if proc_eqb p (Gen j)
       then accept (phase_at w j) a = Some (phase_at w' j)
       else phase_at w' j = phase_at w j.
Proof.
  intros Hok H. destruct m as [|eintr|i out]; cbn [step] in H.
  - unfold step_signal in H.
    destruct (s_pc (w_sup w)); try discriminate; injection H as <- <- <-;
      (split; [assumption | intros j; reflexivity]).
  - apply step_sup_gens in H as [Hg Hp]. simpl in Hp. subst p.
    rewrite Hg. split; [assumption|]. intros j. simpl.
    unfold phase_at. rewrite Hg. reflexivity.
  - unfold step_gen in H.
    destruct (w_gens w !! i) as [g|] eqn:Eg; [|discriminate].
    pose proof (proj1 (Forall_lookup _ _) Hok _ _ Eg) as Hgi.
    destruct g as [pc gq gbuf]. unfold gen_ok in Hgi.
    cbn [g_pc g_quit g_buf] in *.
    destruct pc; try discriminate; step_cases H; subst;
      (split;
       [ apply Forall_insert; [assumption|]; unfold gen_ok; simpl;
         try (apply Z.eqb_eq in E); intuition (try discriminate; auto)
       | intros j; cbn [proc_eqb];
         match goal with
         | |- context [phase_at ?w' j] =>
             lazymatch w' with
             | w => fail
             | _ => rewrite (phase_at_upd w w' i _ _ j Eg eq_refl)
             end
         end;
         destruct (i =? j)%nat eqn:Eij;
         [ apply Nat.eqb_eq in Eij; subst j; unfold phase_at; rewrite Eg;
           unfold phase_of; simpl; rewrite ?E; try reflexivity
         | reflexivity ] ]).
    all: try (destruct Hgi as [->|[?|[?|?]]]; try discriminate; reflexivity).
    destruct (gq =? 0); reflexivity.
Qed.

Lemma run_phase ms : forall w w' tr,
  Forall gen_ok (w_gens w) ->
  run ms w = Some (w', tr) ->
  Forall gen_ok (w_gens w')
  /\ forall j,
       accepts (phase_at w j) (actions_of (Gen j) tr) = Some (phase_at w' j).
Proof.
  induction ms as [|m ms IH]; intros w w' tr Hok H; simpl in H.
  - injection H as <- <-. split; [assumption | reflexivity].
  - destruct (step m w) as [[w1 [p a]]|] eqn:Es; [|discriminate].
    destruct (run ms w1) as [[w2 tr']|] eqn:Er; [|discriminate].
    injection H as <- <-.
    destruct (step_phase _ _ _ _ _ Hok Es) as [Hok1 Hph].
    destruct (IH _ _ _ Hok1 Er) as [Hok2 Hacc].
    split; [assumption|]. intros j. specialize (Hph j). specialize (Hacc j).
    cbn [actions_of]. destruct (proc_eqb p (Gen j)).
    + cbn [accepts]. rewrite Hph. exact Hacc.
    + rewrite <- Hph. exact Hacc.
Qed.

Lemma gens_ok_initial n : Forall gen_ok (w_gens (initial n)).
Proof. apply Forall_replicate. left. reflexivity. Qed.

Lemma phase_at_initial n j : phase_at (initial n) j = Idle.
Proof.
  unfold phase_at, initial. cbn [w_gens].
  destruct (replicate n _ !! j) as [g|] eqn:E; [|reflexivity].
  apply lookup_replicate in E as [-> _]. reflexivity.
Qed.

Lemma actions_of_app p tr1 tr2 :
  actions_of p (tr1 ++ tr2) = actions_of p tr1 ++ actions_of p tr2.
Proof.
  induction tr1 as [|[q a] tr1 IH]; simpl; [reflexivity|].
  destruct (proc_eqb q p); simpl; rewrite IH; reflexivity.
Qed.

Lemma accepts_app l1 : forall ph l2,
  accepts ph (l1 ++ l2)
  = match accepts ph l1 with
    | Some ph1 => accepts ph1 l2
    | None => None
    end.
Proof.
  induction l1 as [|a l1 IH]; intros ph l2; simpl; [reflexivity|].
  destruct (accept ph a); [apply IH | reflexivity].
Qed.

(** Once the flag was seen set, a producer releases the mutex and does
    nothing else to the shared objects. *)
Lemma accepts_stopped l : forall ph ph',
  stopped ph = true ->
  accepts ph l = Some ph' ->
  stopped ph' = true
  /\ Forall (fun a => a = Local \/ a = Post Mutex) l.
Proof.
  induction l as [|a l IH]; intros ph ph' Hst H; simpl in H.
  - injection H as <-. auto.
  - destruct (accept ph a) as [ph1|] eqn:E; [|discriminate].
    assert (stopped ph1 = true /\ (a = Local \/ a = Post Mutex)) as [H1 H2].
    { destruct ph; try discriminate;
        destruct a as [| |[]|[]|[]| | | |]; simpl in E; try discriminate;
        injection E as <-; auto. }
    destruct (IH _ _ H1 H) as [H3 H4]. split; [assumption|].
    constructor; assumption.
Qed.

Lemma accept_observe ph v ph' :
  accept ph (Observe v) = Some ph' -> v <> 0 -> ph' = Stopping.
Proof.
  destruct ph; simpl; try discriminate.
  destruct (v =? 0) eqn:E; [apply Z.eqb_eq in E; congruence|].
  intros [= <-]. reflexivity.
Qed.

Lemma phase_stopped g :
  stopped (phase_of g) = true ->
  (g_pc g = GPostMutex /\ g_quit g <> 0)
  \/ (g_pc g = GLoop /\ g_quit g <> 0)
  \/ g_pc g = GExit.
Proof.
  unfold phase_of. destruct g as [pc q b]. simpl.
  destruct pc; simpl; try discriminate; auto;
    destruct (q =? 0) eqn:E; simpl; try discriminate;
    apply Z.eqb_neq in E; auto.
Qed.

(** C2. In every execution, what a generator does to the semaphores and
    the shared memory is a sequence of publish attempts, each of them:
    acquire [write-mutex]; read the flag; if it is nonzero release
    [write-mutex] and stop; otherwise acquire [free-slots], write the
    record, release [used-slots], release [write-mutex]. And once a
    generator has read a nonzero flag, all it does afterwards is to
    release the mutex: it writes no record and does not wait for
    [free-slots], and it is about to release the mutex, at the head of
    its loop with [quit] set, or gone. *)
Theorem C2_publish_protocol_and_shutdown n ms w tr i :
  run ms (initial n) = Some (w, tr) ->
  (i < n)%nat ->
  follows_protocol (actions_of (Gen i) tr) = true
  /\ forall pre v post,
       tr = pre ++ (Gen i, Observe v) :: post ->
       v <> 0 ->
       Forall (fun a => a = Local \/ a = Post Mutex) (actions_of (Gen i) post)
       /\ exists g,
            w_gens w !! i = Some g
            /\ ((g_pc g = GPostMutex /\ g_quit g <> 0)
                \/ (g_pc g = GLoop /\ g_quit g <> 0)
                \/ g_pc g = GExit).
Proof.
  intros Hrun Hi.
  destruct (run_phase ms _ _ _ (gens_ok_initial n) Hrun) as [Hok Hacc].
  specialize (Hacc i). rewrite phase_at_initial in Hacc.
  split; [unfold follows_protocol; rewrite Hacc; reflexivity|].
  intros pre v post -> Hv.
  rewrite actions_of_app in Hacc. cbn [actions_of] in Hacc.
  rewrite proc_eqb_refl in Hacc.
  rewrite accepts_app in Hacc.
  destruct (accepts Idle (actions_of (Gen i) pre)) as [ph1|]; [|discriminate].
  cbn [accepts] in Hacc.
  destruct (accept ph1 (Observe v)) as [ph2|] eqn:E; [|discriminate].
  apply accept_observe in E; [|assumption]. subst ph2.
  apply accepts_stopped in Hacc as [Hst Hall]; [|reflexivity].
  split; [assumption|].
  unfold phase_at in Hst.
  destruct (w_gens w !! i) as [g|] eqn:Eg; [|discriminate].
  exists g. split; [reflexivity|]. apply phase_stopped. assumption.
Qed.

Lemma C2_publish_protocol_and_shutdown_witness :
  follows_protocol (actions_of (Gen 0) (snd stop_state)) = true
  /\ actions_of (Gen 0) (snd stop_state)
     = [Local; Wait Mutex; Observe 0; Wait Free; Write 0; Post Used;
        Post Mutex; Local; Wait Mutex; Observe 1; Post Mutex; Local].
Proof.
  split.
  - apply (C2_publish_protocol_and_shutdown 1 stop_schedule (fst stop_state)
             (snd stop_state) 0).
    + vm_compute. reflexivity.
    + lia.
  - vm_compute. reflexivity.
Defined.

(** ** Who mutates what, and under which lock *)







Lemma step_gen_private i out w w' e :
  step (MGen i out) w = Some (w', e) -> w_sup w' = w_sup w.
Proof.
  cbn [step]. unfold step_gen. intros H.
  step_split H; inversion H; reflexivity.
Qed.

Lemma count_gens_pos f gs : forall j g,
  gs !! j = Some g -> f (g_pc g) = true -> 1 <= count_gens f gs.
Proof.
  induction gs as [|x gs IH]; intros [|j] g H Hf; simpl in *;
    try discriminate.
  - injection H as ->. rewrite Hf. pose proof (count_gens_nonneg f gs). lia.
  - specialize (IH _ _ H Hf). destruct (f (g_pc x)); lia.
Qed.






(** * Further properties *)

(** ** Arguments that are plain decimal edges *)

Lemma digit_not_space c : is_digit c -> is_space c = false.
Proof.
  unfold is_digit, digit_of, is_space.
  destruct ((48 <=? nat_of_ascii c)%nat && (nat_of_ascii c <=? 57)%nat) eqn:E;
    [|congruence].
  intros _. apply andb_true_iff in E as [H1 H2].
  apply Nat.leb_le in H1. apply Nat.leb_le in H2.
  apply orb_false_iff. split.
  - apply Nat.eqb_neq. lia.
  - apply andb_false_iff. right. apply Nat.leb_gt. lia.
Qed.

Lemma digit_not_sign c :
  is_digit c -> Ascii.eqb c "-" = false /\ Ascii.eqb c "+" = false.
Proof.
  unfold is_digit, digit_of.
  destruct ((48 <=? nat_of_ascii c)%nat && (nat_of_ascii c <=? 57)%nat) eqn:E;
    [|congruence].
  intros _. apply andb_true_iff in E as [H1 _]. apply Nat.leb_le in H1.
  split; apply Ascii.eqb_neq; intros ->; vm_compute in H1; lia.
Qed.

Lemma value_from_nonneg ds : forall acc, 0 <= acc -> 0 <= value_from acc ds.
Proof.
  induction ds as [|c ds IH]; intros acc H; simpl; [assumption|].
  apply IH. unfold digit_of.
  destruct ((48 <=? nat_of_ascii c)%nat && (nat_of_ascii c <=? 57)%nat) eqn:E;
    simpl; [|lia].
  apply andb_true_iff in E as [H1 _]. apply Nat.leb_le in H1. lia.
Qed.

Lemma read_digits_run ds : forall rest acc any,
  Forall is_digit ds ->
  digit_of (deref rest) = None ->
  read_digits (ds ++ rest) acc any
  = (value_from acc ds, rest,
     match ds with [] => any | _ => true end).
Proof.
  induction ds as [|c ds IH]; intros rest acc any Hds Hrest; simpl.
  - destruct rest as [|r rest]; [reflexivity|]. simpl in *.
    rewrite Hrest. reflexivity.
  - inversion Hds as [|? ? Hc Hds']; subst. unfold is_digit in Hc.
    destruct (digit_of c) as [d|] eqn:E; [|congruence].
    rewrite IH by assumption. simpl. destruct ds; reflexivity.
Qed.

Lemma strtol_digits ds rest :
  ds <> [] -> Forall is_digit ds ->
  digit_of (deref rest) = None ->
  decimal_value ds <= LONG_MAX ->
  strtol (ds ++ rest) = (decimal_value ds, rest, 0).
Proof.
  intros Hne Hds Hrest Hmax.
  destruct ds as [|c ds]; [congruence|].
  inversion Hds as [|? ? Hc Hds']; subst.
  unfold strtol. cbn [app skip_space].
  rewrite (digit_not_space c Hc).
  destruct (digit_not_sign c Hc) as [-> ->].
  change (c :: ds ++ rest) with ((c :: ds) ++ rest).
  rewrite read_digits_run by assumption.
  fold (decimal_value (c :: ds)).
  pose proof (value_from_nonneg (c :: ds) 0 ltac:(lia)) as Hpos.
  fold (decimal_value (c :: ds)) in Hpos.
  replace (decimal_value (c :: ds) >? LONG_MAX) with false
    by (symmetry; rewrite Z.gtb_ltb; apply Z.ltb_ge; assumption).
  replace (decimal_value (c :: ds) <? LONG_MIN) with false
    by (symmetry; apply Z.ltb_ge; unfold LONG_MIN; lia).
  reflexivity.
Qed.

Lemma to_int_small v : INT_MIN <= v <= INT_MAX -> to_int v = v.
Proof.
  unfold INT_MIN, INT_MAX, to_int. intros H.
  change (2 ^ 31) with 2147483648 in *. change (2 ^ 32) with 4294967296.
  rewrite Z.mod_small by lia. lia.
Qed.

Lemma parseNumber_digits ds rest :
  ds <> [] -> Forall is_digit ds ->
  digit_of (deref rest) = None ->
  decimal_value ds <= INT_MAX ->
  parseNumber (ds ++ rest) = (decimal_value ds, rest, 0).
Proof.
  intros Hne Hds Hrest Hmax.
  pose proof (value_from_nonneg ds 0 ltac:(lia)) as Hpos.
  fold (decimal_value ds) in Hpos.
  unfold parseNumber.
  rewrite strtol_digits by (try assumption; unfold INT_MAX, LONG_MAX in *; lia).
  cbn [Z.eqb andb orb negb].
  replace (same_ptr rest (ds ++ rest)) with false.
  2:{ symmetry. unfold same_ptr. apply Nat.eqb_neq. rewrite length_app.
      destruct ds; [congruence|]. simpl. lia. }
  replace (decimal_value ds >? INT_MAX) with false
    by (symmetry; rewrite Z.gtb_ltb; apply Z.ltb_ge; assumption).
  replace (decimal_value ds <? INT_MIN) with false
    by (symmetry; apply Z.ltb_ge; unfold INT_MIN; lia).
  cbn [orb]. rewrite to_int_small by (unfold INT_MIN; lia). reflexivity.
Qed.

(** X1. An argument made of a nonempty run of decimal digits, a [-] and
    another nonempty run of digits, both numbers at most [INT_MAX], is
    accepted by [parseEdge], which stores the two numbers in [nodes]. *)
Theorem X1_parseEdge_accepts_decimal_edges
    (nodes : Z * Z) (du dv : list ascii) :
  du <> [] -> dv <> [] ->
  Forall is_digit du -> Forall is_digit dv ->
  decimal_value du <= INT_MAX -> decimal_value dv <= INT_MAX ->
  parseEdge nodes (du ++ DASH :: dv)
  = (0, (decimal_value du, decimal_value dv)).
Proof.
  intros Hu Hv Hdu Hdv Hmu Hmv. unfold parseEdge.
  rewrite (parseNumber_digits du (DASH :: dv)) by (try assumption; reflexivity).
  cbn [deref tail]. rewrite Ascii.eqb_refl. cbn [negb orb Z.ltb Z.compare].
  rewrite <- (app_nil_r dv) at 1.
  rewrite (parseNumber_digits dv []) by (try assumption; reflexivity).
  reflexivity.
Qed.

Lemma X1_parseEdge_accepts_decimal_edges_witness :
  parseEdge (0, 0) (list_ascii_of_string "12" ++ DASH :: list_ascii_of_string "7")
  = (0, (decimal_value (list_ascii_of_string "12"),
         decimal_value (list_ascii_of_string "7"))).
Proof.
  apply X1_parseEdge_accepts_decimal_edges.
  - discriminate.
  - discriminate.
  - repeat constructor; discriminate.
  - repeat constructor; discriminate.
  - vm_compute. discriminate.
  - vm_compute. discriminate.
Defined.

(** ** The node count [parseEdges] returns *)






(** ** How the startup of the generator ends *)






(** ** A report that fits is never discarded *)




Lemma conflict_texts_nonempty col ts :
  Forall (fun s => c_str s <> []) ts ->
  forall es, Forall (fun t => t <> []) (conflict_texts col es ts).
Proof.
  induction 1 as [|t ts Ht _ IH]; intros [|e es]; simpl; try constructor.
  destruct (conflicting col e); [constructor|]; auto.
Qed.

Section EngineComplete.

Variable rng : rand_src.
Hypothesis rng_nonneg : forall k, 0 <= rng k.
Variable edgeStr : list string.
Variable offset : nat.


End EngineComplete.



(** ** One draw per node *)

Lemma count_colored_insert col : forall (i : nat) (c c' : Z),
  col !! i = Some c ->
  (count_colored (<[i:=c']> col) + (if Z.eqb c 0 then 0 else 1)
   = count_colored col + (if Z.eqb c' 0 then 0 else 1))%nat.
Proof.
  induction col as [|x col IH]; intros [|i] c c' H; simpl in *;
    try discriminate.
  - injection H as ->. lia.
  - specialize (IH i c c' H). lia.
Qed.

Lemma count_colored_replicate n : count_colored (replicate n 0) = 0%nat.
Proof. induction n as [|n IH]; simpl; [reflexivity | exact IH]. Qed.

Lemma paint_draws rng i col k :
  (snd (paint rng i col k) + count_colored col
   = k + count_colored (fst (paint rng i col k)))%nat.
Proof.
  unfold paint. destruct (col !! Z.to_nat i) as [c|] eqn:E; [|simpl; lia].
  destruct (c =? 0) eqn:Ec; [|simpl; lia]. cbn [fst snd].
  pose proof (count_colored_insert col _ c (pick rng k) E) as H.
  rewrite Ec in H.
  replace (pick rng k =? 0) with false in H.
  2:{ symmetry. apply Z.eqb_neq. pose proof (pick_range rng k). lia. }
  lia.
Qed.

Lemma greedy_draws rng es : forall col k,
  (snd (greedy rng es col k) + count_colored col
   = k + count_colored (fst (greedy rng es col k)))%nat.
Proof.
  induction es as [|e es IH]; intros col k; simpl; [lia|].
  set (a := paint rng (nodeU e) col k).
  set (b := paint rng (nodeV e) (fst a) (snd a)).
  specialize (IH (fst b) (snd b)).
  pose proof (paint_draws rng (nodeU e) col k) as Ha. fold a in Ha.
  pose proof (paint_draws rng (nodeV e) (fst a) (snd a)) as Hb. fold b in Hb.
  lia.
Qed.

Lemma paint_elsewhere rng i col k j :
  0 <= i -> 0 <= j -> i <> j ->
  color_of (fst (paint rng i col k)) j = color_of col j.
Proof.
  intros Hi Hj Hne. unfold paint, color_of.
  destruct (col !! Z.to_nat i) as [c|]; [|reflexivity].
  destruct (c =? 0); [|reflexivity]. cbn [fst].
  rewrite list_lookup_insert_ne by lia. reflexivity.
Qed.

Lemma greedy_elsewhere rng es : forall col k j,
  0 <= j ->
  Forall (fun e => 0 <= nodeU e /\ 0 <= nodeV e) es ->
  Forall (fun e => ~ touches j e) es ->
  color_of (fst (greedy rng es col k)) j = color_of col j.
Proof.
  induction es as [|e es IH]; intros col k j Hj Hpos Hno; simpl;
    [reflexivity|].
  inversion Hpos as [|? ? [HU HV] Hpos']; subst.
  inversion Hno as [|? ? He Hno']; subst. unfold touches in He.
  rewrite IH by assumption.
  rewrite !paint_elsewhere
    by first [assumption | intros Heq; apply He; auto].
  reflexivity.
Qed.

(** X5. In a call of [generate3coloring] that returns 0 on a parsed
    graph with node ids in [0..N-1], [random()] is called once for every
    node that gets a color, and the nodes that get a color are the
    endpoints of the edges: a node no edge mentions stays uncolored. *)
Theorem X5_one_draw_per_endpoint
    (rng : rand_src) (k : nat) (argv : list string) (nodeN : nat)
    (edges : list edge) (nodes0 : list Z) (buf0 : list ascii) (st : engine) :
  (forall n, 0 <= rng n) ->
  parseEdges argv (length argv) 1 = (Z.of_nat nodeN, edges, None) ->
  Forall (in_range nodeN) edges ->
  length nodes0 = nodeN ->
  length buf0 = Z.to_nat MAX_LINE ->
  generate3coloring rng k nodes0 nodeN edges (length argv - 1) argv 1 buf0
    = Done (0, st) ->
  e_draws st = (k + count_colored (e_nodes st))%nat
  /\ forall j, 0 <= j ->
       (color_of (e_nodes st) j <> 0 <-> Exists (touches j) edges).
Proof.
  intros Hrng Hparse Hrange Hn Hb Hrun.
  destruct (parseEdges_inv _ _ _ Hparse) as [Hlen _].
  unfold generate3coloring in Hrun. rewrite <- Hlen, firstn_all in Hrun.
  assert (Hmem : memset nodes0 0 nodeN = replicate nodeN 0).
  { unfold memset. rewrite Hn, Nat.min_id, drop_ge by lia. apply app_nil_r. }
  rewrite Hmem in Hrun.
  assert (Hml : length (memset buf0 NUL (Z.to_nat MAX_LINE)) = Z.to_nat MAX_LINE).
  { unfold memset. rewrite Hb, Nat.min_id, drop_ge by lia.
    rewrite app_nil_r. apply length_replicate. }
  apply (coloring_loop_sound rng Hrng argv 1 edges 0 _ st [])
    in Hrun as (Hnodes & Hdraws & _ & _);
    cbn [e_nodes e_buf e_draws] in *;
    [ | lia | rewrite length_replicate; assumption | assumption
      | apply holds_memset; assumption ].
  split.
  - rewrite Hdraws, Hnodes.
    pose proof (greedy_draws rng edges (replicate nodeN 0) k) as H.
    rewrite count_colored_replicate in H. lia.
  - intros j Hj. rewrite Hnodes. split.
    + intros Hc. destruct (decide (Exists (touches j) edges)) as [|Hno];
        [assumption|]. exfalso. apply Hc.
      rewrite greedy_elsewhere.
      * unfold color_of. destruct (replicate nodeN 0 !! Z.to_nat j) eqn:E;
          [|reflexivity]. apply lookup_replicate in E as [-> _]. reflexivity.
      * assumption.
      * eapply Forall_impl; [exact Hrange|]. intros e [? ?]. simpl. lia.
      * apply not_Exists_Forall in Hno;
          [exact Hno | intros e; unfold touches; solve_decision].
    + intros Hex.
      pose proof (greedy_endpoints rng edges (replicate nodeN 0) k) as Hend.
      rewrite length_replicate in Hend. specialize (Hend Hrange).
      apply Exists_exists in Hex as (e & Hin & He).
      pose proof (proj1 (Forall_forall _ _) Hend e Hin) as [HU HV].
      destruct He as [<-|<-]; assumption.
Qed.

Lemma X5_one_draw_per_endpoint_witness :
  e_draws tri_engine = (0 + count_colored (e_nodes tri_engine))%nat
  /\ forall j, 0 <= j ->
       (color_of (e_nodes tri_engine) j <> 0 <-> Exists (touches j) tri_edges).
Proof.
  apply (X5_one_draw_per_endpoint zero_rng 0 tri_args 3 tri_edges [7; 7; 7]
           (replicate 50 "x"%char) tri_engine).
  - intros n. apply Z.le_refl.
  - reflexivity.
  - repeat constructor; simpl; lia.
  - reflexivity.
  - reflexivity.
  - reflexivity.
Defined.

(** ** What [countEdges] counts *)

Lemma count_spaces_bounds s : 0 <= count_spaces s <= Z.of_nat (length s).
Proof.
  induction s as [|c s IH]; simpl; [lia|].
  destruct (Ascii.eqb c SPACE); lia.
Qed.

Lemma countEdges_loop_none fuel c : countEdges_loop fuel None c = Some c.
Proof. destruct fuel; reflexivity. Qed.

Lemma countEdges_loop_step fuel p c :
  countEdges_loop (S fuel) (Some p) c
  = countEdges_loop fuel
      (strchr (if Ascii.eqb (deref p) SPACE then tail p else p) SPACE)
      ((c + 1) mod 2 ^ 32).
Proof. reflexivity. Qed.

Lemma countEdges_loop_spaces p : forall fuel c,
  (length p <= fuel)%nat ->
  0 <= c -> c + count_spaces p < 2 ^ 32 ->
  countEdges_loop fuel (strchr p SPACE) c = Some (c + count_spaces p).
Proof.
  change (2 ^ 32) with 4294967296.
  induction p as [|x p IH]; intros fuel c Hfuel Hc Hmax; cbn [strchr].
  - rewrite countEdges_loop_none. simpl. f_equal. lia.
  - cbn [count_spaces length] in *. pose proof (count_spaces_bounds p).
    destruct (Ascii.eqb x SPACE) eqn:E.
    + destruct fuel as [|fuel]; [lia|].
      rewrite countEdges_loop_step. cbn [deref tail]. rewrite E.
      change (2 ^ 32) with 4294967296. rewrite Z.mod_small by lia.
      rewrite IH by lia. f_equal. lia.
    + rewrite IH by lia. f_equal.
Qed.

Lemma countEdges_nonempty s :
  s <> [] -> Z.of_nat (length s) < 2 ^ 32 ->
  countEdges s = Some (1 + count_spaces (skip_leading_space s)).
Proof.
  change (2 ^ 32) with 4294967296.
  intros Hne Hlen. destruct s as [|x s]; [congruence|].
  unfold countEdges, skip_leading_space.
  cbn [length Nat.eqb] in *. rewrite countEdges_loop_step. cbn [deref tail].
  change (2 ^ 32) with 4294967296. rewrite Z.mod_small by lia.
  destruct (Ascii.eqb x SPACE) eqn:E.
  - pose proof (count_spaces_bounds s).
    rewrite countEdges_loop_spaces;
      [reflexivity | lia | lia | change (2 ^ 32) with 4294967296; lia].
  - pose proof (count_spaces_bounds s).
    rewrite countEdges_loop_spaces;
      [reflexivity | simpl; lia | lia
      | cbn [count_spaces]; rewrite E; change (2 ^ 32) with 4294967296; lia].
Qed.

(** X6. On a record shorter than 2^32 bytes [countEdges] returns 0 for
    the empty record and otherwise one more than the number of spaces in
    it, a space at its very start not counted: so it is 0 only for the
    empty record, and two spaces in a row or a space at the end count as
    one edge more. *)
Theorem X6_countEdges_counts_spaces (s : list ascii) :
  Z.of_nat (length s) < 2 ^ 32 ->
  countEdges s
  = Some (match s with
          | [] => 0
          | _ => 1 + count_spaces (skip_leading_space s)
          end)
  /\ (countEdges s = Some 0 <-> s = []).
Proof.
  intros Hlen. destruct s as [|x s]; [split; [reflexivity | tauto]|].
  rewrite countEdges_nonempty by (congruence || assumption).
  split; [reflexivity|].
  pose proof (count_spaces_bounds (skip_leading_space (x :: s))).
  split; [intros [= H0]; lia | discriminate].
Qed.

Lemma X6_countEdges_counts_spaces_witness :
  countEdges (list_ascii_of_string "a  b ")
  = Some (1 + count_spaces (skip_leading_space (list_ascii_of_string "a  b ")))
  /\ (countEdges (list_ascii_of_string "a  b ") = Some 0
      <-> list_ascii_of_string "a  b " = []).
Proof.
  apply (X6_countEdges_counts_spaces (list_ascii_of_string "a  b ")).
  vm_compute. reflexivity.
Defined.

(** ** The count of a report and the coloring behind it *)

Lemma join_sp_nil ts :
  Forall (fun t => t <> []) ts -> join_sp ts = [] -> ts = [].
Proof.
  intros H. destruct H as [|t ts Ht Hts]; [reflexivity|].
  destruct t as [|a t]; [congruence|]. destruct ts; discriminate.
Qed.

Lemma conflict_texts_nil col es : forall ts,
  (length es <= length ts)%nat ->
  conflict_texts col es ts = [] ->
  Forall (fun e => conflicting col e = false) es.
Proof.
  induction es as [|e es IH]; intros [|t ts] Hlen H; simpl in *;
    try constructor; try lia.
  - destruct (conflicting col e); [discriminate | reflexivity].
  - destruct (conflicting col e); [discriminate|].
    apply (IH ts); [lia | assumption].
Qed.

(** X7. For a report [generate3coloring] returns on a parsed graph with
    node ids in [0..N-1], [countEdges] is 0 exactly when no edge has both
    endpoints of the same color: the supervisor takes a report for a
    3-coloring exactly when the coloring behind it is one. And when no
    edge argument contains a space, the count is the number of conflict
    edges. *)
Theorem X7_count_zero_iff_proper_coloring
    (rng : rand_src) (k : nat) (argv : list string) (nodeN : nat)
    (edges : list edge) (nodes0 : list Z) (buf0 : list ascii) (st : engine) :
  (forall n, 0 <= rng n) ->
  parseEdges argv (length argv) 1 = (Z.of_nat nodeN, edges, None) ->
  Forall (in_range nodeN) edges ->
  length nodes0 = nodeN ->
  length buf0 = Z.to_nat MAX_LINE ->
  generate3coloring rng k nodes0 nodeN edges (length argv - 1) argv 1 buf0
    = Done (0, st) ->
  (countEdges (string_in (e_buf st)) = Some 0
   <-> Forall (fun e => conflicting (e_nodes st) e = false) edges)
  /\ (Forall (fun s => Forall (fun c => Ascii.eqb c SPACE = false) (c_str s))
        (drop 1 argv) ->
      countEdges (string_in (e_buf st))
      = Some (Z.of_nat
                (length (conflict_texts (e_nodes st) edges (drop 1 argv))))).
Proof.
  intros Hrng Hparse Hrange Hn Hb Hrun.
  split; [|intros Hsp; eapply countEdges_report_roundtrip; eassumption].
  destruct (parseEdges_inv _ _ _ Hparse) as [Hlen Hne].
  destruct (generate3coloring_sound rng k argv nodeN edges nodes0 buf0 st
              Hrng Hparse Hrange Hn Hb Hrun) as (_ & Hl & Hholds).
  rewrite (string_in_holds _ _ Hholds).
  set (ts := conflict_texts (e_nodes st) edges (drop 1 argv)) in *.
  assert (Hts : Forall (fun t => t <> []) ts)
    by (apply conflict_texts_nonempty; assumption).
  assert (Hshort : Z.of_nat (length (join_sp ts)) < 2 ^ 32).
  { destruct Hholds as (_ & Hlt & _). rewrite Hl in Hlt.
    change (Z.to_nat MAX_LINE) with 50%nat in Hlt.
    change (2 ^ 32) with 4294967296. lia. }
  split.
  - intros H0. destruct (join_sp ts) as [|x r] eqn:Ej.
    + apply join_sp_nil in Ej; [|assumption]. unfold ts in Ej.
      apply (conflict_texts_nil _ _ (drop 1 argv));
        [rewrite length_drop; lia | assumption].
    + rewrite countEdges_nonempty in H0 by (congruence || assumption).
      pose proof (count_spaces_bounds (skip_leading_space (x :: r))).
      injection H0 as H0. lia.
  - intros Hnone. unfold ts.
    rewrite conflict_texts_none by assumption. reflexivity.
Qed.

Lemma X7_count_zero_iff_proper_coloring_witness :
  (countEdges (string_in (e_buf tri_engine)) = Some 0
   <-> Forall (fun e => conflicting (e_nodes tri_engine) e = false) tri_edges)
  /\ (Forall (fun s => Forall (fun c => Ascii.eqb c SPACE = false) (c_str s))
        (drop 1 tri_args) ->
      countEdges (string_in (e_buf tri_engine))
      = Some (Z.of_nat
                (length (conflict_texts (e_nodes tri_engine) tri_edges
                           (drop 1 tri_args))))).
Proof.
  apply (X7_count_zero_iff_proper_coloring zero_rng 0 tri_args 3 tri_edges
           [7; 7; 7] (replicate 50 "x"%char) tri_engine).
  - intros n. apply Z.le_refl.
  - reflexivity.
  - repeat constructor; simpl; lia.
  - reflexivity.
  - reflexivity.
  - reflexivity.
Defined.

(** ** A record written and read back *)

Lemma store_bytes_at cs arr i :
  (i + length cs <= length arr)%nat ->
  store_bytes arr i cs
  = Done (take i arr ++ cs ++ drop (i + length cs) arr).
Proof.
  intros H. destruct (store_bytes_done cs arr i H) as [arr' Harr].
  rewrite Harr. apply store_bytes_inv in Harr as (_ & -> & _). reflexivity.
Qed.

Lemma strncpy_bytes_length src n : length (strncpy_bytes src n) = n.
Proof.
  unfold strncpy_bytes. rewrite length_take, length_app, length_replicate. lia.
Qed.

Lemma c_str_bytes_app s rest :
  Forall (fun c => is_nul c = false) s ->
  c_str_bytes (s ++ rest) = s ++ c_str_bytes rest.
Proof.
  induction 1 as [|c s Hc _ IH]; simpl; [reflexivity|].
  rewrite Hc, IH. reflexivity.
Qed.

(** What a reader finds at a slot [strncpy] filled: the string that was
    copied, cut at [n - 1] bytes when it was [n] bytes or longer. *)
Lemma strncpy_then_read src n rest :
  take n (c_str_bytes (strncpy_bytes src (S n) ++ rest))
  = take n (string_in src).
Proof.
  unfold strncpy_bytes, string_in. set (s := c_str_bytes src).
  assert (Hs : Forall (fun c => is_nul c = false) s)
    by apply c_str_bytes_no_nul.
  destruct (le_lt_dec (S n) (length s)) as [Hlong|Hshort].
  - rewrite take_app_le by assumption.
    rewrite c_str_bytes_app by (apply Forall_take; assumption).
    rewrite take_app_le by (rewrite length_take; lia).
    rewrite take_take. f_equal. lia.
  - rewrite take_app_ge by lia.
    rewrite take_replicate.
    replace (Init.Nat.min (S n - length s) (S n)) with (S (n - length s)) by lia.
    rewrite <- app_assoc. cbn [replicate app].
    rewrite c_str_bytes_app_nul by assumption. reflexivity.
Qed.

Lemma circ_buf_read_string m buf rp :
  length buf = Z.to_nat MAX_LINE ->
  0 <= rp < BUF_LEN ->
  exists buf',
    circ_buf_read m buf rp = Done (buf', (rp + 1) mod BUF_LEN)
    /\ length buf' = Z.to_nat MAX_LINE
    /\ string_in buf'
       = take 49 (c_str_bytes (drop (Z.to_nat (rp * MAX_LINE)) (shm_buf m))).
Proof.
  intros Hlen Hpos. unfold circ_buf_read, slot_offset.
  replace ((0 <=? rp) && (rp <? BUF_LEN)) with true
    by (symmetry; apply andb_true_iff; split; lia).
  change (Z.to_nat MAX_LINE) with 50%nat in *. cbn [snprintf_s].
  set (cs := take 49 (c_str_bytes (drop (Z.to_nat (rp * MAX_LINE))
                                     (shm_buf m)))).
  assert (Hcs : (length cs <= 49)%nat) by (unfold cs; rewrite length_take; lia).
  assert (Hnn : Forall (fun c => is_nul c = false) cs)
    by (apply Forall_take, c_str_bytes_no_nul).
  rewrite store_bytes_at by lia. cbn [rbind Nat.add]. rewrite take_0.
  cbn [app]. unfold store.
  replace (length cs <? length (cs ++ drop (length cs) buf))%nat with true
    by (symmetry; apply Nat.ltb_lt; rewrite length_app, length_drop; lia).
  cbn [rbind].
  rewrite Z.rem_mod_nonneg by (unfold BUF_LEN; lia).
  eexists. split; [reflexivity|].
  rewrite insert_app_r_alt, Nat.sub_diag by lia.
  destruct (drop (length cs) buf) as [|x r] eqn:E.
  { apply (f_equal length) in E. rewrite length_drop in E. simpl in E. lia. }
  split.
  - apply (f_equal length) in E. rewrite length_drop in E.
    rewrite length_app, length_insert. cbn [length] in *. lia.
  - cbn [list_insert]. unfold string_in.
    apply c_str_bytes_app_nul. assumption.
Qed.

Lemma slot_write_frame (mem row : list ascii) (off i : nat) :
  length row = 50%nat ->
  (off + 50 <= length mem)%nat ->
  (i < off \/ off + 50 <= i)%nat ->
  (take off mem ++ row ++ drop (off + 50) mem) !! i = mem !! i.
Proof.
  intros Hrow Hoff Hi.
  assert (Hlt : length (take off mem) = off) by (rewrite length_take; lia).
  destruct Hi as [Hi|Hi].
  - rewrite lookup_app_l by lia. apply lookup_take_lt. lia.
  - rewrite lookup_app_r by lia. rewrite lookup_app_r by lia.
    rewrite lookup_drop. f_equal. lia.
Qed.

Lemma circ_buf_write_done m str :
  length (shm_buf m) = Z.to_nat (BUF_LEN * MAX_LINE) ->
  0 <= write_pos m < BUF_LEN ->
  circ_buf_write m str
  = Done (Myshm (state m) ((write_pos m + 1) mod BUF_LEN)
            (take (Z.to_nat (write_pos m * MAX_LINE)) (shm_buf m)
             ++ strncpy_bytes str (Z.to_nat MAX_LINE)
             ++ drop (Z.to_nat (write_pos m * MAX_LINE) + 50) (shm_buf m))).
Proof.
  intros Hmem Hpos. unfold circ_buf_write, slot_offset.
  replace ((0 <=? write_pos m) && (write_pos m <? BUF_LEN)) with true
    by (symmetry; apply andb_true_iff; split; lia).
  rewrite store_bytes_at;
    rewrite strncpy_bytes_length;
    [|rewrite Hmem; unfold BUF_LEN, MAX_LINE in *; lia].
  cbn [rbind]. change (Z.to_nat MAX_LINE) with 50%nat.
  rewrite Z.rem_mod_nonneg by (unfold BUF_LEN; lia). reflexivity.
Qed.

(** X8. With the write cursor at a slot of the buffer, [circ_buf_write]
    succeeds, leaves the flag alone, moves the cursor to the next slot
    modulo [BUF_LEN], and changes no byte outside the slot it writes;
    and a [circ_buf_read] of that slot then returns the string that was
    written, cut at [MAX_LINE - 1] characters (and so the very string
    when it is shorter than [MAX_LINE]). *)
Theorem X8_write_then_read_back
    (m : myshm) (str buf : list ascii) :
  length (shm_buf m) = Z.to_nat (BUF_LEN * MAX_LINE) ->
  0 <= write_pos m < BUF_LEN ->
  length buf = Z.to_nat MAX_LINE ->
  exists m' buf',
    circ_buf_write m str = Done m'
    /\ state m' = state m
    /\ write_pos m' = (write_pos m + 1) mod BUF_LEN
    /\ length (shm_buf m') = length (shm_buf m)
    /\ (forall i : nat,
          (Z.of_nat i < write_pos m * MAX_LINE
           \/ (write_pos m + 1) * MAX_LINE <= Z.of_nat i) ->
          shm_buf m' !! i = shm_buf m !! i)
    /\ circ_buf_read m' buf (write_pos m)
       = Done (buf', (write_pos m + 1) mod BUF_LEN)
    /\ string_in buf' = take (Z.to_nat (MAX_LINE - 1)) (string_in str).
Proof.
  intros Hmem Hpos Hbuf.
  pose proof (circ_buf_write_done m str Hmem Hpos) as Hw.
  set (off := Z.to_nat (write_pos m * MAX_LINE)) in *.
  set (row := strncpy_bytes str (Z.to_nat MAX_LINE)) in *.
  assert (Hrow : length row = 50%nat) by apply strncpy_bytes_length.
  assert (Hoff : (off + 50 <= length (shm_buf m))%nat).
  { rewrite Hmem. unfold off, BUF_LEN, MAX_LINE in *. lia. }
  set (mem' := take off (shm_buf m) ++ row ++ drop (off + 50) (shm_buf m))
    in *.
  destruct (circ_buf_read_string
              (Myshm (state m) ((write_pos m + 1) mod BUF_LEN) mem')
              buf (write_pos m) Hbuf Hpos) as (buf' & Hr & _ & Hs).
  exists (Myshm (state m) ((write_pos m + 1) mod BUF_LEN) mem'), buf'.
  cbn [state write_pos shm_buf] in *.
  assert (Hlt : length (take off (shm_buf m)) = off)
    by (rewrite length_take; lia).
  repeat split; try assumption.
  - unfold mem'. rewrite !length_app, Hlt, Hrow, length_drop. lia.
  - intros i Hi. apply slot_write_frame; [assumption | assumption |].
    unfold off, MAX_LINE in *. lia.
  - rewrite Hs. fold off. unfold mem'.
    rewrite (drop_app_length' _ _ off (eq_sym Hlt)).
    apply (strncpy_then_read str 49).
Qed.

Lemma X8_write_then_read_back_witness :
  exists m' buf',
    circ_buf_write (Myshm 0 63 (replicate 3200 "a"%char))
      (list_ascii_of_string "0-1 1-2") = Done m'
    /\ state m' = 0
    /\ write_pos m' = (63 + 1) mod BUF_LEN
    /\ length (shm_buf m') = length (replicate 3200 "a"%char)
    /\ (forall i : nat,
          (Z.of_nat i < 63 * MAX_LINE \/ (63 + 1) * MAX_LINE <= Z.of_nat i) ->
          shm_buf m' !! i = replicate 3200 "a"%char !! i)
    /\ circ_buf_read m' (replicate 50 "b"%char) 63
       = Done (buf', (63 + 1) mod BUF_LEN)
    /\ string_in buf'
       = take (Z.to_nat (MAX_LINE - 1))
           (string_in (list_ascii_of_string "0-1 1-2")).
Proof.
  apply (X8_write_then_read_back (Myshm 0 63 (replicate 3200 "a"%char))
           (list_ascii_of_string "0-1 1-2") (replicate 50 "b"%char)).
  - reflexivity.
  - simpl. unfold BUF_LEN. lia.
  - reflexivity.
Defined.

(** ** The circular buffer as a queue *)

Lemma take_c_str_bytes n : forall l,
  take n (c_str_bytes l) = c_str_bytes (take n l).
Proof.
  induction n as [|n IH]; intros [|c l]; simpl; try reflexivity.
  destruct (is_nul c); simpl; [reflexivity | f_equal; apply IH].
Qed.

Lemma slot_string_write_same mem rest (wp : Z) str :
  length mem = Z.to_nat (wp * MAX_LINE) ->
  slot_string (mem ++ strncpy_bytes str (Z.to_nat MAX_LINE) ++ rest) wp
  = cut_record (string_in str).
Proof.
  intros Hlen. unfold slot_string, cut_record.
  rewrite (drop_app_length' _ _ _ (eq_sym Hlen)).
  apply (strncpy_then_read str 49).
Qed.

Lemma slot_string_write_other mem row (wp p : Z) :
  length row = 50%nat ->
  length mem = Z.to_nat (BUF_LEN * MAX_LINE) ->
  0 <= wp < BUF_LEN -> 0 <= p < BUF_LEN -> p <> wp ->
  slot_string (take (Z.to_nat (wp * MAX_LINE)) mem ++ row
               ++ drop (Z.to_nat (wp * MAX_LINE) + 50) mem) p
  = slot_string mem p.
Proof.
  intros Hrow Hmem Hwp Hp Hne. unfold slot_string.
  rewrite !take_c_str_bytes. f_equal.
  apply list_eq. intros i.
  destruct (le_lt_dec (Z.to_nat (MAX_LINE - 1)) i) as [Hi|Hi].
  - rewrite !lookup_take_ge by assumption. reflexivity.
  - rewrite !lookup_take_lt by assumption. rewrite !lookup_drop.
    apply slot_write_frame; [assumption | |];
      unfold BUF_LEN, MAX_LINE in *; lia.
Qed.

Lemma circ_buf_read_inv m buf rp buf' rp' :
  circ_buf_read m buf rp = Done (buf', rp') ->
  length buf' = length buf
  /\ string_in buf' = slot_string (shm_buf m) rp
  /\ 0 <= rp < BUF_LEN
  /\ rp' = (rp + 1) mod BUF_LEN.
Proof.
  intros H. pose proof (circ_buf_read_pos _ _ _ _ _ H) as [Hrp ->].
  rewrite Z.rem_mod_nonneg by (unfold BUF_LEN; lia).
  unfold circ_buf_read, slot_offset in H.
  replace ((0 <=? rp) && (rp <? BUF_LEN)) with true in H
    by (symmetry; apply andb_true_iff; split; lia).
  unfold slot_string. change (Z.to_nat MAX_LINE) with 50%nat in H.
  change (Z.to_nat (MAX_LINE - 1)) with 49%nat. cbn [snprintf_s] in H.
  set (cs := take 49 (c_str_bytes (drop (Z.to_nat (rp * MAX_LINE))
                                     (shm_buf m)))) in *.
  assert (Hnn : Forall (fun c => is_nul c = false) cs)
    by (apply Forall_take, c_str_bytes_no_nul).
  destruct (store_bytes buf 0 cs) as [b1|] eqn:E1; [|discriminate].
  cbn [rbind] in H.
  destruct (store b1 (length cs) NUL) as [b2|] eqn:E2; [|discriminate].
  cbn [rbind] in H. injection H as <-.
  apply store_bytes_inv in E1 as (Hl1 & -> & _).
  apply store_inv in E2 as (Hlt & ->).
  rewrite take_0 in *. cbn [app Nat.add] in *.
  repeat split; try lia.
  - rewrite length_insert. assumption.
  - rewrite insert_app_r_alt, Nat.sub_diag by lia.
    rewrite length_app in Hlt.
    destruct (drop (length cs) buf) as [|x r]; [simpl in Hlt; lia|].
    cbn [list_insert]. unfold string_in.
    apply c_str_bytes_app_nul. assumption.
Qed.

Lemma step_write_inv m w w' p pos :
  step m w = Some (w', (p, Write pos)) ->
  exists i g m',
    p = Gen i /\ w_gens w !! i = Some g /\ g_pc g = GWrite
    /\ pos = write_pos (w_shm w)
    /\ circ_buf_write (w_shm w) (g_buf g) = Done m'
    /\ w_shm w' = m' /\ w_sup w' = w_sup w.
Proof.
  intros H. destruct m as [|eintr|i out]; cbn [step] in H.
  - unfold step_signal in H. step_split H; discriminate H.
  - unfold step_sup in H. step_split H; discriminate H.
  - unfold step_gen in H.
    destruct (w_gens w !! i) as [g|] eqn:Eg; [|discriminate].
    destruct (g_pc g) eqn:Epc; step_split H; try discriminate H.
    inversion H; subst. eexists i, g, _. cbn. eauto 10.
Qed.

Lemma step_read_inv m w w' p pos :
  step m w = Some (w', (p, Read pos)) ->
  exists buf rp',
    p = Sup /\ s_pc (w_sup w) = SRead /\ pos = s_read_pos (w_sup w)
    /\ circ_buf_read (w_shm w) (s_edges (w_sup w)) pos = Done (buf, rp')
    /\ s_edges (w_sup w') = buf /\ s_read_pos (w_sup w') = rp'
    /\ s_pc (w_sup w') = SPostFree
    /\ w_shm w' = w_shm w.
Proof.
  intros H. destruct m as [|eintr|i out]; cbn [step] in H.
  - unfold step_signal in H. step_split H; discriminate H.
  - unfold step_sup in H.
    destruct (s_pc (w_sup w)) eqn:Epc; step_split H; try discriminate H.
    inversion H; subst. eexists _, _. cbn. eauto 10.
  - unfold step_gen in H. step_split H; discriminate H.
Qed.

(** A step that neither writes nor reads a slot leaves the buffer and
    both cursors alone. *)
Lemma step_quiet m w w' p a :
  step m w = Some (w', (p, a)) ->
  (forall pos, a <> Write pos) -> (forall pos, a <> Read pos) ->
  shm_buf (w_shm w') = shm_buf (w_shm w)
  /\ write_pos (w_shm w') = write_pos (w_shm w)
  /\ s_read_pos (w_sup w') = s_read_pos (w_sup w)
  /\ s_edges (w_sup w') = s_edges (w_sup w)
     \/ (shm_buf (w_shm w') = shm_buf (w_shm w)
         /\ write_pos (w_shm w') = write_pos (w_shm w)
         /\ s_read_pos (w_sup w') = s_read_pos (w_sup w)
         /\ s_edges (w_sup w')
            = memset (s_edges (w_sup w)) NUL (Z.to_nat MAX_LINE)).
Proof.
  intros H Hw Hr. destruct m as [|eintr|i out]; cbn [step] in H.
  - unfold step_signal in H. step_split H; inversion H; cbn; auto.
  - unfold step_sup in H.
    step_split H; inversion H; subst; cbn; auto 10;
      exfalso; eapply Hr; reflexivity.
  - unfold step_gen in H.
    step_split H; inversion H; subst; cbn; auto 10;
      exfalso; eapply Hw; reflexivity.
Qed.

Lemma step_before_exit m w w' e :
  step m w = Some (w', e) ->
  s_pc (w_sup w') <> SExit -> s_pc (w_sup w) <> SExit.
Proof.
  intros H Hne Hpc. destruct m as [|eintr|i out].
  - cbn [step] in H. unfold step_signal in H. rewrite Hpc in H.
    discriminate H.
  - cbn [step] in H. unfold step_sup in H. rewrite Hpc in H.
    destruct eintr; discriminate H.
  - apply step_gen_private in H. rewrite H in Hne. contradiction.
Qed.

Lemma step_rc m w w' e :
  step m w = Some (w', e) -> m <> MSup true ->
  s_wait_rc (w_sup w) = 0 -> s_wait_rc (w_sup w') = 0.
Proof.
  intros H Hm Hrc. destruct m as [|eintr|i out].
  - cbn [step] in H. unfold step_signal in H.
    step_split H; inversion H; assumption.
  - destruct eintr; [contradiction|]. cbn [step] in H. unfold step_sup in H.
    step_split H; inversion H; subst; cbn; solve [assumption | reflexivity].
  - apply step_gen_private in H. rewrite H. assumption.
Qed.

Lemma memset_length {A} (arr : list A) c n :
  length (memset arr c n) = length arr.
Proof.
  unfold memset. rewrite length_app, length_replicate, length_drop. lia.
Qed.

Lemma step_shm_ok m w w' e : shm_ok w -> step m w = Some (w', e) -> shm_ok w'.
Proof.
  intros [Hmem Hwp Hed] H. destruct e as [p a].
  destruct a;
    try (destruct (step_quiet _ _ _ _ _ H) as [(E1 & E2 & _ & E4)|(E1 & E2 & _ & E4)];
         [discriminate | discriminate
         | split; rewrite ?E1, ?E2, ?E4; assumption
         | split; rewrite ?E1, ?E2, ?E4, ?memset_length; assumption]).
  - destruct (step_write_inv _ _ _ _ _ H)
      as (i & g & m' & _ & _ & _ & _ & Hw & <- & Hs).
    rewrite (circ_buf_write_done _ _ Hmem Hwp) in Hw. injection Hw as Hw.
    split; rewrite <- ?Hw; cbn [shm_buf write_pos]; rewrite ?Hs;
      try assumption.
    + rewrite !length_app, length_take, strncpy_bytes_length, length_drop.
      rewrite Hmem. unfold BUF_LEN, MAX_LINE in *. lia.
    + apply Z.mod_pos_bound. unfold BUF_LEN. lia.
  - destruct (step_read_inv _ _ _ _ _ H)
      as (buf & rp' & _ & _ & _ & Hr & E1 & _ & _ & E2).
    apply circ_buf_read_inv in Hr as (Hl & _).
    split; rewrite ?E2, ?E1, ?Hl; assumption.
Qed.

Lemma shm_ok_initial n : shm_ok (initial n).
Proof.
  split; cbn [initial w_shm w_sup shm_buf write_pos s_edges];
    rewrite ?length_replicate; unfold BUF_LEN; (reflexivity || lia).
Qed.

Lemma record_delta m w w' e :
  step m w = Some (w', e) ->
  Z.of_nat (length (record_written w e))
  - Z.of_nat (length (record_read w' e)) = delta e.
Proof.
  intros H. destruct e as [p a]. destruct a;
    try (destruct p; reflexivity).
  - destruct (step_write_inv _ _ _ _ _ H) as (i & g & _ & -> & Hg & _).
    cbn. rewrite Hg. reflexivity.
  - destruct (step_read_inv _ _ _ _ _ H) as (_ & _ & -> & _).
    reflexivity.
Qed.

Lemma balance_nonneg w :
  inv w -> s_wait_rc (w_sup w) = 0 -> 0 <= balance w.
Proof.
  intros [_ _ Hu _ _ _ _] Hrc. unfold balance, stray_reads, sup_unread.
  rewrite Hrc. cbn [Z.eqb andb].
  pose proof (count_gens_nonneg unposted (w_gens w)).
  destruct (s_pc (w_sup w)); lia.
Qed.

Lemma balance_at_read w :
  inv w -> s_wait_rc (w_sup w) = 0 -> s_pc (w_sup w) = SRead ->
  1 <= balance w.
Proof.
  intros [_ _ Hu _ _ _ _] Hrc Hpc. unfold balance, stray_reads, sup_unread.
  rewrite Hrc, Hpc. cbn [Z.eqb andb].
  pose proof (count_gens_nonneg unposted (w_gens w)). lia.
Qed.

(** A generator about to write finds at most [BUF_LEN - 1] records
    unread: the slot at the write cursor is free. *)
Lemma balance_before_write w i g :
  inv w -> s_wait_rc (w_sup w) = 0 -> s_pc (w_sup w) <> SExit ->
  w_gens w !! i = Some g -> g_pc g = GWrite ->
  balance w <= BUF_LEN - 1.
Proof.
  intros [_ Hs _ Hf _ _ _] Hrc Hpc Hg Hw.
  unfold in_flight in Hs. rewrite count_gens_split in Hs.
  assert (Hone : 1 <= count_gens unwritten (w_gens w))
    by (apply (count_gens_pos _ _ i g Hg); rewrite Hw; reflexivity).
  unfold balance, stray_reads, sup_unread.
  unfold extra_releases, sup_holds in Hs. rewrite Hrc in *.
  cbn [Z.eqb andb] in *.
  destruct (s_pc (w_sup w)); try contradiction; lia.
Qed.

Lemma mod_apart a b : 0 < a - b < BUF_LEN -> b mod BUF_LEN <> a mod BUF_LEN.
Proof. unfold BUF_LEN. intros H E. Z.div_mod_to_equations. lia. Qed.

Lemma delta_quiet p a :
  (forall pos, a <> Write pos) -> (forall pos, a <> Read pos) ->
  delta (p, a) = 0.
Proof.
  intros Hw Hr. destruct a; try reflexivity.
  - exfalso. eapply Hw. reflexivity.
  - exfalso. eapply Hr. reflexivity.
Qed.

Lemma records_quiet w w' p a :
  (forall pos, a <> Write pos) -> (forall pos, a <> Read pos) ->
  record_written w (p, a) = [] /\ record_read w' (p, a) = [].
Proof.
  intros Hw Hr. destruct a; try (destruct p; split; reflexivity).
  - exfalso. eapply Hw. reflexivity.
  - exfalso. eapply Hr. reflexivity.
Qed.

Lemma step_fifo_quiet m w w' p a Wl Rl :
  inv w -> fifo w Wl Rl -> step m w = Some (w', (p, a)) -> m <> MSup true ->
  (forall pos, a <> Write pos) -> (forall pos, a <> Read pos) ->
  fifo w' Wl Rl.
Proof.
  intros Hinv [Hrc Hwp Hrp Hbal Hpre Hsl] H Hm Hw Hr.
  pose proof (step_balance _ _ _ _ Hinv H) as Hb.
  rewrite (delta_quiet p a Hw Hr) in Hb.
  assert (E : shm_buf (w_shm w') = shm_buf (w_shm w)
              /\ write_pos (w_shm w') = write_pos (w_shm w)
              /\ s_read_pos (w_sup w') = s_read_pos (w_sup w))
    by (destruct (step_quiet _ _ _ _ _ H Hw Hr) as [E|E]; tauto).
  destruct E as (E1 & E2 & E3).
  split; rewrite ?E1, ?E2, ?E3; try assumption.
  - apply (step_rc _ _ _ _ H Hm Hrc).
  - lia.
  - intros Hne. apply Hsl. apply (step_before_exit _ _ _ _ H Hne).
Qed.

Lemma step_fifo_write m w w' p pos Wl Rl :
  inv w -> shm_ok w -> fifo w Wl Rl ->
  step m w = Some (w', (p, Write pos)) -> m <> MSup true ->
  fifo w' (Wl ++ map cut_record (record_written w (p, Write pos))) Rl.
Proof.
  intros Hinv [Hmem Hpos _] [Hrc Hwp Hrp Hbal Hpre Hsl] H Hm.
  pose proof (step_balance _ _ _ _ Hinv H) as Hb.
  pose proof (step_rc _ _ _ _ H Hm Hrc) as Hrc'.
  destruct (step_write_inv _ _ _ _ _ H)
    as (i & g & m' & -> & Hg & Hpc & _ & Hw & Hshm & Hsup).
  rewrite (circ_buf_write_done _ _ Hmem Hpos) in Hw. injection Hw as Hw.
  cbn [record_written]. rewrite Hg. cbn [map].
  assert (Hle : (length Rl <= length Wl)%nat).
  { apply (f_equal length) in Hpre. rewrite length_take in Hpre. lia. }
  split; rewrite ?Hshm, <- ?Hw, ?Hsup, ?length_app; cbn [write_pos shm_buf length];
    try assumption.
  - rewrite Hwp, Nat2Z.inj_add. apply Z.add_mod_idemp_l. discriminate.
  - rewrite Hb. unfold delta. cbn [snd]. lia.
  - rewrite take_app_le by assumption. assumption.
  - intros Hne k Hk.
    destruct (decide (k = length Wl)) as [->|Hk'].
    + rewrite lookup_app_r, Nat.sub_diag by lia. cbn [lookup list_lookup].
      f_equal. symmetry. rewrite Hwp. apply slot_string_write_same.
      rewrite length_take. rewrite Hmem. unfold BUF_LEN, MAX_LINE in *.
      rewrite <- Hwp. lia.
    + rewrite lookup_app_l by lia. rewrite (Hsl Hne k) by lia. f_equal.
      symmetry. apply slot_string_write_other; try assumption.
      * apply strncpy_bytes_length.
      * apply Z.mod_pos_bound. unfold BUF_LEN. lia.
      * rewrite Hwp. apply mod_apart.
        pose proof (balance_before_write w i g Hinv Hrc Hne Hg Hpc).
        unfold BUF_LEN in *. lia.
Qed.

Lemma step_fifo_read m w w' p pos Wl Rl :
  inv w -> fifo w Wl Rl ->
  step m w = Some (w', (p, Read pos)) -> m <> MSup true ->
  fifo w' Wl (Rl ++ record_read w' (p, Read pos)).
Proof.
  intros Hinv [Hrc Hwp Hrp Hbal Hpre Hsl] H Hm.
  pose proof (step_balance _ _ _ _ Hinv H) as Hb.
  pose proof (step_rc _ _ _ _ H Hm Hrc) as Hrc'.
  destruct (step_read_inv _ _ _ _ _ H)
    as (buf & rp' & -> & Hpc & -> & Hr & Hed & Hrp' & Hpc' & Hshm).
  apply circ_buf_read_inv in Hr as (_ & Hstr & _ & ->).
  cbn [record_read]. rewrite Hed, Hstr.
  pose proof (balance_at_read w Hinv Hrc Hpc) as Hone.
  assert (Hnow : Wl !! length Rl
                 = Some (slot_string (shm_buf (w_shm w))
                           (s_read_pos (w_sup w)))).
  { rewrite Hrp. apply Hsl; [rewrite Hpc; discriminate | lia]. }
  split; rewrite ?Hshm, ?Hrp', ?length_app; cbn [length]; try assumption.
  - rewrite Hrp, Nat2Z.inj_add. apply Z.add_mod_idemp_l. discriminate.
  - rewrite Hb. unfold delta. cbn [snd]. lia.
  - rewrite Nat.add_1_r. rewrite (take_S_r _ _ _ Hnow). f_equal. assumption.
  - intros _ k Hk. apply Hsl; [rewrite Hpc; discriminate | lia].
Qed.

Lemma step_fifo m w w' e Wl Rl :
  inv w -> shm_ok w -> fifo w Wl Rl ->
  step m w = Some (w', e) -> m <> MSup true ->
  fifo w' (Wl ++ map cut_record (record_written w e))
    (Rl ++ record_read w' e).
Proof.
  intros Hinv Hok Hf H Hm. destruct e as [p a].
  destruct a as [| |s|s|s|v|pos|pos|v];
    try (match goal with
         | |- context [record_written w (p, ?a)] =>
             destruct (records_quiet w w' p a) as [-> ->]
         end;
         [discriminate | discriminate
         | cbn [map]; rewrite !app_nil_r;
           apply (step_fifo_quiet _ _ _ _ _ _ _ Hinv Hf H Hm);
           discriminate]).
  - replace (record_read w' (p, Write pos)) with (@nil (list ascii))
      by (destruct p; reflexivity).
    rewrite app_nil_r. apply (step_fifo_write _ _ _ _ _ _ _ Hinv Hok Hf H Hm).
  - replace (record_written w (p, Read pos)) with (@nil (list ascii))
      by (destruct p; reflexivity).
    cbn [map]. rewrite app_nil_r.
    apply (step_fifo_read _ _ _ _ _ _ _ Hinv Hf H Hm).
Qed.

Lemma fifo_initial n : fifo (initial n) [] [].
Proof.
  split; try reflexivity.
  - unfold balance, initial. cbn [sem_used w_gens w_sup].
    rewrite count_gens_replicate by reflexivity. reflexivity.
  - intros _ k Hk. cbn [length] in Hk. lia.
Qed.

Lemma run_fifo ms : forall w w' tr Wl Rl,
  inv w -> shm_ok w -> fifo w Wl Rl -> uninterrupted ms ->
  run ms w = Some (w', tr) ->
  fifo w' (Wl ++ map cut_record (published ms w)) (Rl ++ consumed ms w).
Proof.
  induction ms as [|m ms IH]; intros w w' tr Wl Rl Hinv Hok Hf Hu H;
    simpl in H.
  - injection H as <- <-. cbn [published consumed map].
    rewrite !app_nil_r. assumption.
  - destruct (step m w) as [[w1 e]|] eqn:Es; [|discriminate].
    destruct (run ms w1) as [[w2 tr']|] eqn:Er; [|discriminate].
    injection H as <- <-. apply Forall_cons in Hu as [Hm Hu].
    cbn [published consumed]. rewrite Es.
    rewrite map_app, !app_assoc.
    apply (IH w1 w2 tr'); try assumption.
    + apply (step_inv _ _ _ _ Hinv Es).
    + apply (step_shm_ok _ _ _ _ Hok Es).
    + apply (step_fifo m w); assumption.
Qed.

(** X9. The circular buffer is a queue. In a run of the supervisor and
    its generators in which no [sem_wait] of the supervisor is
    interrupted, the records the supervisor reads are, in order and
    without loss or repetition, the records the generators wrote (each
    cut at [MAX_LINE - 1] characters); the two cursors are the numbers
    of records written and read, modulo [BUF_LEN]; and never more than
    [BUF_LEN] records written are unread as long as the supervisor has
    not exited. *)
Theorem X9_records_read_in_order_written
    (n : nat) (ms : list move) (w : world) (tr : list event) :
  uninterrupted ms ->
  run ms (initial n) = Some (w, tr) ->
  let written := published ms (initial n) in
  let read := consumed ms (initial n) in
  read = take (length read) (map cut_record written)
  /\ (length read <= length written)%nat
  /\ write_pos (w_shm w) = Z.of_nat (length written) mod BUF_LEN
  /\ s_read_pos (w_sup w) = Z.of_nat (length read) mod BUF_LEN
  /\ (s_pc (w_sup w) <> SExit ->
      Z.of_nat (length written) - Z.of_nat (length read) <= BUF_LEN).
Proof.
  intros Hu H written read.
  pose proof (run_fifo ms (initial n) w tr [] [] (inv_initial n)
                (shm_ok_initial n) (fifo_initial n) Hu H) as Hf.
  cbn [app] in Hf. fold written read in Hf.
  destruct Hf as [Hrc Hwp Hrp Hbal Hpre Hsl].
  rewrite length_map in *.
  assert (Hle : (length read <= length written)%nat).
  { apply (f_equal length) in Hpre.
    rewrite length_take, length_map in Hpre. lia. }
  repeat split; try assumption.
  intros Hne. rewrite Hbal.
  destruct (run_inv ms (initial n) w tr (inv_initial n) H)
    as [[_ Hs _ Hfree _ _ _] _].
  unfold in_flight in Hs. rewrite count_gens_split in Hs.
  pose proof (count_gens_nonneg unwritten (w_gens w)).
  unfold balance, stray_reads, sup_unread.
  unfold extra_releases, sup_holds in Hs. rewrite Hrc in *.
  cbn [Z.eqb andb] in *.
  destruct (s_pc (w_sup w)); try contradiction; lia.
Qed.

Lemma X9_records_read_in_order_written_witness :
  consumed queue_schedule (initial 2)
  = take (length (consumed queue_schedule (initial 2)))
      (map cut_record (published queue_schedule (initial 2)))
  /\ (length (consumed queue_schedule (initial 2))
      <= length (published queue_schedule (initial 2)))%nat
  /\ write_pos (w_shm (fst queue_state))
     = Z.of_nat (length (published queue_schedule (initial 2))) mod BUF_LEN
  /\ s_read_pos (w_sup (fst queue_state))
     = Z.of_nat (length (consumed queue_schedule (initial 2))) mod BUF_LEN
  /\ (s_pc (w_sup (fst queue_state)) <> SExit ->
      Z.of_nat (length (published queue_schedule (initial 2)))
      - Z.of_nat (length (consumed queue_schedule (initial 2))) <= BUF_LEN).
Proof.
  apply (X9_records_read_in_order_written 2 queue_schedule
           (fst queue_state) (snd queue_state)).
  - unfold uninterrupted, queue_schedule. cbn [replicate app].
    repeat (constructor; [discriminate|]). constructor.
  - vm_compute. reflexivity.
Defined.

(** ** Only a semaphore blocks a process *)

Lemma run_shm_ok ms : forall w w' tr,
  shm_ok w -> run ms w = Some (w', tr) -> shm_ok w'.
Proof.
  induction ms as [|m ms IH]; intros w w' tr Hok H; simpl in H.
  - injection H as <- <-. assumption.
  - destruct (step m w) as [[w1 e]|] eqn:Es; [|discriminate].
    destruct (run ms w1) as [[w2 tr']|] eqn:Er; [|discriminate].
    injection H as <- <-.
    apply (IH w1 w2 tr'); [|assumption]. apply (step_shm_ok _ _ _ _ Hok Es).
Qed.




(** ** The termination flag and the shutdown *)

Lemma circ_buf_write_state m str m' :
  circ_buf_write m str = Done m' -> state m' = state m.
Proof.
  unfold circ_buf_write. destruct (slot_offset (write_pos m)); [|discriminate].
  destruct (store_bytes _ _ _); cbn [rbind]; [|discriminate].
  intros [= <-]. reflexivity.
Qed.

Lemma count_gens_le f h gs :
  (forall pc, f pc = true -> h pc = true) ->
  count_gens f gs <= count_gens h gs.
Proof.
  intros Hfh. induction gs as [|g gs IH]; simpl; [lia|].
  specialize (Hfh (g_pc g)).
  destruct (f (g_pc g)), (h (g_pc g)); try lia.
Qed.

Lemma count_gens_exists f gs :
  1 <= count_gens f gs ->
  exists j g, gs !! j = Some g /\ f (g_pc g) = true.
Proof.
  induction gs as [|x gs IH]; simpl; [intros H; lia|].
  destruct (f (g_pc x)) eqn:E; intros H.
  - exists 0%nat, x. auto.
  - destruct IH as (j & g & Hg & Hf); [lia|]. exists (S j), g. auto.
Qed.

Lemma one_waits_for_a_slot w :
  inv w -> count_gens at_wait_free (w_gens w) <= sem_free w + 1.
Proof.
  intros [Hm _ _ Hf Hl _ _].
  pose proof (count_gens_le at_wait_free in_cs (w_gens w)) as Hle.
  assert (count_gens at_wait_free (w_gens w) <= count_gens in_cs (w_gens w))
    by (apply Hle; intros []; (discriminate || reflexivity)).
  lia.
Qed.

Lemma step_flag_inv m w w' e :
  inv w -> flag_inv w -> step m w = Some (w', e) -> flag_inv w'.
Proof.
  intros Hinv [Hv Hlv Hst Hfr] H.
  destruct m as [|eintr|i out]; cbn [step] in H.
  - unfold step_signal in H.
    destruct (s_pc (w_sup w)) eqn:Epc; try discriminate H;
      inversion H; subst; split; cbn; rewrite ?Epc; auto.
  - unfold step_sup in H.
    destruct (s_pc (w_sup w)) eqn:Epc; step_split H; try discriminate H;
      inversion H; subst; split; cbn; rewrite ?Epc in *; auto;
      try discriminate;
      try (apply Forall_true; reflexivity).
    intros _. apply (one_waits_for_a_slot w Hinv).
  - unfold step_gen in H.
    destruct (w_gens w !! i) as [g|] eqn:Eg; [|discriminate].
    pose proof (Forall_lookup_1 _ _ _ _ Hst Eg) as Hg.
    unfold stopping in Hg.
    assert (Hflag : forall b, (state (w_shm w) =? 0) = b ->
                    b = false -> state (w_shm w) = 1).
    { intros b E ->. apply Z.eqb_neq in E. tauto. }
    assert (Hquit : (g_quit g =? 0) = false -> state (w_shm w) = 1).
    { intros E. apply Z.eqb_neq in E. auto. }
    destruct (g_pc g) eqn:Epc; step_split H; try discriminate H;
      try match goal with
          | E : circ_buf_write _ _ = Done ?a |- _ =>
              pose proof (circ_buf_write_state _ _ _ E) as Hsa
          end;
      inversion H; subst; split; cbn; rewrite ?Hsa; auto;
      try (apply Forall_insert; [assumption|]; unfold stopping; cbn;
           intros [?|?]; try discriminate; eauto);
      intros Hex; pose proof (Hfr Hex) as Hle;
      rewrite Hex in Hlv; specialize (Hlv eq_refl);
      rewrite (count_gens_insert _ _ _ _ _ Eg), Epc; cbn; lia.
Qed.

Lemma flag_inv_initial n : flag_inv (initial n).
Proof.
  split; cbn; auto; try discriminate.
  apply Forall_replicate. unfold stopping. cbn. intros [?|?]; [lia | discriminate].
Qed.

Lemma run_flag_inv ms : forall w w' tr,
  inv w -> flag_inv w -> run ms w = Some (w', tr) -> flag_inv w'.
Proof.
  induction ms as [|m ms IH]; intros w w' tr Hinv Hfl H; simpl in H.
  - injection H as <- <-. assumption.
  - destruct (step m w) as [[w1 e]|] eqn:Es; [|discriminate].
    destruct (run ms w1) as [[w2 tr']|] eqn:Er; [|discriminate].
    injection H as <- <-.
    apply (IH w1 w2 tr'); [| |assumption].
    + apply (step_inv _ _ _ _ Hinv Es).
    + apply (step_flag_inv _ _ _ _ Hinv Hfl Es).
Qed.

Lemma step_state m w w' e :
  step m w = Some (w', e) ->
  state (w_shm w') = if is_set_state e then 1 else state (w_shm w).
Proof.
  intros H. destruct m as [|eintr|i out]; cbn [step] in H.
  - unfold step_signal in H. step_split H; inversion H; reflexivity.
  - unfold step_sup in H. step_split H; inversion H; reflexivity.
  - unfold step_gen in H.
    step_split H;
      try match goal with
          | E : circ_buf_write _ _ = Done ?a |- _ =>
              pose proof (circ_buf_write_state _ _ _ E) as Hsa
          end;
      inversion H; subst; cbn; auto.
Qed.

Lemma run_state ms : forall w w' tr,
  run ms w = Some (w', tr) ->
  state (w_shm w') = if existsb is_set_state tr then 1 else state (w_shm w).
Proof.
  induction ms as [|m ms IH]; intros w w' tr H; simpl in H.
  - injection H as <- <-. reflexivity.
  - destruct (step m w) as [[w1 e]|] eqn:Es; [|discriminate].
    destruct (run ms w1) as [[w2 tr']|] eqn:Er; [|discriminate].
    injection H as <- <-. rewrite (IH _ _ _ Er), (step_state _ _ _ _ Es).
    cbn [existsb]. destruct (is_set_state e), (existsb is_set_state tr');
      reflexivity.
Qed.

(** X11. The termination flag in a run of the supervisor and its
    generators: it is 0 until the supervisor assigns it and 1 from then
    on; the supervisor has assigned it before its last [sem_post] and
    its exit; and no generator sets its [quit] or exits before the flag
    is 1. *)
Theorem X11_flag_raised_before_anyone_leaves
    (n : nat) (ms : list move) (w : world) (tr : list event) :
  run ms (initial n) = Some (w, tr) ->
  state (w_shm w) = (if existsb is_set_state tr then 1 else 0)
  /\ (sup_leaving (s_pc (w_sup w)) = true -> state (w_shm w) = 1)
  /\ (forall i g, w_gens w !! i = Some g ->
        g_quit g <> 0 \/ g_pc g = GExit -> state (w_shm w) = 1).
Proof.
  intros H.
  pose proof (run_flag_inv ms _ _ _ (inv_initial n) (flag_inv_initial n) H)
    as [_ Hlv Hst _].
  split; [|split].
  - apply (run_state ms _ _ _ H).
  - assumption.
  - intros i g Hg Hq. apply (Forall_lookup_1 _ _ _ _ Hst Hg). assumption.
Qed.

Lemma X11_flag_raised_before_anyone_leaves_witness :
  state (w_shm (fst stop_state))
  = (if existsb is_set_state (snd stop_state) then 1 else 0)
  /\ (sup_leaving (s_pc (w_sup (fst stop_state))) = true ->
      state (w_shm (fst stop_state)) = 1)
  /\ (forall i g, w_gens (fst stop_state) !! i = Some g ->
        g_quit g <> 0 \/ g_pc g = GExit -> state (w_shm (fst stop_state)) = 1).
Proof.
  apply (X11_flag_raised_before_anyone_leaves 1 stop_schedule
           (fst stop_state) (snd stop_state)).
  vm_compute. reflexivity.
Defined.

Lemma step_after_flag m w w' e :
  state (w_shm w) <> 0 -> step m w = Some (w', e) ->
  state (w_shm w') <> 0
  /\ count_gens about_to_write (w_gens w') + count_writes [e]
     = count_gens about_to_write (w_gens w).
Proof.
  intros Hs H. split.
  - rewrite (step_state _ _ _ _ H). destruct (is_set_state e); [lia | assumption].
  - destruct m as [|eintr|i out]; cbn [step] in H.
    + unfold step_signal in H. step_split H; inversion H; cbn; lia.
    + unfold step_sup in H. step_split H; inversion H; cbn; lia.
    + unfold step_gen in H.
      destruct (w_gens w !! i) as [g|] eqn:Eg; [|discriminate].
      destruct (g_pc g) eqn:Epc; step_split H; try discriminate H;
        inversion H; subst; cbn;
        rewrite (count_gens_insert _ _ _ _ _ Eg), Epc; cbn; lia.
Qed.

Lemma count_writes_app tr1 tr2 :
  count_writes (tr1 ++ tr2) = count_writes tr1 + count_writes tr2.
Proof.
  induction tr1 as [|[p a] tr1 IH]; cbn [app count_writes]; [lia|].
  destruct a; lia.
Qed.

Lemma run_after_flag ms : forall w w' tr,
  state (w_shm w) <> 0 -> run ms w = Some (w', tr) ->
  state (w_shm w') <> 0
  /\ count_gens about_to_write (w_gens w') + count_writes tr
     = count_gens about_to_write (w_gens w).
Proof.
  induction ms as [|m ms IH]; intros w w' tr Hs H; simpl in H.
  - injection H as <- <-. cbn. split; [assumption | lia].
  - destruct (step m w) as [[w1 e]|] eqn:Es; [|discriminate].
    destruct (run ms w1) as [[w2 tr']|] eqn:Er; [|discriminate].
    injection H as <- <-.
    destruct (step_after_flag _ _ _ _ Hs Es) as [Hs1 Hc1].
    destruct (IH _ _ _ Hs1 Er) as [Hs2 Hc2]. split; [assumption|].
    change (e :: tr') with ([e] ++ tr'). rewrite count_writes_app. lia.
Qed.

(** X12. Once the termination flag is set it stays set, and from then
    on at most one more record is written to the circular buffer: the
    record of the generator that was between its test of the flag and
    its [circ_buf_write] when the flag was set, if there was one. *)
Theorem X12_one_record_after_the_flag
    (n : nat) (ms1 ms2 : list move) (w1 w2 : world) (tr1 tr2 : list event) :
  run ms1 (initial n) = Some (w1, tr1) ->
  state (w_shm w1) <> 0 ->
  run ms2 w1 = Some (w2, tr2) ->
  state (w_shm w2) = 1
  /\ count_writes tr2
     = count_gens about_to_write (w_gens w1)
       - count_gens about_to_write (w_gens w2)
  /\ count_writes tr2 <= 1.
Proof.
  intros H1 Hs H2.
  destruct (run_inv ms1 _ _ _ (inv_initial n) H1) as [Hinv1 _].
  destruct (run_after_flag ms2 _ _ _ Hs H2) as [Hs2 Hc].
  destruct (run_inv ms2 _ _ _ Hinv1 H2) as [Hinv2 _].
  pose proof (run_flag_inv ms2 _ _ _ Hinv1
                (run_flag_inv ms1 _ _ _ (inv_initial n) (flag_inv_initial n) H1)
                H2) as [Hv _ _ _].
  split; [tauto|]. split; [lia|].
  destruct Hinv1 as [Hm _ _ _ Hl _ _].
  pose proof (count_gens_le about_to_write in_cs (w_gens w1)) as Hle.
  assert (count_gens about_to_write (w_gens w1)
          <= count_gens in_cs (w_gens w1))
    by (apply Hle; intros []; (discriminate || reflexivity)).
  pose proof (count_gens_nonneg about_to_write (w_gens w2)). lia.
Qed.

Lemma X12_one_record_after_the_flag_witness :
  state (w_shm (fst late_end)) = 1
  /\ count_writes (snd late_end)
     = count_gens about_to_write (w_gens (fst late_state))
       - count_gens about_to_write (w_gens (fst late_end))
  /\ count_writes (snd late_end) <= 1.
Proof.
  apply (X12_one_record_after_the_flag 1 late_schedule late_finish
           (fst late_state) (fst late_end) (snd late_state) (snd late_end)).
  - vm_compute. reflexivity.
  - vm_compute. discriminate.
  - vm_compute. reflexivity.
Defined.

(** A generator inside the critical section can make its next step once
    the supervisor has exited: the slot it may wait for is there. *)
Lemma in_cs_can_step w j h out :
  shm_ok w -> flag_inv w -> s_pc (w_sup w) = SExit ->
  w_gens w !! j = Some h -> in_cs (g_pc h) = true ->
  step (MGen j out) w <> None.
Proof.
  intros [Hmem Hwp _] [_ _ _ Hfr] Hex Hh Hcs.
  cbn [step]. unfold step_gen. rewrite Hh.
  destruct (g_pc h) eqn:Epc; try discriminate Hcs.
  - destruct (state (w_shm w) =? 0); discriminate.
  - pose proof (count_gens_pos at_wait_free _ j h Hh) as Hone.
    rewrite Epc in Hone. specialize (Hone eq_refl). specialize (Hfr Hex).
    replace (0 <? sem_free w) with true by (symmetry; apply Z.ltb_lt; lia).
    discriminate.
  - rewrite (circ_buf_write_done _ _ Hmem Hwp). discriminate.
  - discriminate.
  - discriminate.
Qed.

(** X13. The shutdown does not leave a generator stuck. In every state
    of a run in which the supervisor has exited, a generator that has
    not exited can make its next step, or it waits for [sem_mutex]
    while another generator holds it, and that one can make its next
    step: a generator found waiting in [sem_wait(sem_free)] has the
    slot that the last [sem_post(sem_free)] of the supervisor
    released. *)
Theorem X13_shutdown_leaves_no_generator_stuck
    (n : nat) (ms : list move) (w : world) (tr : list event) :
  run ms (initial n) = Some (w, tr) ->
  s_pc (w_sup w) = SExit ->
  forall i g out,
    w_gens w !! i = Some g -> g_pc g <> GExit ->
    step (MGen i out) w <> None
    \/ (g_pc g = GWaitMutex
        /\ exists j h,
             j <> i /\ w_gens w !! j = Some h /\ in_cs (g_pc h) = true
             /\ forall out', step (MGen j out') w <> None).
Proof.
  intros H Hex i g out Hg Hne.
  destruct (run_inv ms _ _ _ (inv_initial n) H) as [Hinv _].
  pose proof (run_shm_ok ms _ _ _ (shm_ok_initial n) H) as Hok.
  pose proof (run_flag_inv ms _ _ _ (inv_initial n) (flag_inv_initial n) H)
    as Hfl.
  destruct (in_cs (g_pc g)) eqn:Ecs.
  { left. apply (in_cs_can_step w i g out Hok Hfl Hex Hg Ecs). }
  destruct (g_pc g) eqn:Epc; try discriminate Ecs; try contradiction.
  - left. cbn [step]. unfold step_gen. rewrite Hg, Epc.
    destruct (g_quit g =? 0), (fst out =? 0); discriminate.
  - destruct (0 <? sem_mutex w) eqn:Em.
    + left. cbn [step]. unfold step_gen. rewrite Hg, Epc, Em. discriminate.
    + right. split; [reflexivity|].
      destruct Hinv as [Hm _ _ _ Hl _ _]. apply Z.ltb_ge in Em.
      destruct (count_gens_exists in_cs (w_gens w)) as (j & h & Hh & Hcs);
        [lia|].
      exists j, h. repeat split; try assumption.
      * intros ->. rewrite Hg in Hh. injection Hh as <-.
        rewrite Epc in Hcs. discriminate.
      * intros out'. apply (in_cs_can_step w j h out' Hok Hfl Hex Hh Hcs).
Qed.

Lemma X13_shutdown_leaves_no_generator_stuck_witness :
  s_pc (w_sup (fst full_state)) = SExit
  /\ w_gens (fst full_state) !! 0%nat
     = Some (MkGen GWaitFree 0 (snd one_record))
  /\ (step (MGen 0 one_record) (fst full_state) <> None
      \/ (g_pc (MkGen GWaitFree 0 (snd one_record)) = GWaitMutex
          /\ exists j h,
               j <> 0%nat /\ w_gens (fst full_state) !! j = Some h
               /\ in_cs (g_pc h) = true
               /\ forall out', step (MGen j out') (fst full_state) <> None)).
Proof.
  split; [vm_compute; reflexivity|]. split; [vm_compute; reflexivity|].
  apply (X13_shutdown_leaves_no_generator_stuck 2 full_schedule
           (fst full_state) (snd full_state)).
  - vm_compute. reflexivity.
  - vm_compute. reflexivity.
  - vm_compute. reflexivity.
  - discriminate.
Defined.

(** ** The best solution *)

Lemma step_best m w w' e :
  step m w = Some (w', e) -> 0 < s_best (w_sup w) ->
  0 < s_best (w_sup w') <= s_best (w_sup w).
Proof.
  intros H Hb. destruct m as [|eintr|i out].
  - cbn [step] in H. unfold step_signal in H.
    step_split H; inversion H; cbn; lia.
  - cbn [step] in H. unfold step_sup in H.
    step_split H; inversion H; subst; cbn; lia.
  - apply step_gen_private in H. rewrite H. lia.
Qed.

(** ** Why the supervisor stops *)

Lemma c_str_bytes_length l : (length (c_str_bytes l) <= length l)%nat.
Proof.
  induction l as [|c l IH]; simpl; [lia|]. destruct (is_nul c); simpl; lia.
Qed.

Lemma countEdges_zero s :
  Z.of_nat (length s) < 2 ^ 32 -> countEdges s = Some 0 -> s = [].
Proof.
  intros Hlen H. destruct s as [|x s]; [reflexivity|].
  rewrite countEdges_nonempty in H by (congruence || assumption).
  pose proof (count_spaces_bounds (skip_leading_space (x :: s))).
  injection H as H. lia.
Qed.

Lemma step_verdict m w w' e :
  shm_ok w -> verdict_inv w -> step m w = Some (w', e) -> verdict_inv w'.
Proof.
  intros [_ _ Hed] [Hfl Hc] H.
  assert (Hz : forall z, countEdges (string_in (s_edges (w_sup w))) = Some z ->
               (z =? 0) = true -> string_in (s_edges (w_sup w)) = []).
  { intros z E Ez. apply Z.eqb_eq in Ez. subst z.
    apply countEdges_zero; [|assumption].
    pose proof (c_str_bytes_length (s_edges (w_sup w))) as Hle.
    unfold string_in. rewrite Hed in Hle. change (2 ^ 32) with 4294967296.
    unfold MAX_LINE in *. lia. }
  destruct m as [|eintr|i out]; cbn [step] in H.
  - unfold step_signal in H.
    destruct (s_pc (w_sup w)) eqn:Epc; try discriminate H;
      inversion H; subst; split; cbn; rewrite ?Epc;
      solve [assumption | intros _; left; discriminate ].
  - unfold step_sup in H.
    destruct (s_pc (w_sup w)) eqn:Epc; step_split H; try discriminate H;
      inversion H; subst; split; cbn; rewrite ?Epc in *;
      try solve [assumption | reflexivity | discriminate | auto
                | intros _; left; apply Z.eqb_neq; assumption
                | intros _; right; eauto ].
  - pose proof (step_gen_private _ _ _ _ _ H) as Hs.
    pose proof (step_state (MGen i out) _ _ _ H) as Hst.
    replace (is_set_state e) with false in Hst.
    + split; rewrite Hs, ?Hst; assumption.
    + unfold step_gen in H.
      step_split H; inversion H; reflexivity.
Qed.

Lemma verdict_initial n : verdict_inv (initial n).
Proof. split; cbn; discriminate. Qed.

Lemma run_verdict ms : forall w w' tr,
  shm_ok w -> verdict_inv w -> run ms w = Some (w', tr) -> verdict_inv w'.
Proof.
  induction ms as [|m ms IH]; intros w w' tr Hok Hv H; simpl in H.
  - injection H as <- <-. assumption.
  - destruct (step m w) as [[w1 e]|] eqn:Es; [|discriminate].
    destruct (run ms w1) as [[w2 tr']|] eqn:Er; [|discriminate].
    injection H as <- <-.
    apply (IH w1 w2 tr'); [| |assumption].
    + apply (step_shm_ok _ _ _ _ Hok Es).
    + apply (step_verdict _ _ _ _ Hok Hv Es).
Qed.

Lemma step_quit m w w' e :
  step m w = Some (w', e) ->
  s_quit (w_sup w') = if is_signal e then 1 else s_quit (w_sup w).
Proof.
  intros H. destruct m as [|eintr|i out]; cbn [step] in H.
  - unfold step_signal in H. step_split H; inversion H; reflexivity.
  - unfold step_sup in H. step_split H; inversion H; reflexivity.
  - unfold step_gen in H. step_split H; inversion H; reflexivity.
Qed.

Lemma run_quit ms : forall w w' tr,
  run ms w = Some (w', tr) ->
  s_quit (w_sup w') = if existsb is_signal tr then 1 else s_quit (w_sup w).
Proof.
  induction ms as [|m ms IH]; intros w w' tr H; simpl in H.
  - injection H as <- <-. reflexivity.
  - destruct (step m w) as [[w1 e]|] eqn:Es; [|discriminate].
    destruct (run ms w1) as [[w2 tr']|] eqn:Er; [|discriminate].
    injection H as <- <-. rewrite (IH _ _ _ Er), (step_quit _ _ _ _ Es).
    cbn [existsb]. destruct (is_signal e), (existsb is_signal tr');
      reflexivity.
Qed.

(** X14. The supervisor stops the generators for one of two reasons
    only. In every state of a run in which the termination flag is set,
    or the supervisor is past its loop, a signal was caught (by
    [handle_signal], or as the interruption of [sem_wait]) or the
    last record the supervisor read is the empty string, the report of
    a coloring without conflict; and the variable [quit] of the
    supervisor is nonzero exactly when a signal was caught. *)
Theorem X14_supervisor_stops_on_signal_or_empty_record
    (n : nat) (ms : list move) (w : world) (tr : list event) :
  run ms (initial n) = Some (w, tr) ->
  s_quit (w_sup w) = (if existsb is_signal tr then 1 else 0)
  /\ (state (w_shm w) = 1 \/ after_loop (s_pc (w_sup w)) = true ->
      existsb is_signal tr = true
      \/ string_in (s_edges (w_sup w)) = []).
Proof.
  intros H.
  pose proof (run_quit ms _ _ _ H) as Hq. cbn in Hq.
  pose proof (run_verdict ms _ _ _ (shm_ok_initial n) (verdict_initial n) H)
    as [Hfl Hc].
  split; [assumption|].
  intros Hstop.
  assert (Hafter : after_loop (s_pc (w_sup w)) = true) by tauto.
  destruct (Hc Hafter) as [Hquit|Hempty]; [left | right; assumption].
  rewrite Hq in Hquit. destruct (existsb is_signal tr); congruence.
Qed.

Lemma X14_supervisor_stops_on_signal_or_empty_record_witness :
  s_quit (w_sup (fst stop_state))
  = (if existsb is_signal (snd stop_state) then 1 else 0)
  /\ (state (w_shm (fst stop_state)) = 1
      \/ after_loop (s_pc (w_sup (fst stop_state))) = true ->
      existsb is_signal (snd stop_state) = true
      \/ string_in (s_edges (w_sup (fst stop_state))) = []).
Proof.
  apply (X14_supervisor_stops_on_signal_or_empty_record 1 stop_schedule
           (fst stop_state) (snd stop_state)).
  vm_compute. reflexivity.
Defined.

Lemma run_best ms : forall w w' tr,
  run ms w = Some (w', tr) -> 0 < s_best (w_sup w) ->
  0 < s_best (w_sup w') <= s_best (w_sup w).
Proof.
  induction ms as [|m ms IH]; intros w w' tr H Hb; simpl in H.
  - injection H as <- <-. lia.
  - destruct (step m w) as [[w1 e]|] eqn:Es; [|discriminate].
    destruct (run ms w1) as [[w2 tr']|] eqn:Er; [|discriminate].
    injection H as <- <-.
    pose proof (step_best _ _ _ _ Es Hb) as H1.
    pose proof (IH _ _ _ Er (proj1 H1)) as H2. lia.
Qed.

(** X15. [bestSolution] of the supervisor starts at [UINT_MAX], is
    never 0 and never grows: along a run, a later value is at most an
    earlier one. *)
Theorem X15_best_solution_only_improves
    (n : nat) (ms1 ms2 : list move) (w1 w2 : world) (tr1 tr2 : list event) :
  run ms1 (initial n) = Some (w1, tr1) ->
  run ms2 w1 = Some (w2, tr2) ->
  0 < s_best (w_sup w2) /\ s_best (w_sup w2) <= s_best (w_sup w1)
  /\ s_best (w_sup w1) <= UINT_MAX.
Proof.
  intros H1 H2.
  assert (H0 : 0 < s_best (w_sup (initial n))) by reflexivity.
  pose proof (run_best ms1 _ _ _ H1 H0) as Hb1.
  pose proof (run_best ms2 _ _ _ H2 (proj1 Hb1)) as Hb2.
  cbn [initial w_sup s_best] in Hb1. lia.
Qed.

Lemma X15_best_solution_only_improves_witness :
  0 < s_best (w_sup (fst count_state))
  /\ s_best (w_sup (fst count_state)) <= s_best (w_sup (fst demo_state))
  /\ s_best (w_sup (fst demo_state)) <= UINT_MAX.
Proof.
  apply (X15_best_solution_only_improves 1 demo_schedule count_schedule
           (fst demo_state) (fst count_state) (snd demo_state)
           (snd count_state)).
  - vm_compute. reflexivity.
  - vm_compute. reflexivity.
Defined.

(** ** The supervisor creates the names and removes them *)

Lemma initSHM_creates o :
  initSHM o = (Os ({[SHM_NAME]} ∪ shm_objects o) (sem_objects o), Ret tt).
Proof.
  unfold initSHM, shm_open, open_named.
  destruct (decide (SHM_NAME ∈ shm_objects o)) as [Hin|Hout]; cbn.
  - do 2 f_equal. apply set_eq. intros y.
    rewrite elem_of_union, elem_of_singleton. split; [auto|].
    intros [->|?]; assumption.
  - reflexivity.
Qed.

Lemma initSEM_new o name v :
  name ∉ sem_objects o ->
  initSEM o name v
  = (Os (shm_objects o) ({[name]} ∪ sem_objects o), Ret tt).
Proof.
  intros H. unfold initSEM, sem_open, open_named.
  destruct (decide (name ∈ sem_objects o)); [contradiction|]. reflexivity.
Qed.

Lemma initSEM_exists o name v :
  name ∈ sem_objects o ->
  initSEM o name v = (o, ErrorExit EXIT_FAILURE "sem_open() failed").
Proof.
  intros H. unfold initSEM, sem_open, open_named.
  destruct (decide (name ∈ sem_objects o)); [|contradiction].
  cbn. destruct o; reflexivity.
Qed.

Lemma cleanupSHM_removes myprog o :
  SHM_NAME ∈ shm_objects o ->
  Supervisor.cleanupSHM myprog o
  = (Os (shm_objects o ∖ {[SHM_NAME]}) (sem_objects o),
     [Supervisor.Sys SysUnmapClose; Supervisor.SysShmUnlink SHM_NAME]).
Proof.
  intros H.
  unfold Supervisor.cleanupSHM, Supervisor.shm_unlink,
    Supervisor.unlink_named.
  destruct (decide (SHM_NAME ∈ shm_objects o)); [|contradiction].
  reflexivity.
Qed.

Lemma cleanupSem_removes name label myprog o :
  name ∈ sem_objects o ->
  Supervisor.cleanupSem name label myprog o
  = (Os (shm_objects o) (sem_objects o ∖ {[name]}),
     [Supervisor.Sys (SysSemClose name); Supervisor.SysSemUnlink name]).
Proof.
  intros H.
  unfold Supervisor.cleanupSem, Supervisor.sem_unlink,
    Supervisor.unlink_named.
  destruct (decide (name ∈ sem_objects o)); [|contradiction].
  reflexivity.
Qed.

Lemma sem_names_distinct :
  SEM_USED <> SEM_FREE /\ SEM_USED <> SEM_MUTEX /\ SEM_FREE <> SEM_MUTEX.
Proof. repeat split; discriminate. Qed.

Lemma remove_added (x : string) (S : gset string) :
  x ∉ S -> ({[x]} ∪ S) ∖ {[x]} = S.
Proof.
  intros H. apply set_eq. intros y.
  rewrite elem_of_difference, elem_of_union, elem_of_singleton.
  split; [tauto|]. intros Hy. split; [auto|]. intros ->. contradiction.
Qed.

Lemma remove_present (x : string) (S : gset string) :
  ({[x]} ∪ S) ∖ {[x]} = S ∖ {[x]}.
Proof.
  apply set_eq. intros y.
  rewrite !elem_of_difference, elem_of_union, elem_of_singleton. tauto.
Qed.

Lemma cleanupSHM_created myprog (M S : gset string) :
  Supervisor.cleanupSHM myprog (Os ({[SHM_NAME]} ∪ M) S)
  = (Os (M ∖ {[SHM_NAME]}) S,
     [Supervisor.Sys SysUnmapClose; Supervisor.SysShmUnlink SHM_NAME]).
Proof.
  rewrite cleanupSHM_removes
    by (cbn; apply elem_of_union_l, elem_of_singleton; reflexivity).
  cbn. rewrite remove_present. reflexivity.
Qed.

Lemma cleanupSem_created name label myprog (M S : gset string) :
  name ∉ S ->
  Supervisor.cleanupSem name label myprog (Os M ({[name]} ∪ S))
  = (Os M S,
     [Supervisor.Sys (SysSemClose name); Supervisor.SysSemUnlink name]).
Proof.
  intros H. rewrite cleanupSem_removes
    by (cbn; apply elem_of_union_l, elem_of_singleton; reflexivity).
  cbn. rewrite remove_added by assumption. reflexivity.
Qed.

Lemma not_in_added (x y : string) (S : gset string) :
  x <> y -> x ∉ S -> x ∉ ({[y]} ∪ S).
Proof.
  intros Hne Hx. rewrite elem_of_union, elem_of_singleton. tauto.
Qed.

(** X16. The startup of the supervisor ends in one of three ways.
    With an option or an argument it prints its usage and exits,
    and no name is touched. When one of the three semaphores exists it
    reports that [sem_open] failed and exits with [EXIT_FAILURE]; the
    semaphores are then as they were, and the shared memory object
    does not exist any more, whether this process created it or
    found it. Otherwise the four names exist afterwards, all it did was
    to open them, and the four cleanup functions are registered. *)
Theorem X16_supervisor_startup_outcome (o : os) (argv : list string) :
  let myprog := default ""%string (head argv) in
  (getopt argv <> -1 \/ length argv <> 1%nat ->
   Supervisor.startup o argv = (o, Supervisor.usage myprog, None))
  /\ (getopt argv = -1 -> length argv = 1%nat ->
      SEM_USED ∈ sem_objects o \/ SEM_FREE ∈ sem_objects o
      \/ SEM_MUTEX ∈ sem_objects o ->
      exists evs,
        Supervisor.startup o argv
        = (Os (shm_objects o ∖ {[SHM_NAME]}) (sem_objects o), evs, None)
        /\ In (Supervisor.print_error myprog "sem_open() failed") evs
        /\ last evs = Some (Supervisor.Sys (SysExit EXIT_FAILURE)))
  /\ (getopt argv = -1 -> length argv = 1%nat ->
      SEM_USED ∉ sem_objects o -> SEM_FREE ∉ sem_objects o ->
      SEM_MUTEX ∉ sem_objects o ->
      Supervisor.startup o argv
      = (Os ({[SHM_NAME]} ∪ shm_objects o)
           ({[SEM_MUTEX]} ∪ ({[SEM_FREE]} ∪ ({[SEM_USED]} ∪ sem_objects o))),
         [Supervisor.Sys (SysShmOpen SHM_NAME (Z.lor O_RDWR O_CREAT));
          Supervisor.Sys (SysSemOpen SEM_USED (Z.lor O_CREAT O_EXCL));
          Supervisor.Sys (SysSemOpen SEM_FREE (Z.lor O_CREAT O_EXCL));
          Supervisor.Sys (SysSemOpen SEM_MUTEX (Z.lor O_CREAT O_EXCL))],
         Some [Supervisor.CleanupSemMutex; Supervisor.CleanupSemFree;
               Supervisor.CleanupSemUsed; Supervisor.CleanupSHM])).
Proof.
  intros myprog. destruct sem_names_distinct as (Huf & Hum & Hfm).
  unfold Supervisor.startup. fold myprog.
  split; [|split].
  - intros H. destruct (getopt argv =? -1) eqn:E1; cbn [negb]; [|reflexivity].
    apply Z.eqb_eq in E1.
    destruct (length argv =? 1)%nat eqn:E2; cbn [negb]; [|reflexivity].
    apply Nat.eqb_eq in E2. destruct H; contradiction.
  - intros -> -> Hex. cbn [Z.eqb negb Nat.eqb Pos.eqb].
    rewrite initSHM_creates.
    destruct (decide (SEM_USED ∈ sem_objects o)) as [Hu|Hu].
    { rewrite initSEM_exists by assumption.
      unfold Supervisor.after, Supervisor.error_exit, Supervisor.exit.
      cbn [Supervisor.run_handlers Supervisor.run_handler].
      rewrite cleanupSHM_created.
      eexists. split; [reflexivity|]. split; [|reflexivity].
      cbn. auto 10. }
    rewrite initSEM_new by assumption. cbn [shm_objects sem_objects].
    destruct (decide (SEM_FREE ∈ sem_objects o)) as [Hf|Hf].
    { rewrite initSEM_exists by (cbn; apply elem_of_union_r; assumption).
      unfold Supervisor.after, Supervisor.error_exit, Supervisor.exit.
      cbn [Supervisor.run_handlers Supervisor.run_handler].
      unfold Supervisor.cleanupSemUsed.
      rewrite cleanupSem_created by assumption.
      rewrite cleanupSHM_created.
      eexists. split; [reflexivity|]. split; [|reflexivity].
      cbn. auto 10. }
    rewrite initSEM_new by (cbn; apply not_in_added; auto).
    cbn [shm_objects sem_objects].
    assert (Hm : SEM_MUTEX ∈ sem_objects o) by tauto.
    rewrite initSEM_exists by (cbn; do 2 apply elem_of_union_r; assumption).
    unfold Supervisor.after, Supervisor.error_exit, Supervisor.exit.
    cbn [Supervisor.run_handlers Supervisor.run_handler].
    unfold Supervisor.cleanupSemUsed, Supervisor.cleanupSemFree.
    rewrite cleanupSem_created by (apply not_in_added; auto).
    rewrite cleanupSem_created by assumption.
    rewrite cleanupSHM_created.
    eexists. split; [reflexivity|]. split; [|reflexivity].
    cbn. auto 10.
  - intros -> -> Hu Hf Hm. cbn [Z.eqb negb Nat.eqb Pos.eqb].
    rewrite initSHM_creates.
    rewrite initSEM_new by assumption. cbn [shm_objects sem_objects].
    rewrite initSEM_new by (cbn; apply not_in_added; auto).
    cbn [shm_objects sem_objects].
    rewrite initSEM_new
      by (cbn; apply not_in_added; [auto|]; apply not_in_added; auto).
    reflexivity.
Qed.

Lemma startup_reached o argv o1 evs hs :
  Supervisor.startup o argv = (o1, evs, Some hs) ->
  (SEM_USED ∉ sem_objects o) /\ (SEM_FREE ∉ sem_objects o)
  /\ (SEM_MUTEX ∉ sem_objects o)
  /\ o1 = Os ({[SHM_NAME]} ∪ shm_objects o)
            ({[SEM_MUTEX]} ∪ ({[SEM_FREE]} ∪ ({[SEM_USED]} ∪ sem_objects o)))
  /\ hs = [Supervisor.CleanupSemMutex; Supervisor.CleanupSemFree;
           Supervisor.CleanupSemUsed; Supervisor.CleanupSHM].
Proof.
  destruct sem_names_distinct as (Huf & Hum & Hfm).
  unfold Supervisor.startup.
  destruct (negb (getopt argv =? -1)); [discriminate|].
  destruct (negb (length argv =? 1)%nat); [discriminate|].
  rewrite initSHM_creates.
  destruct (decide (SEM_USED ∈ sem_objects o)) as [Hu|Hu];
    [rewrite initSEM_exists by assumption; discriminate|].
  rewrite initSEM_new by assumption. cbn [shm_objects sem_objects].
  destruct (decide (SEM_FREE ∈ sem_objects o)) as [Hf|Hf];
    [rewrite initSEM_exists by (cbn; apply elem_of_union_r; assumption);
     discriminate|].
  rewrite initSEM_new by (cbn; apply not_in_added; auto).
  cbn [shm_objects sem_objects].
  destruct (decide (SEM_MUTEX ∈ sem_objects o)) as [Hm|Hm];
    [rewrite initSEM_exists
       by (cbn; do 2 apply elem_of_union_r; assumption);
     discriminate|].
  rewrite initSEM_new
    by (cbn; apply not_in_added; [auto|]; apply not_in_added; auto).
  intros [= <- <- <-]. auto.
Qed.

(** X17. What the supervisor creates it removes. When the startup of
    the supervisor got to the loop and the names are as it left them,
    the [exit] at the end of [main] closes and unlinks the three
    semaphores, the latest created first, then unmaps and unlinks the
    shared memory, prints no error, and exits with [EXIT_SUCCESS];
    the semaphores that exist are then those that existed before the
    startup, and so are the shared memory objects, but for [SHM_NAME],
    which is gone even if it was there before. *)
Theorem X17_supervisor_removes_what_it_created
    (o o1 : os) (argv : list string) (evs : list Supervisor.sup_event)
    (hs : list Supervisor.handler) (myprog : string) :
  Supervisor.startup o argv = (o1, evs, Some hs) ->
  Supervisor.exit myprog EXIT_SUCCESS hs o1
  = (Os (shm_objects o ∖ {[SHM_NAME]}) (sem_objects o),
     [Supervisor.Sys (SysSemClose SEM_MUTEX); Supervisor.SysSemUnlink SEM_MUTEX;
      Supervisor.Sys (SysSemClose SEM_FREE); Supervisor.SysSemUnlink SEM_FREE;
      Supervisor.Sys (SysSemClose SEM_USED); Supervisor.SysSemUnlink SEM_USED;
      Supervisor.Sys SysUnmapClose; Supervisor.SysShmUnlink SHM_NAME;
      Supervisor.Sys (SysExit EXIT_SUCCESS)])
  /\ Supervisor.finish myprog o1 = Supervisor.exit myprog EXIT_SUCCESS hs o1.
Proof.
  intros H. destruct sem_names_distinct as (Huf & Hum & Hfm).
  apply startup_reached in H as (Hu & Hf & Hm & -> & ->).
  split; [|reflexivity].
  unfold Supervisor.exit.
  cbn [Supervisor.run_handlers Supervisor.run_handler].
  unfold Supervisor.cleanupSemUsed, Supervisor.cleanupSemFree,
    Supervisor.cleanupSemMutex.
  rewrite cleanupSem_created
    by (apply not_in_added; [auto|]; apply not_in_added; auto).
  rewrite cleanupSem_created by (apply not_in_added; auto).
  rewrite cleanupSem_created by assumption.
  rewrite cleanupSHM_created. reflexivity.
Qed.

Lemma X17_supervisor_removes_what_it_created_witness :
  Supervisor.exit "supervisor" EXIT_SUCCESS
    (default [] (snd (Supervisor.startup os_empty ["supervisor"%string])))
    (fst (fst (Supervisor.startup os_empty ["supervisor"%string])))
  = (Os (shm_objects os_empty ∖ {[SHM_NAME]}) (sem_objects os_empty),
     [Supervisor.Sys (SysSemClose SEM_MUTEX); Supervisor.SysSemUnlink SEM_MUTEX;
      Supervisor.Sys (SysSemClose SEM_FREE); Supervisor.SysSemUnlink SEM_FREE;
      Supervisor.Sys (SysSemClose SEM_USED); Supervisor.SysSemUnlink SEM_USED;
      Supervisor.Sys SysUnmapClose; Supervisor.SysShmUnlink SHM_NAME;
      Supervisor.Sys (SysExit EXIT_SUCCESS)])
  /\ Supervisor.finish "supervisor"
       (fst (fst (Supervisor.startup os_empty ["supervisor"%string])))
     = Supervisor.exit "supervisor" EXIT_SUCCESS
         (default [] (snd (Supervisor.startup os_empty ["supervisor"%string])))
         (fst (fst (Supervisor.startup os_empty ["supervisor"%string]))).
Proof.
  apply (X17_supervisor_removes_what_it_created os_empty _
           ["supervisor"%string]
           (snd (fst (Supervisor.startup os_empty ["supervisor"%string])))).
  vm_compute. reflexivity.
Defined.





(** ** Numbers that do not fit an [int] *)

Lemma strtol_digits_any ds rest :
  ds <> [] -> Forall is_digit ds ->
  digit_of (deref rest) = None ->
  strtol (ds ++ rest)
  = if decimal_value ds >? LONG_MAX then (LONG_MAX, rest, ERANGE)
    else (decimal_value ds, rest, 0).
Proof.
  intros Hne Hds Hrest.
  destruct ds as [|c ds]; [congruence|].
  inversion Hds as [|? ? Hc Hds']; subst.
  unfold strtol. cbn [app skip_space].
  rewrite (digit_not_space c Hc).
  destruct (digit_not_sign c Hc) as [-> ->].
  change (c :: ds ++ rest) with ((c :: ds) ++ rest).
  rewrite read_digits_run by assumption.
  fold (decimal_value (c :: ds)).
  pose proof (value_from_nonneg (c :: ds) 0 ltac:(lia)) as Hpos.
  fold (decimal_value (c :: ds)) in Hpos.
  destruct (decimal_value (c :: ds) >? LONG_MAX); [reflexivity|].
  replace (decimal_value (c :: ds) <? LONG_MIN) with false
    by (symmetry; apply Z.ltb_ge; unfold LONG_MIN; lia).
  reflexivity.
Qed.

Lemma parseNumber_too_big ds rest :
  ds <> [] -> Forall is_digit ds ->
  digit_of (deref rest) = None ->
  INT_MAX < decimal_value ds ->
  exists v st, parseNumber (ds ++ rest) = (v, rest, st)
               /\ (st = -1 \/ st = -3)
               /\ (st = -1 <-> LONG_MAX < decimal_value ds).
Proof.
  intros Hne Hds Hrest Hbig. unfold parseNumber.
  rewrite strtol_digits_any by assumption.
  destruct (decimal_value ds >? LONG_MAX) eqn:E.
  - apply Z.gtb_lt in E. eexists _, _. split; [reflexivity|].
    cbn. split; [auto | tauto].
  - rewrite Z.gtb_ltb in E. apply Z.ltb_ge in E.
    cbn [Z.eqb ERANGE andb orb negb].
    replace (same_ptr rest (ds ++ rest)) with false.
    2:{ symmetry. unfold same_ptr. apply Nat.eqb_neq. rewrite length_app.
        destruct ds; [congruence|]. simpl. lia. }
    replace (decimal_value ds >? INT_MAX) with true
      by (symmetry; apply Z.gtb_lt; assumption).
    cbn [orb]. eexists _, _. split; [reflexivity|].
    split; [auto|]. split; [discriminate | lia].
Qed.

(** X19. A number that does not fit an [int] makes the argument
    malformed: for an argument made of a nonempty run of decimal
    digits, a [-] and another nonempty run of digits, [parseEdge]
    returns 0 exactly when both numbers are at most [INT_MAX], and -1
    otherwise. *)
Theorem X19_parseEdge_rejects_numbers_beyond_int
    (nodes : Z * Z) (du dv : list ascii) :
  du <> [] -> dv <> [] ->
  Forall is_digit du -> Forall is_digit dv ->
  (fst (parseEdge nodes (du ++ DASH :: dv)) = 0
   <-> decimal_value du <= INT_MAX /\ decimal_value dv <= INT_MAX)
  /\ (fst (parseEdge nodes (du ++ DASH :: dv)) = 0
      \/ fst (parseEdge nodes (du ++ DASH :: dv)) = -1).
Proof.
  intros Hu Hv Hdu Hdv.
  assert (Hcase :
    (decimal_value du <= INT_MAX /\ decimal_value dv <= INT_MAX
     /\ fst (parseEdge nodes (du ++ DASH :: dv)) = 0)
    \/ ((INT_MAX < decimal_value du \/ INT_MAX < decimal_value dv)
        /\ fst (parseEdge nodes (du ++ DASH :: dv)) = -1)).
  { unfold parseEdge.
    destruct (Z_le_gt_dec (decimal_value du) INT_MAX) as [Hmu|Hmu].
    - rewrite (parseNumber_digits du (DASH :: dv))
        by (try assumption; reflexivity).
      cbn [deref tail]. rewrite Ascii.eqb_refl.
      cbn [negb orb Z.ltb Z.compare].
      destruct (Z_le_gt_dec (decimal_value dv) INT_MAX) as [Hmv|Hmv].
      + pose proof (parseNumber_digits dv [] Hv Hdv eq_refl Hmv) as Hp.
        rewrite app_nil_r in Hp. rewrite Hp. left. auto.
      + destruct (parseNumber_too_big dv [] Hv Hdv eq_refl ltac:(lia))
          as (v & st & Hp & Hst & _).
        rewrite app_nil_r in Hp. rewrite Hp.
        replace (st <? 0) with true by (symmetry; apply Z.ltb_lt; lia).
        rewrite orb_true_r. right. split; [lia | reflexivity].
    - destruct (parseNumber_too_big du (DASH :: dv) Hu Hdu eq_refl
                  ltac:(lia)) as (v & st & -> & Hst & _).
      replace (st <? 0) with true by (symmetry; apply Z.ltb_lt; lia).
      rewrite orb_true_r. right. split; [lia | reflexivity]. }
  destruct Hcase as [(H1 & H2 & ->)|(H1 & ->)].
  - split; [tauto | auto].
  - split; [|auto]. split; [discriminate | lia].
Qed.

Lemma X19_parseEdge_rejects_numbers_beyond_int_witness :
  (fst (parseEdge (0, 0)
          (list_ascii_of_string "2147483648" ++ DASH
             :: list_ascii_of_string "1")) = 0
   <-> decimal_value (list_ascii_of_string "2147483648") <= INT_MAX
       /\ decimal_value (list_ascii_of_string "1") <= INT_MAX)
  /\ (fst (parseEdge (0, 0)
             (list_ascii_of_string "2147483648" ++ DASH
                :: list_ascii_of_string "1")) = 0
      \/ fst (parseEdge (0, 0)
                (list_ascii_of_string "2147483648" ++ DASH
                   :: list_ascii_of_string "1")) = -1).
Proof.
  apply X19_parseEdge_rejects_numbers_beyond_int.
  - discriminate.
  - discriminate.
  - repeat constructor; discriminate.
  - repeat constructor; discriminate.
Defined.
